(** * zerolog: the producer/consumer transport of include/zerolog/logger.hpp

    A shallow embedding of [LockFreeRingBuffer], [ThreadLocalBatch] and
    [Logger], followed by the properties of the specification that were
    checked against it.

    Conventions.
    - [size_t] values are [Z] with the wrap-around at 2^64 written out.
    - Raw storage ([char] arrays) is a sparse byte memory with explicit
      bounds: an access outside the object is [Fault] (undefined behaviour).
    - A loop that waits for another thread takes fuel; running out of it is
      [OutOfFuel]. What the other thread does while this one yields or
      sleeps, and in [Interleaved] also between two accesses of this one to
      shared state, is an explicit parameter. *)

From Stdlib Require Import ZArith Lia List.
From Stdlib Require Import Ascii String DecimalString DecimalPos DecimalZ.
From stdpp Require Import base option list gmap.

Local Open Scope Z_scope.

(** ** Outcomes *)

Inductive outcome (A : Type) : Type :=
| Ret (a : A)
| Fault
| OutOfFuel.
Arguments Ret {A} a.
Arguments Fault {A}.
Arguments OutOfFuel {A}.

Definition bind {A B : Type} (m : outcome A) (f : A -> outcome B) : outcome B :=
  match m with
  | Ret a => f a
  | Fault => Fault
  | OutOfFuel => OutOfFuel
  end.

Notation "'do' x <- m ; k" := (bind m (fun x => k))
  (at level 10, x name, m at level 100, k at level 200).
Notation "'do' ' p <- m ; k" := (bind m (fun p => k))
  (at level 10, p strict pattern, m at level 100, k at level 200).

Definition returns {A} (m : outcome A) : Prop := exists a, m = Ret a.

(** ** Machine integers *)

Definition SIZE_WIDTH : Z := 64.
Definition wrap64 (z : Z) : Z := z mod 2 ^ SIZE_WIDTH.
Definition to_uint16 (z : Z) : Z := z mod 2 ^ 16.

(** ** Byte memory: one [char] array with its extent *)

Module Mem.

Record t := { size : Z; cells : gmap Z Z }.

(** value-initialised storage: every byte reads 0 *)
Definition zeros (n : Z) : t := {| size := n; cells := ∅ |}.

Definition load (m : t) (a : Z) : Z := default 0 (cells m !! a).

(** the addresses [off, off+1, ..., off+n-1] *)
Fixpoint range (off : Z) (n : nat) : list Z :=
  match n with
  | O => []
  | S n' => off :: range (off + 1) n'
  end.

Definition in_bounds (m : t) (off len : Z) : bool :=
  (0 <=? off) && (0 <=? len) && (off + len <=? size m).

Fixpoint store_bytes (c : gmap Z Z) (off : Z) (bs : list Z) : gmap Z Z :=
  match bs with
  | [] => c
  | b :: bs' => store_bytes (<[off := b]> c) (off + 1) bs'
  end.

(** [memcpy(m + off, src, len)]; [src] lists the bytes from the source
    pointer to the end of the source object. *)
Definition memcpy (m : t) (off : Z) (src : list Z) (len : Z) : outcome t :=
  if in_bounds m off len && (len <=? Z.of_nat (length src))
  then Ret {| size := size m;
              cells := store_bytes (cells m) off (take (Z.to_nat len) src) |}
  else Fault.

(** the bytes [m[off .. off+len)] *)
Definition read (m : t) (off len : Z) : outcome (list Z) :=
  if in_bounds m off len
  then Ret (map (load m) (range off (Z.to_nat len)))
  else Fault.

(** the bytes from [m + off] to the end of the object *)
Definition tail_from (m : t) (off : Z) : list Z :=
  map (load m) (range off (Z.to_nat (size m - off))).

(** a little-endian [uint16_t] at [m + off] *)
Definition load_u16 (m : t) (off : Z) : outcome Z :=
  if in_bounds m off 2
  then Ret (load m off + 256 * load m (off + 1))
  else Fault.

Definition store_u16 (m : t) (off : Z) (v : Z) : outcome t :=
  if in_bounds m off 2
  then Ret {| size := size m;
              cells := store_bytes (cells m) off [v mod 256; (v / 256) mod 256] |}
  else Fault.

End Mem.

(** ** class LockFreeRingBuffer *)

Module LockFreeRingBuffer.

(** [buffer_] is the storage seen from [aligned_buffer_]; its extent is
    [buffer_size_]. The allocation is 64 bytes longer than that, so the
    alignment in the constructor always succeeds. *)
Record t := {
  head_ : Z;
  tail_ : Z;
  buffer_ : Mem.t;
  entry_size_ : Z;
  max_entries_ : Z
}.

Definition buffer_size_ (q : t) : Z := Mem.size (buffer_ q).

Definition new (entry_size max_entries : Z) : t :=
  {| head_ := 0; tail_ := 0;
     buffer_ := Mem.zeros (wrap64 (entry_size * max_entries));
     entry_size_ := entry_size;
     max_entries_ := max_entries |}.

Definition with_buffer (q : t) (b : Mem.t) : t :=
  {| head_ := head_ q; tail_ := tail_ q; buffer_ := b;
     entry_size_ := entry_size_ q; max_entries_ := max_entries_ q |}.
Definition with_head (q : t) (h : Z) : t :=
  {| head_ := h; tail_ := tail_ q; buffer_ := buffer_ q;
     entry_size_ := entry_size_ q; max_entries_ := max_entries_ q |}.
Definition with_tail (q : t) (tl : Z) : t :=
  {| head_ := head_ q; tail_ := tl; buffer_ := buffer_ q;
     entry_size_ := entry_size_ q; max_entries_ := max_entries_ q |}.

(** offset of the slot of index [i]: [(i % max_entries_) * entry_size_] *)
Definition slot_of (q : t) (i : Z) : Z :=
  wrap64 ((i mod max_entries_ q) * entry_size_ q).

(** offset of the length trailer of the slot at [slot] *)
Definition trailer_of (q : t) (slot : Z) : Z := slot + entry_size_ q - 2.

(** The reservation loop of [try_enqueue]: [None] when the queue is full,
    otherwise the reserved index and the queue with [tail_] advanced. The
    compare-exchange is taken at the iteration where it succeeds. *)
Definition reserve (q : t) : option (Z * t) :=
  let current_tail := tail_ q in
  if wrap64 (current_tail - head_ q) >=? max_entries_ q then None
  else
    let next_tail := wrap64 (current_tail + 1) in
    Some (current_tail, with_tail q next_tail).

(** The slot write of [try_enqueue] for the reserved index. *)
Definition publish (q : t) (current_tail : Z) (data : list Z) (len : Z)
  : outcome t :=
  let slot := slot_of q current_tail in
  do b1 <- Mem.memcpy (buffer_ q) slot data len;
  do b2 <- Mem.store_u16 b1 (trailer_of q slot) (to_uint16 len);
  Ret (with_buffer q b2).

Definition try_enqueue (q : t) (data : list Z) (len : Z) : outcome (bool * t) :=
  match reserve q with
  | None => Ret (false, q)
  | Some (current_tail, q1) =>
      do q2 <- publish q1 current_tail data len;
      Ret (true, q2)
  end.

(** The spin of [try_dequeue] on the trailer at offset [trailer]; [yield] is
    what the other threads do to the queue during one
    [std::this_thread::yield()]. *)
Fixpoint await_trailer (yield : t -> t) (fuel : nat) (q : t) (trailer : Z)
  : outcome (Z * t) :=
  match fuel with
  | O => OutOfFuel
  | S fuel' =>
      do slot_len <- Mem.load_u16 (buffer_ q) trailer;
      if slot_len =? 0
      then await_trailer yield fuel' (yield q) trailer
      else Ret (slot_len, q)
  end.

(** [try_dequeue(data, len)]: the result is the returned flag, the bytes
    copied to [data] (their number is the value left in [len]) and the
    queue. [data_cap] is the extent of the caller's [data]. *)
Definition try_dequeue (yield : t -> t) (fuel : nat) (data_cap : Z) (q : t)
  : outcome (bool * list Z * t) :=
  let current_head := head_ q in
  if current_head >=? tail_ q then Ret (false, [], q)
  else if max_entries_ q =? 0 then Fault
  else
    let slot := slot_of q current_head in
    do '(slot_len, q1) <- await_trailer yield fuel q (trailer_of q slot);
    if data_cap <? slot_len then Fault
    else
      do bytes <- Mem.read (buffer_ q1) slot slot_len;
      do b <- Mem.store_u16 (buffer_ q1) (trailer_of q slot) 0;
      Ret (true, bytes, with_head (with_buffer q1 b) (wrap64 (current_head + 1))).

Definition size (q : t) : Z := wrap64 (tail_ q - head_ q).
Definition empty (q : t) : bool := size q =? 0.
Definition full (q : t) : bool := size q >=? max_entries_ q.

End LockFreeRingBuffer.

(** ** class ThreadLocalBatch *)

Module ThreadLocalBatch.

Definition BATCH_SIZE : Z := 32.
Definition ENTRY_SIZE : Z := 256.

Record t := {
  batch_ : Mem.t;
  count_ : Z;
  entry_size_ : Z
}.

Definition new : t :=
  {| batch_ := Mem.zeros (ENTRY_SIZE * BATCH_SIZE);
     count_ := 0;
     entry_size_ := ENTRY_SIZE |}.

Definition try_add (b : t) (data : list Z) (len : Z) : outcome (bool * t) :=
  if count_ b >=? BATCH_SIZE then Ret (false, b)
  else
    let slot := count_ b * entry_size_ b in
    do m1 <- Mem.memcpy (batch_ b) slot data (Z.min len (entry_size_ b - 2));
    do m2 <- Mem.store_u16 m1 (slot + entry_size_ b - 2) (to_uint16 len);
    Ret (true, {| batch_ := m2; count_ := count_ b + 1;
                  entry_size_ := entry_size_ b |}).

(** [operator[]]: the offset of entry [idx] in [batch_] *)
Definition index (b : t) (idx : Z) : Z := idx * entry_size_ b.

Definition size (b : t) : Z := count_ b.

Definition clear (b : t) : t :=
  {| batch_ := batch_ b; count_ := 0; entry_size_ := entry_size_ b |}.

End ThreadLocalBatch.

(** ** enum class LogLevel *)

Inductive LogLevel : Set := TRACE | DEBUG | INFO | WARN | ERROR | CRITICAL.

Definition level_to_int (l : LogLevel) : Z :=
  match l with
  | TRACE => 0 | DEBUG => 1 | INFO => 2 | WARN => 3 | ERROR => 4 | CRITICAL => 5
  end.

(** ** Sinks *)

Class Sink (S : Type) := {
  write : S -> list Z -> S;
  flush : S -> S
}.

Inductive NullSink : Set := null_sink.

#[global] Instance NullSink_Sink : Sink NullSink :=
  {| write := fun s _ => s; flush := fun s => s |}.

(** [stdout] as the bytes still in the stdio buffer and the bytes already
    handed on by [fflush]. *)
Record StdoutSink := {
  stdout_buffered : list Z;
  stdout_flushed : list Z
}.

#[global] Instance StdoutSink_Sink : Sink StdoutSink :=
  {| write := fun s sv =>
       {| stdout_buffered := stdout_buffered s ++ sv;
          stdout_flushed := stdout_flushed s |};
     flush := fun s =>
       {| stdout_buffered := [];
          stdout_flushed := stdout_flushed s ++ stdout_buffered s |} |}.

(** ** Text *)

Definition bytes_of_string (s : string) : list Z :=
  map (fun c => Z.of_N (N_of_ascii c)) (list_ascii_of_string s).

(** fmt's rendering of an integer argument by a plain replacement field:
    its decimal digits, with a leading minus sign when negative. *)
Definition decimal (z : Z) : string := NilZero.string_of_int (Z.to_int z).

Definition fmt_int (z : Z) : list Z := bytes_of_string (decimal z).


Definition NEWLINE : Z := 10.
Definition SPACE : Z := 32.
Definition DOT : Z := 46.

(** ** template class Logger *)

Module Logger.

(** what the logger's own methods ask of the scheduler and of [cv_] *)
Inductive event : Set :=
| Yield
| SleepForNs (ns : Z)
| NotifyOne
| NotifyAll.

(** [worker_]: null, a running thread, or a thread that has been joined *)
Inductive worker_handle : Set := NoWorker | WorkerRunning | WorkerJoined.

Definition BACKOFF_MAX : Z := 4.

(** the [thread_local] members, for the one thread that calls the logger *)
Record thread_locals := {
  format_buf_ : list Z;
  batch_ : ThreadLocalBatch.t
}.

Definition fresh_thread : thread_locals :=
  {| format_buf_ := []; batch_ := ThreadLocalBatch.new |}.

Definition levels : list Z := bytes_of_string "TDIWEC".

Section WithSink.

Context {S : Type} {SinkS : Sink S}.

(** [clock_] counts the suspensions of the calling thread so far and
    [events_] lists what it has asked of the scheduler and of [cv_]; neither
    exists in the program. *)
Record t := {
  sink_ : S;
  queue_ : option LockFreeRingBuffer.t;
  worker_ : worker_handle;
  running_ : bool;
  clock_ : nat;
  events_ : list event
}.

Definition with_sink (lg : t) (s : S) : t :=
  {| sink_ := s; queue_ := queue_ lg; worker_ := worker_ lg;
     running_ := running_ lg; clock_ := clock_ lg; events_ := events_ lg |}.
Definition with_queue (lg : t) (q : LockFreeRingBuffer.t) : t :=
  {| sink_ := sink_ lg; queue_ := Some q; worker_ := worker_ lg;
     running_ := running_ lg; clock_ := clock_ lg; events_ := events_ lg |}.
Definition with_worker (lg : t) (w : worker_handle) : t :=
  {| sink_ := sink_ lg; queue_ := queue_ lg; worker_ := w;
     running_ := running_ lg; clock_ := clock_ lg; events_ := events_ lg |}.
Definition with_running (lg : t) (r : bool) : t :=
  {| sink_ := sink_ lg; queue_ := queue_ lg; worker_ := worker_ lg;
     running_ := r; clock_ := clock_ lg; events_ := events_ lg |}.
Definition emit (lg : t) (e : event) : t :=
  {| sink_ := sink_ lg; queue_ := queue_ lg; worker_ := worker_ lg;
     running_ := running_ lg; clock_ := clock_ lg;
     events_ := events_ lg ++ [e] |}.
Definition tick (lg : t) : t :=
  {| sink_ := sink_ lg; queue_ := queue_ lg; worker_ := worker_ lg;
     running_ := running_ lg; clock_ := Datatypes.S (clock_ lg);
     events_ := events_ lg |}.

Definition new (sink : S) (async : bool) : t :=
  {| sink_ := sink;
     queue_ := if async then Some (LockFreeRingBuffer.new 256 65536) else None;
     worker_ := if async then WorkerRunning else NoWorker;
     running_ := true;
     clock_ := O;
     events_ := [] |}.

(** *** The worker thread *)

(** One iteration of the first loop of [worker_loop]. The worker's
    [entry] has 256 bytes. A dequeue that is spinning on an unpublished
    slot leaves the state as it is. The iteration is taken whole, the
    [try_dequeue] together with the [sink_.write] that follows it;
    [Interleaved] below takes the two apart. *)
Definition worker_iteration (lg : t) : outcome t :=
  match queue_ lg with
  | None => Fault
  | Some q =>
      match LockFreeRingBuffer.try_dequeue id 1 256 q with
      | Ret (true, entry, q') =>
          Ret (with_queue (with_sink lg (write (sink_ lg) entry)) q')
      | Ret (false, _, _) => Ret lg
      | OutOfFuel => Ret lg
      | Fault => Fault
      end
  end.

Fixpoint worker_iterations (n : nat) (lg : t) : outcome t :=
  match n with
  | O => Ret lg
  | Datatypes.S n' => do lg1 <- worker_iteration lg; worker_iterations n' lg1
  end.

(** The second loop of [worker_loop], run once [running_] is false. *)
Fixpoint worker_drain (fuel : nat) (lg : t) : outcome t :=
  match fuel with
  | O => OutOfFuel
  | Datatypes.S fuel' =>
      match queue_ lg with
      | None => Fault
      | Some q =>
          do r <- LockFreeRingBuffer.try_dequeue id fuel 256 q;
          match r with
          | (true, entry, q') =>
              worker_drain fuel' (with_queue (with_sink lg (write (sink_ lg) entry)) q')
          | (false, _, _) => Ret lg
          end
      end
  end.

(** [worker_loop()] for a worker that finds [running_] false after [n]
    iterations of its first loop *)
Definition worker_loop (n : nat) (fuel : nat) (lg : t) : outcome t :=
  do lg1 <- worker_iterations n lg;
  worker_drain fuel lg1.

(** [worker_->join()], reached with the worker between two iterations of its
    first loop and [running_] already false *)
Definition join (fuel : nat) (lg : t) : outcome t :=
  do lg1 <- worker_drain fuel lg;
  Ret (with_worker lg1 WorkerJoined).

(** *** The calling thread *)

(** [sched k] is the number of iterations the worker completes during
    the [k]-th suspension of the calling thread. The worker advances only
    then: what the calling thread can observe between a [try_dequeue] of
    the worker and its [sink_.write], or of a worker that runs while the
    calling thread does, is the matter of [Interleaved] below. *)
Variable sched : nat -> nat.

Definition suspend (e : event) (lg : t) : outcome t :=
  let lg0 := tick (emit lg e) in
  match worker_ lg, running_ lg with
  | WorkerRunning, true => worker_iterations (sched (clock_ lg)) lg0
  | _, _ => Ret lg0
  end.

Fixpoint yields (n : nat) (lg : t) : outcome t :=
  match n with
  | O => Ret lg
  | Datatypes.S n' => do lg1 <- suspend Yield lg; yields n' lg1
  end.

(** The [while (!queue_->try_enqueue(data, len))] loop of [flush_batch]. *)
Fixpoint enqueue_with_backoff (fuel : nat) (backoff : Z)
         (data : list Z) (len : Z) (lg : t) : outcome t :=
  match queue_ lg with
  | None => Fault
  | Some q =>
      do r <- LockFreeRingBuffer.try_enqueue q data len;
      match r with
      | (true, q') => Ret (with_queue lg q')
      | (false, _) =>
          match fuel with
          | O => OutOfFuel
          | Datatypes.S fuel' =>
              if backoff <? BACKOFF_MAX then
                do lg1 <- yields (Z.to_nat (Z.shiftl 1 backoff)) lg;
                enqueue_with_backoff fuel' (backoff + 1) data len lg1
              else
                do lg1 <- suspend (SleepForNs 100) lg;
                enqueue_with_backoff fuel' backoff data len lg1
          end
      end
  end.

(** The [for] loop of [flush_batch], from entry [i] for [n] entries. *)
Fixpoint flush_entries (fuel : nat) (n : nat) (i : Z)
         (b : ThreadLocalBatch.t) (lg : t) : outcome t :=
  match n with
  | O => Ret lg
  | Datatypes.S n' =>
      let data := ThreadLocalBatch.index b i in
      do len <- Mem.load_u16 (ThreadLocalBatch.batch_ b) (data + 254);
      do lg1 <- enqueue_with_backoff fuel 0
              (Mem.tail_from (ThreadLocalBatch.batch_ b) data) len lg;
      flush_entries fuel n' (i + 1) b lg1
  end.

Definition flush_batch (fuel : nat) (tl : thread_locals) (lg : t)
  : outcome (thread_locals * t) :=
  let b := batch_ tl in
  do lg1 <- flush_entries fuel (Z.to_nat (ThreadLocalBatch.size b)) 0 b lg;
  let b' := ThreadLocalBatch.clear b in
  let tl' := {| format_buf_ := format_buf_ tl; batch_ := b' |} in
  if ThreadLocalBatch.size b' >? 0
  then Ret (tl', emit lg1 NotifyOne)
  else Ret (tl', lg1).

(** The scratch buffer as [log] fills it: [ns] is the reading of the steady
    clock and [payload] what fmt renders from the template and its
    arguments. *)
Definition render (L : LogLevel) (ns : Z) (payload : list Z) : list Z :=
  let buf := [] in
  let buf := buf ++ fmt_int (Z.quot ns 1000000000) ++ [DOT]
                 ++ fmt_int (Z.rem ns 1000000000) ++ [SPACE] in
  let buf := buf ++ [nth (Z.to_nat (level_to_int L)) levels 0; SPACE] in
  let buf := buf ++ payload in
  buf ++ [NEWLINE].

(** [log<L>(fmt, args...)] of a [Logger<Sink, MinLevel>] *)
Definition log (MinLevel L : LogLevel) (fuel : nat) (ns : Z) (payload : list Z)
           (tl : thread_locals) (lg : t) : outcome (thread_locals * t) :=
  if level_to_int L >=? level_to_int MinLevel then
    let buf := render L ns payload in
    let tl := {| format_buf_ := buf; batch_ := batch_ tl |} in
    match queue_ lg with
    | Some _ =>
        do '(added, b1) <- ThreadLocalBatch.try_add (batch_ tl) buf (Z.of_nat (length buf));
        if added then Ret ({| format_buf_ := buf; batch_ := b1 |}, lg)
        else
          do '(tl1, lg1) <- flush_batch fuel tl lg;
          do '(_, b2) <- ThreadLocalBatch.try_add (batch_ tl1) buf (Z.of_nat (length buf));
          Ret ({| format_buf_ := buf; batch_ := b2 |}, lg1)
    | None => Ret (tl, with_sink lg (write (sink_ lg) buf))
    end
  else Ret (tl, lg).

(** The [while (!queue_->empty())] loop of [flush]. *)
Fixpoint wait_empty (fuel : nat) (lg : t) : outcome t :=
  match queue_ lg with
  | None => Fault
  | Some q =>
      if LockFreeRingBuffer.empty q then Ret lg
      else
        match fuel with
        | O => OutOfFuel
        | Datatypes.S fuel' => do lg1 <- suspend Yield lg; wait_empty fuel' lg1
        end
  end.

Definition flush (fuel : nat) (tl : thread_locals) (lg : t)
  : outcome (thread_locals * t) :=
  do '(tl1, lg1) <- (if ThreadLocalBatch.size (batch_ tl) >? 0
                     then flush_batch fuel tl lg
                     else Ret (tl, lg));
  do lg2 <- (match worker_ lg1 with
             | NoWorker => Ret lg1
             | _ => wait_empty fuel lg1
             end);
  Ret (tl1, with_sink lg2 (flush (sink_ lg2))).

(** [~Logger()], run by the thread whose thread-locals are [tl] *)
Definition destroy (fuel : nat) (tl : thread_locals) (lg : t)
  : outcome (thread_locals * t) :=
  do lg1 <- (match worker_ lg with
         | NoWorker => Ret lg
         | _ =>
             let lg' := emit (with_running lg false) NotifyAll in
             join fuel lg'
         end);
  flush fuel tl lg1.

Definition trace MinLevel := log MinLevel TRACE.
Definition debug MinLevel := log MinLevel DEBUG.
Definition info MinLevel := log MinLevel INFO.
Definition warn MinLevel := log MinLevel WARN.
Definition error MinLevel := log MinLevel ERROR.
Definition critical MinLevel := log MinLevel CRITICAL.

End WithSink.

Arguments t S : clear implicits.

End Logger.

(** ** Runs of queue calls by one thread *)

Inductive call : Type :=
| Enqueue (data : list Z) (len : Z)
| Dequeue (fuel : nat) (data_cap : Z).

Definition run_call (c : call) (q : LockFreeRingBuffer.t)
  : outcome (bool * LockFreeRingBuffer.t) :=
  match c with
  | Enqueue data len => LockFreeRingBuffer.try_enqueue q data len
  | Dequeue fuel data_cap =>
      do '(ok, _, q') <- LockFreeRingBuffer.try_dequeue id fuel data_cap q;
      Ret (ok, q')
  end.

Fixpoint run_calls (cs : list call) (q : LockFreeRingBuffer.t)
  : outcome LockFreeRingBuffer.t :=
  match cs with
  | [] => Ret q
  | c :: cs' => do '(_, q') <- run_call c q; run_calls cs' q'
  end.

(** The slot of the oldest reserved index still reads a zero trailer. *)
Definition oldest_unpublished (q : LockFreeRingBuffer.t) : Prop :=
  LockFreeRingBuffer.head_ q < LockFreeRingBuffer.tail_ q /\
  LockFreeRingBuffer.max_entries_ q <> 0 /\
  Mem.load_u16 (LockFreeRingBuffer.buffer_ q)
    (LockFreeRingBuffer.trailer_of q
       (LockFreeRingBuffer.slot_of q (LockFreeRingBuffer.head_ q))) = Ret 0.

(** A queue as its constructor leaves it laid out. *)
Record ring_wf (q : LockFreeRingBuffer.t) : Prop := {
  wf_entries : 0 < LockFreeRingBuffer.max_entries_ q;
  wf_entry : 2 <= LockFreeRingBuffer.entry_size_ q;
  wf_size : LockFreeRingBuffer.buffer_size_ q
            = LockFreeRingBuffer.entry_size_ q * LockFreeRingBuffer.max_entries_ q;
  wf_fits : LockFreeRingBuffer.buffer_size_ q < 2 ^ 64
}.

(** The counters after at most [k] calls on a queue of [N] slots. *)
Definition counters_ok (N k : Z) (q : LockFreeRingBuffer.t) : Prop :=
  LockFreeRingBuffer.max_entries_ q = N /\
  0 <= LockFreeRingBuffer.head_ q <= LockFreeRingBuffer.tail_ q /\
  LockFreeRingBuffer.tail_ q <= k /\
  LockFreeRingBuffer.tail_ q - LockFreeRingBuffer.head_ q <= N.

(** The counters of a queue of [N] slots seen as [size_t] values. *)
Definition counters_in_range (N : Z) (q : LockFreeRingBuffer.t) : Prop :=
  LockFreeRingBuffer.max_entries_ q = N /\
  0 <= LockFreeRingBuffer.head_ q < 2 ^ 64 /\
  0 <= LockFreeRingBuffer.tail_ q < 2 ^ 64 /\
  LockFreeRingBuffer.size q <= N.

(** ** The record line of the specification

    [<seconds>.<nanos> <level-tag> <payload>\n], with the tags [T D I W E C]
    for TRACE .. CRITICAL. *)



(** ** A sink that keeps every byte run it is given, in order *)

Record CaptureSink := {
  captured : list (list Z);
  flushes : nat
}.

#[global] Instance CaptureSink_Sink : Sink CaptureSink :=
  {| write := fun s sv => {| captured := captured s ++ [sv]; flushes := flushes s |};
     flush := fun s => {| captured := captured s; flushes := S (flushes s) |} |}.

Definition capture_sink : CaptureSink := {| captured := []; flushes := O |}.

(** ** The backoff of the specification

    On attempt [k] = 0..3 the producer yields [2^k] times; from attempt 4 on
    it sleeps 100 ns. *)

Definition attempt_events (k : nat) : list Logger.event :=
  if (k <? 4)%nat then repeat Logger.Yield (2 ^ k) else [Logger.SleepForNs 100].

Definition backoff_trace (first n : nat) : list Logger.event :=
  concat (map attempt_events (seq first n)).

Definition is_pause (e : Logger.event) : Prop :=
  e = Logger.Yield \/ e = Logger.SleepForNs 100.

(** What the worker leaves alone in the queue: [tail_] and the geometry. *)
Definition same_tail (oq oq' : option LockFreeRingBuffer.t) : Prop :=
  match oq, oq' with
  | Some q, Some q' =>
      LockFreeRingBuffer.tail_ q' = LockFreeRingBuffer.tail_ q /\
      LockFreeRingBuffer.max_entries_ q' = LockFreeRingBuffer.max_entries_ q
  | None, None => True
  | _, _ => False
  end.

(** A step that touches only the sink and the consumer side of the queue. *)
Definition worker_frame {S : Type} (lg lg' : Logger.t S) : Prop :=
  Logger.events_ lg' = Logger.events_ lg /\
  Logger.clock_ lg' = Logger.clock_ lg /\
  Logger.worker_ lg' = Logger.worker_ lg /\
  Logger.running_ lg' = Logger.running_ lg /\
  same_tail (Logger.queue_ lg) (Logger.queue_ lg').

(** ** The trailer discipline of the specification *)

(** slot [k] holds a record that was enqueued and not yet dequeued *)
Definition occupied (q : LockFreeRingBuffer.t) (k : Z) : Prop :=
  exists i, LockFreeRingBuffer.head_ q <= i < LockFreeRingBuffer.tail_ q /\
            i mod LockFreeRingBuffer.max_entries_ q = k.

Definition trailer_at (q : LockFreeRingBuffer.t) (k : Z) : outcome Z :=
  Mem.load_u16 (LockFreeRingBuffer.buffer_ q)
    (LockFreeRingBuffer.trailer_of q (k * LockFreeRingBuffer.entry_size_ q)).

Definition trailer_discipline (q : LockFreeRingBuffer.t) : Prop :=
  forall k, 0 <= k < LockFreeRingBuffer.max_entries_ q ->
    exists v, trailer_at q k = Ret v /\ (v <> 0 <-> occupied q k).

(** every enqueue of the run has a length that fits the slot payload and
    does not vanish as a [uint16_t] *)
Definition valid_lengths (entry_size : Z) (cs : list call) : Prop :=
  Forall (fun c =>
            match c with
            | Enqueue data len =>
                0 <= len <= entry_size - 2 /\ to_uint16 len <> 0 /\
                len <= Z.of_nat (length data)
            | Dequeue _ _ => True
            end) cs.

(** ** Scenarios *)

Definition ret_or {A : Type} (d : A) (m : outcome A) : A :=
  match m with
  | Ret a => a
  | _ => d
  end.

(** one thread calling [info] on a [Logger<Sink, TRACE>] once for each of
    [records], given as clock reading and rendered payload *)
Fixpoint info_all {S : Type} {SinkS : Sink S} (sched : nat -> nat) (fuel : nat)
         (records : list (Z * list Z))
         (tl : Logger.thread_locals) (lg : Logger.t S)
  : outcome (Logger.thread_locals * Logger.t S) :=
  match records with
  | [] => Ret (tl, lg)
  | (ns, payload) :: rest =>
      do '(tl1, lg1) <- Logger.info sched TRACE fuel ns payload tl lg;
      info_all sched fuel rest tl1 lg1
  end.

(** an asynchronous logger over a queue of two slots, both taken *)
Definition full_two_slot_logger : Logger.t CaptureSink :=
  {| Logger.sink_ := capture_sink;
     Logger.queue_ :=
       Some (ret_or (LockFreeRingBuffer.new 256 2)
               (run_calls [Enqueue [97; 10] 2; Enqueue [98; 10] 2]
                  (LockFreeRingBuffer.new 256 2)));
     Logger.worker_ := Logger.WorkerRunning;
     Logger.running_ := true;
     Logger.clock_ := O;
     Logger.events_ := [] |}.

(** a worker that is first scheduled during the eighteenth suspension *)
Definition late_worker (k : nat) : nat := if (k <? 17)%nat then O else 1%nat.

(** ** The queue as a bounded FIFO of records *)

(** the slot of index [i] holds the record [r], published *)
Definition slot_holds (q : LockFreeRingBuffer.t) (i : Z) (r : list Z) : Prop :=
  Mem.load_u16 (LockFreeRingBuffer.buffer_ q)
    (LockFreeRingBuffer.trailer_of q (LockFreeRingBuffer.slot_of q i))
  = Ret (Z.of_nat (length r)) /\
  Mem.read (LockFreeRingBuffer.buffer_ q) (LockFreeRingBuffer.slot_of q i)
    (Z.of_nat (length r)) = Ret r.

(** [q] holds exactly the records [pend], oldest first, after at most [k]
    enqueues *)
Record ring_holds (k : Z) (q : LockFreeRingBuffer.t) (pend : list (list Z)) : Prop := {
  rh_wf : ring_wf q;
  rh_u16 : LockFreeRingBuffer.entry_size_ q - 2 < 2 ^ 16;
  rh_head : 0 <= LockFreeRingBuffer.head_ q;
  rh_tail : LockFreeRingBuffer.tail_ q
            = LockFreeRingBuffer.head_ q + Z.of_nat (length pend);
  rh_bound : LockFreeRingBuffer.tail_ q <= k;
  rh_room : Z.of_nat (length pend) <= LockFreeRingBuffer.max_entries_ q;
  rh_slots : forall (j : nat) r, pend !! j = Some r ->
     1 <= Z.of_nat (length r) <= LockFreeRingBuffer.entry_size_ q - 2 /\
     slot_holds q (LockFreeRingBuffer.head_ q + Z.of_nat j) r
}.

(** a call with what it hands back: the flag and the bytes copied out *)
Definition call_result (c : call) (q : LockFreeRingBuffer.t)
  : outcome (bool * list Z * LockFreeRingBuffer.t) :=
  match c with
  | Enqueue data len =>
      do '(ok, q') <- LockFreeRingBuffer.try_enqueue q data len;
      Ret (ok, [], q')
  | Dequeue fuel data_cap => LockFreeRingBuffer.try_dequeue id fuel data_cap q
  end.

Fixpoint run_results (cs : list call) (q : LockFreeRingBuffer.t)
  : outcome (list (bool * list Z) * LockFreeRingBuffer.t) :=
  match cs with
  | [] => Ret ([], q)
  | c :: cs' =>
      do '(ok, out, q1) <- call_result c q;
      do '(outs, q2) <- run_results cs' q1;
      Ret ((ok, out) :: outs, q2)
  end.

(** the same calls on a list of at most [N] records *)
Definition fifo_call (N : Z) (c : call) (pend : list (list Z))
  : bool * list Z * list (list Z) :=
  match c with
  | Enqueue data len =>
      if Z.of_nat (length pend) <? N
      then (true, [], pend ++ [take (Z.to_nat len) data])
      else (false, [], pend)
  | Dequeue _ _ =>
      match pend with
      | [] => (false, [], [])
      | r :: rest => (true, r, rest)
      end
  end.

Fixpoint fifo_results (N : Z) (cs : list call) (pend : list (list Z))
  : list (bool * list Z) * list (list Z) :=
  match cs with
  | [] => ([], pend)
  | c :: cs' =>
      let '(ok, out, pend1) := fifo_call N c pend in
      let '(outs, pend2) := fifo_results N cs' pend1 in
      ((ok, out) :: outs, pend2)
  end.

(** enqueues bring a length in [1, entry_size - 2] and that many bytes;
    dequeues bring room for a slot payload and may read the trailer once *)
Definition well_formed_calls (entry_size : Z) (cs : list call) : Prop :=
  Forall (fun c =>
            match c with
            | Enqueue data len =>
                1 <= len <= entry_size - 2 /\ len <= Z.of_nat (length data)
            | Dequeue fuel data_cap =>
                (1 <= fuel)%nat /\ entry_size - 2 <= data_cap
            end) cs.

(** ** The batch as a list of at most 32 lines *)

(** a batch as its constructor lays it out *)
Record batch_wf (b : ThreadLocalBatch.t) : Prop := {
  bw_size : Mem.size (ThreadLocalBatch.batch_ b)
            = ThreadLocalBatch.ENTRY_SIZE * ThreadLocalBatch.BATCH_SIZE;
  bw_entry : ThreadLocalBatch.entry_size_ b = ThreadLocalBatch.ENTRY_SIZE;
  bw_count : 0 <= ThreadLocalBatch.count_ b <= ThreadLocalBatch.BATCH_SIZE
}.

(** entry [i] of the batch holds the line [l] *)
Definition entry_holds (b : ThreadLocalBatch.t) (i : Z) (l : list Z) : Prop :=
  Mem.load_u16 (ThreadLocalBatch.batch_ b) (ThreadLocalBatch.index b i + 254)
  = Ret (Z.of_nat (length l)) /\
  Mem.read (ThreadLocalBatch.batch_ b) (ThreadLocalBatch.index b i)
    (Z.of_nat (length l)) = Ret l.

Record batch_holds (b : ThreadLocalBatch.t) (lines : list (list Z)) : Prop := {
  bh_wf : batch_wf b;
  bh_count : ThreadLocalBatch.count_ b = Z.of_nat (length lines);
  bh_entries : forall (i : nat) l, lines !! i = Some l ->
     1 <= Z.of_nat (length l) <= 254 /\ entry_holds b (Z.of_nat i) l
}.

(** [try_add] for each of [lines] in turn, stopping at the first refusal *)
Fixpoint add_all (lines : list (list Z)) (b : ThreadLocalBatch.t)
  : outcome (bool * ThreadLocalBatch.t) :=
  match lines with
  | [] => Ret (true, b)
  | l :: rest =>
      do '(ok, b1) <- ThreadLocalBatch.try_add b l (Z.of_nat (length l));
      if ok then add_all rest b1 else Ret (false, b1)
  end.

(** ** The logger as a pipeline of lines *)

(** one thread calling [log<L>] on a [Logger<Sink, MinLevel>] once for each
    of [records], given as level, clock reading and rendered payload *)
Fixpoint log_all {S : Type} {SinkS : Sink S} (sched : nat -> nat)
         (MinLevel : LogLevel) (fuel : nat)
         (records : list (LogLevel * Z * list Z))
         (tl : Logger.thread_locals) (lg : Logger.t S)
  : outcome (Logger.thread_locals * Logger.t S) :=
  match records with
  | [] => Ret (tl, lg)
  | (L, ns, payload) :: rest =>
      do '(tl1, lg1) <- Logger.log sched MinLevel L fuel ns payload tl lg;
      log_all sched MinLevel fuel rest tl1 lg1
  end.

(** the lines of the records that pass the level filter, in order *)
Fixpoint admitted_lines (MinLevel : LogLevel) (records : list (LogLevel * Z * list Z))
  : list (list Z) :=
  match records with
  | [] => []
  | (L, ns, payload) :: rest =>
      if level_to_int L >=? level_to_int MinLevel
      then Logger.render L ns payload :: admitted_lines MinLevel rest
      else admitted_lines MinLevel rest
  end.

(** the sink after it has been given [runs], one [write] each *)
Definition written {S : Type} {SinkS : Sink S} (s0 : S) (runs : list (list Z)) : S :=
  fold_left write runs s0.

(** the sink has been given [delivered] and the queue, of [N] slots and
    after at most [k] enqueues, holds [pend] *)
Definition queue_sink {S : Type} {SinkS : Sink S} (s0 : S) (N k : Z)
           (delivered pend : list (list Z)) (lg : Logger.t S) : Prop :=
  exists q,
    Logger.queue_ lg = Some q /\
    LockFreeRingBuffer.entry_size_ q = 256 /\
    LockFreeRingBuffer.max_entries_ q = N /\
    ring_holds k q pend /\
    Logger.sink_ lg = written s0 delivered.

(** the worker completes at least one iteration during every suspension *)
Definition fair (sched : nat -> nat) : Prop := forall k, (1 <= sched k)%nat.

(** the logger has a worker thread in its first loop *)
Definition worker_live {S : Type} (lg : Logger.t S) : Prop :=
  Logger.worker_ lg = Logger.WorkerRunning /\ Logger.running_ lg = true.

(** ** src/logger.cpp: the factory functions *)

(** [stdout] before anything has been written to it *)
Definition stdout_init : StdoutSink :=
  {| stdout_buffered := []; stdout_flushed := [] |}.

Definition stdout_logger_mt (name : string) : Logger.t StdoutSink :=
  Logger.new stdout_init true.

Definition null_logger_mt (name : string) : Logger.t NullSink :=
  Logger.new null_sink true.

(** ** More scenarios *)

(** three records at levels INFO, DEBUG and ERROR *)
Definition sample_records : list (LogLevel * Z * list Z) :=
  [(INFO, 1000000005, bytes_of_string "up");
   (DEBUG, 2000000000, bytes_of_string "skipped");
   (ERROR, 3000000000, bytes_of_string "down")].

(** a worker that is never scheduled *)
Definition stalled_worker (k : nat) : nat := O.

(** a worker that completes one unit of work during every suspension *)
Definition steady_worker (k : nat) : nat := 1%nat.

(** the thread-locals of a thread that has called [info] once on an
    asynchronous [Logger<NullSink>] *)
Definition thread_after_info : Logger.thread_locals :=
  fst (ret_or (Logger.fresh_thread, null_logger_mt "bench")
         (Logger.info stalled_worker TRACE 0 5 (bytes_of_string "hi")
            Logger.fresh_thread (null_logger_mt "bench"))).

(** the thread-locals of a thread whose batch holds 32 lines *)
Definition thread_with_full_batch : Logger.thread_locals :=
  {| Logger.format_buf_ := [];
     Logger.batch_ :=
       snd (ret_or (false, ThreadLocalBatch.new)
              (add_all (repeat [97; 10] 32) ThreadLocalBatch.new)) |}.

(** ** The backoff discipline as a procedure

    Sections 4.3 and 4.4 of the specification, in its words: "on attempt k,
    yield the CPU 2^k times for k = 0..K-1, then fall back to sleeping"; "each
    record waits with this backoff until accepted"; "a batch flush is a loop
    of try_enqueue calls, each with the backoff discipline". *)

(** the pauses of one attempt, each a suspension of the calling thread *)
Fixpoint spec_pauses {S : Type} {SinkS : Sink S} (sched : nat -> nat)
         (es : list Logger.event) (lg : Logger.t S) : outcome (Logger.t S) :=
  match es with
  | [] => Ret lg
  | e :: es' => do lg1 <- Logger.suspend sched e lg; spec_pauses sched es' lg1
  end.

(** a record waits until accepted: attempt [k] that finds the queue full is
    followed by the pauses of attempt [k] and by attempt [k + 1] *)
Fixpoint spec_wait_until_accepted {S : Type} {SinkS : Sink S} (sched : nat -> nat)
         (fuel : nat) (k : nat) (record : list Z) (lg : Logger.t S)
  : outcome (Logger.t S) :=
  match Logger.queue_ lg with
  | None => Fault
  | Some q =>
      do r <- LockFreeRingBuffer.try_enqueue q record (Z.of_nat (length record));
      match r with
      | (true, q') => Ret (Logger.with_queue lg q')
      | (false, _) =>
          match fuel with
          | O => OutOfFuel
          | Datatypes.S fuel' =>
              do lg1 <- spec_pauses sched (attempt_events k) lg;
              spec_wait_until_accepted sched fuel' (Datatypes.S k) record lg1
          end
      end
  end.

(** a batch flush: each record in turn, from attempt 0 *)
Fixpoint spec_batch_flush {S : Type} {SinkS : Sink S} (sched : nat -> nat)
         (fuel : nat) (records : list (list Z)) (lg : Logger.t S)
  : outcome (Logger.t S) :=
  match records with
  | [] => Ret lg
  | r :: rest =>
      do lg1 <- spec_wait_until_accepted sched fuel 0 r lg;
      spec_batch_flush sched fuel rest lg1
  end.

(** the thread-locals of a thread whose batch has been given [lines] *)
Definition thread_holding (lines : list (list Z)) : Logger.thread_locals :=
  {| Logger.format_buf_ := [];
     Logger.batch_ :=
       snd (ret_or (false, ThreadLocalBatch.new) (add_all lines ThreadLocalBatch.new)) |}.

(** ** The logger with the worker as a thread of its own

    [Logger] above takes the iterations of the worker whole and lets them
    happen only while the calling thread is suspended: enough wherever the
    calling thread cannot come between the worker's [try_dequeue] and its
    [sink_.write]. Here the worker advances by steps, a [try_dequeue] or the
    [sink_.write] of the record it holds, and completes any number of them
    before each access of the calling thread to [queue_] or [sink_] as well
    as during its suspensions. One [try_enqueue], [try_dequeue],
    [sink_.write] or [sink_.flush] is one step: the two sink calls are taken
    to exclude each other, as [fwrite] and [fflush] on one stream do. *)

Module Interleaved.

Section WithSink.

Context {S : Type} {SinkS : Sink S}.

(** [entry_] is the worker's [entry] and [len] from a successful
    [try_dequeue] to the [sink_.write] of that record. [accesses_] counts
    the accesses of the calling thread to [queue_] and [sink_]; it does not
    exist in the program. *)
Record t := {
  logger_ : Logger.t S;
  entry_ : option (list Z);
  accesses_ : nat
}.

Definition start (lg : Logger.t S) : t :=
  {| logger_ := lg; entry_ := None; accesses_ := O |}.

Definition with_logger (st : t) (lg : Logger.t S) : t :=
  {| logger_ := lg; entry_ := entry_ st; accesses_ := accesses_ st |}.

(** *** The worker thread *)

(** One step of the first loop of [worker_loop]: the [sink_.write] of the
    record the worker holds, or else a [try_dequeue]. On an empty queue the
    worker waits on [cv_]; a dequeue that is spinning on an unpublished slot
    leaves the state as it is. *)
Definition worker_step (st : t) : outcome t :=
  let lg := logger_ st in
  match entry_ st with
  | Some entry =>
      Ret {| logger_ := Logger.with_sink lg (write (Logger.sink_ lg) entry);
             entry_ := None; accesses_ := accesses_ st |}
  | None =>
      match Logger.queue_ lg with
      | None => Fault
      | Some q =>
          match LockFreeRingBuffer.try_dequeue id 1 256 q with
          | Ret (true, entry, q') =>
              Ret {| logger_ := Logger.with_queue lg q';
                     entry_ := Some entry; accesses_ := accesses_ st |}
          | Ret (false, _, _) => Ret st
          | OutOfFuel => Ret st
          | Fault => Fault
          end
      end
  end.

Fixpoint worker_steps (n : nat) (st : t) : outcome t :=
  match n with
  | O => Ret st
  | Datatypes.S n' => do st1 <- worker_step st; worker_steps n' st1
  end.

(** the worker is in its first loop *)
Definition worker_runs (st : t) : bool :=
  match Logger.worker_ (logger_ st), Logger.running_ (logger_ st) with
  | Logger.WorkerRunning, true => true
  | _, _ => false
  end.

(** [worker_->join()] with [running_] false: the worker completes the
    iteration it is in, leaves the first loop and runs the second. *)
Definition join (fuel : nat) (st : t) : outcome t :=
  do st1 <- (match entry_ st with
             | Some _ => worker_step st
             | None => Ret st
             end);
  do lg1 <- Logger.worker_drain fuel (logger_ st1);
  Ret {| logger_ := Logger.with_worker lg1 Logger.WorkerJoined;
         entry_ := None; accesses_ := accesses_ st1 |}.

(** *** The calling thread *)

(** [sched k] is the number of steps the worker completes during the
    [k]-th suspension of the calling thread, [drift k] the number it
    completes after the previous access of the calling thread to [queue_] or
    [sink_] and before the [k]-th. *)
Variables sched drift : nat -> nat.

Definition access (st : t) : outcome t :=
  let st0 := {| logger_ := logger_ st; entry_ := entry_ st;
                accesses_ := Datatypes.S (accesses_ st) |} in
  if worker_runs st then worker_steps (drift (accesses_ st)) st0 else Ret st0.

Definition suspend (e : Logger.event) (st : t) : outcome t :=
  let lg := logger_ st in
  let st0 := with_logger st (Logger.tick (Logger.emit lg e)) in
  if worker_runs st then worker_steps (sched (Logger.clock_ lg)) st0 else Ret st0.

Fixpoint yields (n : nat) (st : t) : outcome t :=
  match n with
  | O => Ret st
  | Datatypes.S n' => do st1 <- suspend Logger.Yield st; yields n' st1
  end.

(** The [while (!queue_->try_enqueue(data, len))] loop of [flush_batch]. *)
Fixpoint enqueue_with_backoff (fuel : nat) (backoff : Z)
         (data : list Z) (len : Z) (st : t) : outcome t :=
  do st0 <- access st;
  match Logger.queue_ (logger_ st0) with
  | None => Fault
  | Some q =>
      do r <- LockFreeRingBuffer.try_enqueue q data len;
      match r with
      | (true, q') => Ret (with_logger st0 (Logger.with_queue (logger_ st0) q'))
      | (false, _) =>
          match fuel with
          | O => OutOfFuel
          | Datatypes.S fuel' =>
              if backoff <? Logger.BACKOFF_MAX then
                do st1 <- yields (Z.to_nat (Z.shiftl 1 backoff)) st0;
                enqueue_with_backoff fuel' (backoff + 1) data len st1
              else
                do st1 <- suspend (Logger.SleepForNs 100) st0;
                enqueue_with_backoff fuel' backoff data len st1
          end
      end
  end.

(** The [for] loop of [flush_batch], from entry [i] for [n] entries. *)
Fixpoint flush_entries (fuel : nat) (n : nat) (i : Z)
         (b : ThreadLocalBatch.t) (st : t) : outcome t :=
  match n with
  | O => Ret st
  | Datatypes.S n' =>
      let data := ThreadLocalBatch.index b i in
      do len <- Mem.load_u16 (ThreadLocalBatch.batch_ b) (data + 254);
      do st1 <- enqueue_with_backoff fuel 0
              (Mem.tail_from (ThreadLocalBatch.batch_ b) data) len st;
      flush_entries fuel n' (i + 1) b st1
  end.

Definition flush_batch (fuel : nat) (tl : Logger.thread_locals) (st : t)
  : outcome (Logger.thread_locals * t) :=
  let b := Logger.batch_ tl in
  do st1 <- flush_entries fuel (Z.to_nat (ThreadLocalBatch.size b)) 0 b st;
  let b' := ThreadLocalBatch.clear b in
  let tl' := {| Logger.format_buf_ := Logger.format_buf_ tl; Logger.batch_ := b' |} in
  if ThreadLocalBatch.size b' >? 0
  then Ret (tl', with_logger st1 (Logger.emit (logger_ st1) Logger.NotifyOne))
  else Ret (tl', st1).

(** [log<L>(fmt, args...)] of a [Logger<Sink, MinLevel>] *)
Definition log (MinLevel L : LogLevel) (fuel : nat) (ns : Z) (payload : list Z)
           (tl : Logger.thread_locals) (st : t)
  : outcome (Logger.thread_locals * t) :=
  if level_to_int L >=? level_to_int MinLevel then
    let buf := Logger.render L ns payload in
    let tl := {| Logger.format_buf_ := buf; Logger.batch_ := Logger.batch_ tl |} in
    match Logger.queue_ (logger_ st) with
    | Some _ =>
        do '(added, b1) <- ThreadLocalBatch.try_add (Logger.batch_ tl) buf
                             (Z.of_nat (length buf));
        if added then Ret ({| Logger.format_buf_ := buf; Logger.batch_ := b1 |}, st)
        else
          do '(tl1, st1) <- flush_batch fuel tl st;
          do '(_, b2) <- ThreadLocalBatch.try_add (Logger.batch_ tl1) buf
                           (Z.of_nat (length buf));
          Ret ({| Logger.format_buf_ := buf; Logger.batch_ := b2 |}, st1)
    | None =>
        do st0 <- access st;
        Ret (tl, with_logger st0
                   (Logger.with_sink (logger_ st0)
                      (write (Logger.sink_ (logger_ st0)) buf)))
    end
  else Ret (tl, st).

Fixpoint log_all (MinLevel : LogLevel) (fuel : nat)
         (records : list (LogLevel * Z * list Z))
         (tl : Logger.thread_locals) (st : t)
  : outcome (Logger.thread_locals * t) :=
  match records with
  | [] => Ret (tl, st)
  | (L, ns, payload) :: rest =>
      do '(tl1, st1) <- log MinLevel L fuel ns payload tl st;
      log_all MinLevel fuel rest tl1 st1
  end.

(** The [while (!queue_->empty())] loop of [flush]. *)
Fixpoint wait_empty (fuel : nat) (st : t) : outcome t :=
  do st0 <- access st;
  match Logger.queue_ (logger_ st0) with
  | None => Fault
  | Some q =>
      if LockFreeRingBuffer.empty q then Ret st0
      else
        match fuel with
        | O => OutOfFuel
        | Datatypes.S fuel' =>
            do st1 <- suspend Logger.Yield st0; wait_empty fuel' st1
        end
  end.

Definition flush (fuel : nat) (tl : Logger.thread_locals) (st : t)
  : outcome (Logger.thread_locals * t) :=
  do '(tl1, st1) <- (if ThreadLocalBatch.size (Logger.batch_ tl) >? 0
                     then flush_batch fuel tl st
                     else Ret (tl, st));
  do st2 <- (match Logger.worker_ (logger_ st1) with
             | Logger.NoWorker => Ret st1
             | _ => wait_empty fuel st1
             end);
  do st3 <- access st2;
  Ret (tl1, with_logger st3
              (Logger.with_sink (logger_ st3) (flush (Logger.sink_ (logger_ st3))))).

(** [~Logger()], run by the thread whose thread-locals are [tl] *)
Definition destroy (fuel : nat) (tl : Logger.thread_locals) (st : t)
  : outcome (Logger.thread_locals * t) :=
  do st1 <- (match Logger.worker_ (logger_ st) with
             | Logger.NoWorker => Ret st
             | _ =>
                 let lg' := Logger.emit (Logger.with_running (logger_ st) false)
                              Logger.NotifyAll in
                 join fuel (with_logger st lg')
             end);
  flush fuel tl st1.

End WithSink.

Arguments t S : clear implicits.

End Interleaved.

(** ** The interleaved logger as a conveyor of lines *)

(** the record the worker holds, as a list *)
Definition held {S : Type} (st : Interleaved.t S) : list (list Z) :=
  match Interleaved.entry_ st with
  | Some entry => [entry]
  | None => []
  end.

(** the lines of [moved] have left the batch: they are, in order, in the
    sink, in the worker's hand and in the queue; the worker has [todo] steps
    before it to bring them all to the sink *)
Definition in_transit {S : Type} {SinkS : Sink S} (s0 : S) (N k : Z)
           (moved : list (list Z)) (todo : nat) (st : Interleaved.t S) : Prop :=
  exists delivered pend,
    queue_sink s0 N k delivered pend (Interleaved.logger_ st) /\
    moved = delivered ++ held st ++ pend /\
    todo = (2 * length pend + length (held st))%nat.

(** every line of [emitted] is in transit or in the batch, in that order *)
Definition conveyor {S : Type} {SinkS : Sink S} (s0 : S) (N k : Z)
           (emitted : list (list Z))
           (tl : Logger.thread_locals) (st : Interleaved.t S) : Prop :=
  exists moved todo lines kq,
    in_transit s0 N kq moved todo st /\
    batch_holds (Logger.batch_ tl) lines /\
    emitted = moved ++ lines /\
    kq + Z.of_nat (length lines) <= k.

(** the worker of the interleaved logger is in its first loop *)
Definition worker_active {S : Type} (st : Interleaved.t S) : Prop :=
  worker_live (Interleaved.logger_ st).

(** what a step of the worker leaves alone *)
Definition caller_frame {S : Type} (st st' : Interleaved.t S) : Prop :=
  Logger.events_ (Interleaved.logger_ st') = Logger.events_ (Interleaved.logger_ st) /\
  Logger.clock_ (Interleaved.logger_ st') = Logger.clock_ (Interleaved.logger_ st) /\
  Logger.worker_ (Interleaved.logger_ st') = Logger.worker_ (Interleaved.logger_ st) /\
  Logger.running_ (Interleaved.logger_ st') = Logger.running_ (Interleaved.logger_ st) /\
  Interleaved.accesses_ st' = Interleaved.accesses_ st.

(** * Properties *)

(** ** Outcomes *)

Lemma bind_Ret_inv {A B} (m : outcome A) (f : A -> outcome B) (b : B) :
  bind m f = Ret b -> exists a, m = Ret a /\ f a = Ret b.
Proof. destruct m as [a| |]; simpl; intros H; [eauto | discriminate..]. Qed.

Ltac bind_inv H :=
  let a := fresh "r" in
  let Ha := fresh "Hr" in
  apply bind_Ret_inv in H as (a & Ha & H).

(** ** Byte memory *)

Section MemFacts.

Implicit Types (c : gmap Z Z) (bs : list Z) (m : Mem.t).

Lemma store_bytes_outside c off bs a :
  a < off \/ off + Z.of_nat (length bs) <= a ->
  Mem.store_bytes c off bs !! a = c !! a.
Proof.
  revert c off. induction bs as [|b bs IH]; intros c off Ha; simpl; [done|].
  simpl in Ha. rewrite IH by lia. apply lookup_insert_ne. lia.
Qed.

Lemma store_bytes_inside c off bs (k : nat) :
  (k < length bs)%nat ->
  Mem.store_bytes c off bs !! (off + Z.of_nat k) = bs !! k.
Proof.
  revert c off k. induction bs as [|b bs IH]; intros c off k Hk; simpl in *; [lia|].
  destruct k as [|k].
  - rewrite Z.add_0_r, store_bytes_outside by lia. apply lookup_insert_eq.
  - replace (off + Z.of_nat (S k)) with ((off + 1) + Z.of_nat k) by lia.
    apply IH. lia.
Qed.

Lemma in_bounds_spec m off len :
  Mem.in_bounds m off len = true <-> 0 <= off /\ 0 <= len /\ off + len <= Mem.size m.
Proof. unfold Mem.in_bounds. rewrite !andb_true_iff, !Z.leb_le. tauto. Qed.

Lemma memcpy_Ret m off src len :
  0 <= off -> 0 <= len -> off + len <= Mem.size m ->
  len <= Z.of_nat (length src) ->
  Mem.memcpy m off src len
  = Ret {| Mem.size := Mem.size m;
           Mem.cells := Mem.store_bytes (Mem.cells m) off (take (Z.to_nat len) src) |}.
Proof.
  intros. unfold Mem.memcpy.
  assert (Mem.in_bounds m off len = true) as -> by (apply in_bounds_spec; lia).
  assert ((len <=? Z.of_nat (length src)) = true) as -> by (apply Z.leb_le; lia).
  reflexivity.
Qed.

Lemma memcpy_inv m off src len m' :
  Mem.memcpy m off src len = Ret m' ->
  (0 <= off /\ 0 <= len /\ off + len <= Mem.size m /\ len <= Z.of_nat (length src)) /\
  m' = {| Mem.size := Mem.size m;
          Mem.cells := Mem.store_bytes (Mem.cells m) off (take (Z.to_nat len) src) |}.
Proof.
  unfold Mem.memcpy. destruct (Mem.in_bounds m off len) eqn:Hb; simpl; [|discriminate].
  destruct (len <=? Z.of_nat (length src)) eqn:Hl; [|discriminate].
  apply in_bounds_spec in Hb. apply Z.leb_le in Hl. intros [= <-]. split; [lia|done].
Qed.

Lemma store_u16_Ret m off v :
  0 <= off -> off + 2 <= Mem.size m ->
  Mem.store_u16 m off v
  = Ret {| Mem.size := Mem.size m;
           Mem.cells := Mem.store_bytes (Mem.cells m) off [v mod 256; (v / 256) mod 256] |}.
Proof.
  intros. unfold Mem.store_u16.
  assert (Mem.in_bounds m off 2 = true) as -> by (apply in_bounds_spec; lia).
  reflexivity.
Qed.

Lemma store_u16_inv m off v m' :
  Mem.store_u16 m off v = Ret m' ->
  (0 <= off /\ off + 2 <= Mem.size m) /\
  m' = {| Mem.size := Mem.size m;
          Mem.cells := Mem.store_bytes (Mem.cells m) off [v mod 256; (v / 256) mod 256] |}.
Proof.
  unfold Mem.store_u16. destruct (Mem.in_bounds m off 2) eqn:Hb; [|discriminate].
  apply in_bounds_spec in Hb. intros [= <-]. split; [lia|done].
Qed.

Lemma load_store_u16_other m off v m' a :
  Mem.store_u16 m off v = Ret m' -> a < off \/ off + 2 <= a ->
  Mem.load m' a = Mem.load m a.
Proof.
  intros [_ ->]%store_u16_inv Ha. unfold Mem.load; simpl.
  rewrite !lookup_insert_ne by lia. done.
Qed.

Lemma load_u16_store_u16 m off v m' :
  Mem.store_u16 m off v = Ret m' -> Mem.load_u16 m' off = Ret (to_uint16 v).
Proof.
  intros [[? ?] ->]%store_u16_inv. unfold Mem.load_u16.
  assert (Mem.in_bounds {| Mem.size := Mem.size m;
            Mem.cells := Mem.store_bytes (Mem.cells m) off [v mod 256; (v / 256) mod 256] |}
            off 2 = true) as -> by (apply in_bounds_spec; simpl; lia).
  unfold Mem.load; simpl.
  rewrite lookup_insert_eq, lookup_insert_ne, lookup_insert_eq by lia. simpl.
  unfold to_uint16. change (2 ^ 16) with (256 * 256).
  rewrite Z.rem_mul_r by lia. reflexivity.
Qed.

Lemma load_u16_store_u16_other m off v m' a :
  Mem.store_u16 m off v = Ret m' -> a + 2 <= off \/ off + 2 <= a ->
  Mem.load_u16 m' a = Mem.load_u16 m a.
Proof.
  intros Hs Ha. unfold Mem.load_u16.
  rewrite !(load_store_u16_other _ _ _ _ _ Hs) by lia.
  apply store_u16_inv in Hs as [_ ->]. reflexivity.
Qed.

Lemma load_memcpy_other m off src len m' a :
  Mem.memcpy m off src len = Ret m' -> a < off \/ off + len <= a ->
  Mem.load m' a = Mem.load m a.
Proof.
  intros [(? & ? & ? & ?) ->]%memcpy_inv Ha. unfold Mem.load; simpl.
  rewrite store_bytes_outside; [done|].
  rewrite length_take. lia.
Qed.

Lemma load_memcpy_inside m off src len m' (k : nat) :
  Mem.memcpy m off src len = Ret m' -> Z.of_nat k < len ->
  Mem.load m' (off + Z.of_nat k) = default 0 (src !! k).
Proof.
  intros [(? & ? & ? & ?) ->]%memcpy_inv Hk. unfold Mem.load; simpl.
  rewrite store_bytes_inside by (rewrite length_take; lia).
  rewrite lookup_take_lt by lia. done.
Qed.

Lemma size_memcpy m off src len m' :
  Mem.memcpy m off src len = Ret m' -> Mem.size m' = Mem.size m.
Proof. by intros [_ ->]%memcpy_inv. Qed.

Lemma size_store_u16 m off v m' :
  Mem.store_u16 m off v = Ret m' -> Mem.size m' = Mem.size m.
Proof. by intros [_ ->]%store_u16_inv. Qed.

End MemFacts.

(** ** Ring buffer: layout and the slot write *)

Section RingFacts.

Import LockFreeRingBuffer.
Implicit Types (q : LockFreeRingBuffer.t).

Lemma wrap64_small z : 0 <= z < 2 ^ 64 -> wrap64 z = z.
Proof. intros. unfold wrap64, SIZE_WIDTH. by apply Z.mod_small. Qed.

Lemma wrap64_range z : 0 <= wrap64 z < 2 ^ 64.
Proof. unfold wrap64, SIZE_WIDTH. apply Z.mod_pos_bound. lia. Qed.

Lemma wrap64_add_l a b : wrap64 (wrap64 a + b) = wrap64 (a + b).
Proof. unfold wrap64. apply Z.add_mod_idemp_l. unfold SIZE_WIDTH. lia. Qed.

Lemma wrap64_sub_l a b : wrap64 (wrap64 a - b) = wrap64 (a - b).
Proof. unfold wrap64. apply Zminus_mod_idemp_l. Qed.

Lemma to_uint16_idem z : to_uint16 (to_uint16 z) = to_uint16 z.
Proof. unfold to_uint16. apply Z.mod_mod. lia. Qed.

Lemma to_uint16_small z : 0 <= z < 2 ^ 16 -> to_uint16 z = z.
Proof. intros. unfold to_uint16. by apply Z.mod_small. Qed.

Lemma slot_of_eq q i :
  ring_wf q -> slot_of q i = (i mod max_entries_ q) * entry_size_ q.
Proof.
  intros [HN He Hs Hf]. unfold slot_of, buffer_size_ in *. apply wrap64_small.
  pose proof (Z.mod_pos_bound i (max_entries_ q) HN). nia.
Qed.

Lemma slot_of_bounds q i :
  ring_wf q ->
  0 <= slot_of q i /\ slot_of q i + entry_size_ q <= buffer_size_ q.
Proof.
  intros Hwf. rewrite slot_of_eq by done. destruct Hwf as [HN He Hs Hf].
  pose proof (Z.mod_pos_bound i (max_entries_ q) HN). rewrite Hs. nia.
Qed.

Lemma try_enqueue_cases q data len :
  (wrap64 (tail_ q - head_ q) >= max_entries_ q /\
   try_enqueue q data len = Ret (false, q)) \/
  (wrap64 (tail_ q - head_ q) < max_entries_ q /\
   try_enqueue q data len =
     do q2 <- publish (with_tail q (wrap64 (tail_ q + 1))) (tail_ q) data len;
     Ret (true, q2)).
Proof.
  unfold try_enqueue, reserve.
  destruct (wrap64 (tail_ q - head_ q) >=? max_entries_ q) eqn:E.
  - left. split; [|done]. apply Z.geb_le in E. lia.
  - right. split; [|done]. rewrite Z.geb_leb in E. apply Z.leb_gt in E. lia.
Qed.

Lemma publish_inv q i data len q' :
  publish q i data len = Ret q' ->
  exists b1 b2,
    Mem.memcpy (buffer_ q) (slot_of q i) data len = Ret b1 /\
    Mem.store_u16 b1 (trailer_of q (slot_of q i)) (to_uint16 len) = Ret b2 /\
    q' = with_buffer q b2.
Proof.
  unfold publish. intros H. bind_inv H. bind_inv H. injection H as <-. eauto.
Qed.

Lemma publish_returns q i data len :
  ring_wf q -> 0 <= len <= entry_size_ q -> len <= Z.of_nat (length data) ->
  returns (publish q i data len).
Proof.
  intros Hwf Hlen Hdata. destruct (slot_of_bounds q i Hwf) as [H0 H1].
  unfold publish, buffer_size_ in *.
  rewrite memcpy_Ret by lia. simpl.
  rewrite store_u16_Ret by (unfold trailer_of; destruct Hwf; simpl; lia).
  simpl. eexists; reflexivity.
Qed.

Lemma try_enqueue_inv_true q data len q' :
  try_enqueue q data len = Ret (true, q') ->
  wrap64 (tail_ q - head_ q) < max_entries_ q /\
  exists b1 b2,
    Mem.memcpy (buffer_ q) (slot_of q (tail_ q)) data len = Ret b1 /\
    Mem.store_u16 b1 (trailer_of q (slot_of q (tail_ q))) (to_uint16 len) = Ret b2 /\
    q' = with_buffer (with_tail q (wrap64 (tail_ q + 1))) b2.
Proof.
  destruct (try_enqueue_cases q data len) as [[_ ->]|[Hlt ->]]; [discriminate|].
  intros H. bind_inv H. injection H as <-.
  apply publish_inv in Hr as (b1 & b2 & H1 & H2 & ->). eauto 10.
Qed.

Lemma try_enqueue_inv_false q data len q' :
  try_enqueue q data len = Ret (false, q') ->
  wrap64 (tail_ q - head_ q) >= max_entries_ q /\ q' = q.
Proof.
  destruct (try_enqueue_cases q data len) as [[? ->]|[Hlt ->]].
  - by intros [= <-].
  - intros H. bind_inv H. discriminate.
Qed.

End RingFacts.

(** C10. [try_enqueue] looks at [len] nowhere before it copies: a full queue
    is its only refusal. On a queue laid out by the constructor that is not
    full, a call whose copy ends inside [buffer_] is accepted whatever [len]
    is: [tail_] advances, the [len] bytes of [data] are written from the
    start of the slot on, and the trailer is then stored at offset
    [entry_size_ - 2] over whatever the copy put there. With
    [len <= entry_size_ - 2] the copy lies inside the slot below the trailer,
    so it ends inside [buffer_] and the call cannot leave the buffer. Without
    that, the accepted record has lost the bytes the trailer was stored
    over, and from [len > entry_size_] on the bytes after the slot are
    overwritten. *)
Theorem try_enqueue_len_precondition (q : LockFreeRingBuffer.t) (data : list Z) (len : Z) :
  ring_wf q -> 0 <= len -> len <= Z.of_nat (length data) ->
  let slot := LockFreeRingBuffer.slot_of q (LockFreeRingBuffer.tail_ q) in
  let trailer := LockFreeRingBuffer.trailer_of q slot in
  (LockFreeRingBuffer.full q = true ->
     LockFreeRingBuffer.try_enqueue q data len = Ret (false, q)) /\
  (LockFreeRingBuffer.full q = false ->
   slot + len <= LockFreeRingBuffer.buffer_size_ q ->
     exists q',
       LockFreeRingBuffer.try_enqueue q data len = Ret (true, q') /\
       LockFreeRingBuffer.tail_ q' = wrap64 (LockFreeRingBuffer.tail_ q + 1) /\
       Mem.load_u16 (LockFreeRingBuffer.buffer_ q') trailer = Ret (to_uint16 len) /\
       (forall k : nat, Z.of_nat k < len ->
          slot + Z.of_nat k < trailer \/ trailer + 2 <= slot + Z.of_nat k ->
          Mem.load (LockFreeRingBuffer.buffer_ q') (slot + Z.of_nat k)
          = default 0 (data !! k)) /\
       (forall a, a < slot \/ slot + len <= a -> a < trailer \/ trailer + 2 <= a ->
          Mem.load (LockFreeRingBuffer.buffer_ q') a
          = Mem.load (LockFreeRingBuffer.buffer_ q) a)) /\
  (len <= LockFreeRingBuffer.entry_size_ q - 2 ->
     0 <= slot /\ slot + len <= trailer /\
     trailer + 2 = slot + LockFreeRingBuffer.entry_size_ q /\
     slot + LockFreeRingBuffer.entry_size_ q <= LockFreeRingBuffer.buffer_size_ q /\
     (LockFreeRingBuffer.full q = false ->
      exists q', LockFreeRingBuffer.try_enqueue q data len = Ret (true, q'))) /\
  (LockFreeRingBuffer.entry_size_ q - 2 < len ->
   LockFreeRingBuffer.full q = false ->
   slot + len <= LockFreeRingBuffer.buffer_size_ q ->
     exists q',
       LockFreeRingBuffer.try_enqueue q data len = Ret (true, q') /\
       Mem.load (LockFreeRingBuffer.buffer_ q') trailer = to_uint16 len mod 256 /\
       (LockFreeRingBuffer.entry_size_ q < len ->
        Mem.load (LockFreeRingBuffer.buffer_ q') (slot + LockFreeRingBuffer.entry_size_ q)
        = default 0 (data !! Z.to_nat (LockFreeRingBuffer.entry_size_ q)))).
Proof.
  intros Hwf Hlen Hdata slot trailer.
  pose proof (slot_of_bounds q (LockFreeRingBuffer.tail_ q) Hwf) as [Hs0 Hs1].
  fold slot in Hs0, Hs1.
  assert (Hes : 2 <= LockFreeRingBuffer.entry_size_ q) by (by destruct Hwf).
  assert (Htr : trailer = slot + LockFreeRingBuffer.entry_size_ q - 2) by done.
  assert (Hfull : LockFreeRingBuffer.full q = true ->
                  LockFreeRingBuffer.try_enqueue q data len = Ret (false, q)).
  { intros Hf. unfold LockFreeRingBuffer.full, LockFreeRingBuffer.size in Hf.
    rewrite Z.geb_leb in Hf. apply Z.leb_le in Hf.
    destruct (try_enqueue_cases q data len) as [[_ ->]|[Hlt _]]; [done|lia]. }
  assert (Hacc : LockFreeRingBuffer.full q = false ->
    slot + len <= LockFreeRingBuffer.buffer_size_ q ->
    exists b1 b2,
      Mem.memcpy (LockFreeRingBuffer.buffer_ q) slot data len = Ret b1 /\
      Mem.store_u16 b1 trailer (to_uint16 len) = Ret b2 /\
      LockFreeRingBuffer.try_enqueue q data len
      = Ret (true, LockFreeRingBuffer.with_buffer
                     (LockFreeRingBuffer.with_tail q
                        (wrap64 (LockFreeRingBuffer.tail_ q + 1))) b2)).
  { intros Hf Hin. unfold LockFreeRingBuffer.buffer_size_ in *.
    destruct (try_enqueue_cases q data len) as [[Hge _]|[_ ->]].
    { unfold LockFreeRingBuffer.full, LockFreeRingBuffer.size in Hf.
      rewrite Z.geb_leb in Hf. apply Z.leb_gt in Hf. lia. }
    unfold LockFreeRingBuffer.publish.
    change (LockFreeRingBuffer.slot_of
              (LockFreeRingBuffer.with_tail q (wrap64 (LockFreeRingBuffer.tail_ q + 1)))
              (LockFreeRingBuffer.tail_ q)) with slot.
    change (LockFreeRingBuffer.trailer_of
              (LockFreeRingBuffer.with_tail q (wrap64 (LockFreeRingBuffer.tail_ q + 1)))
              slot) with trailer.
    cbn [LockFreeRingBuffer.buffer_ LockFreeRingBuffer.with_tail].
    assert (H1 : exists b1, Mem.memcpy (LockFreeRingBuffer.buffer_ q) slot data len = Ret b1)
      by (eexists; by apply memcpy_Ret).
    destruct H1 as [b1 H1]. rewrite H1. cbn [bind].
    assert (H2 : exists b2, Mem.store_u16 b1 trailer (to_uint16 len) = Ret b2).
    { eexists. apply store_u16_Ret; rewrite ?(size_memcpy _ _ _ _ _ H1); lia. }
    destruct H2 as [b2 H2]. rewrite H2. cbn [bind]. by exists b1, b2. }
  split; [exact Hfull|]. split; [|split].
  - intros Hf Hin. destruct (Hacc Hf Hin) as (b1 & b2 & H1 & H2 & Henq).
    eexists. split; [exact Henq|]. cbn [LockFreeRingBuffer.tail_ LockFreeRingBuffer.buffer_
      LockFreeRingBuffer.with_buffer LockFreeRingBuffer.with_tail].
    split; [done|]. split; [|split].
    + rewrite (load_u16_store_u16 _ _ _ _ H2). f_equal. apply to_uint16_idem.
    + intros k Hk Hout.
      rewrite (load_store_u16_other _ _ _ _ _ H2) by lia.
      by rewrite (load_memcpy_inside _ _ _ _ _ _ H1) by lia.
    + intros a Ha1 Ha2.
      rewrite (load_store_u16_other _ _ _ _ _ H2) by lia.
      by rewrite (load_memcpy_other _ _ _ _ _ _ H1) by lia.
  - intros Hle. split; [lia|]. split; [lia|]. split; [lia|]. split; [lia|].
    intros Hf. destruct (Hacc Hf ltac:(lia)) as (b1 & b2 & _ & _ & Henq). by eexists.
  - intros Hgt Hf Hin. destruct (Hacc Hf Hin) as (b1 & b2 & H1 & H2 & Henq).
    eexists. split; [exact Henq|]. cbn [LockFreeRingBuffer.buffer_
      LockFreeRingBuffer.with_buffer]. split.
    + apply store_u16_inv in H2 as [_ ->]. unfold Mem.load. simpl.
      rewrite lookup_insert_ne by lia. rewrite lookup_insert.
      by rewrite decide_True.
    + intros Hover.
      rewrite (load_store_u16_other _ _ _ _ _ H2) by lia.
      replace (slot + LockFreeRingBuffer.entry_size_ q)
        with (slot + Z.of_nat (Z.to_nat (LockFreeRingBuffer.entry_size_ q))) by lia.
      apply (load_memcpy_inside _ _ _ _ _ _ H1). lia.
Qed.

Lemma try_enqueue_len_precondition_witness :
  exists q',
    LockFreeRingBuffer.try_enqueue (LockFreeRingBuffer.new 4 2) [1; 2; 3; 4; 5] 5
    = Ret (true, q') /\
    Mem.load (LockFreeRingBuffer.buffer_ q') 2 = 5 /\
    Mem.load (LockFreeRingBuffer.buffer_ q') 4 = 5.
Proof.
  destruct (try_enqueue_len_precondition (LockFreeRingBuffer.new 4 2) [1; 2; 3; 4; 5] 5)
    as (_ & _ & _ & Hover).
  - constructor; vm_compute; first [reflexivity | discriminate].
  - lia.
  - simpl. lia.
  - destruct Hover as (q' & Henq & Htr & Hnext).
    + simpl. lia.
    + reflexivity.
    + vm_compute. discriminate.
    + exists q'. split; [exact Henq|]. split; [exact Htr|]. apply Hnext. simpl. lia.
Defined.

(** ** Ring buffer: [try_dequeue] *)

Section DequeueFacts.

Import LockFreeRingBuffer.
Implicit Types (q : LockFreeRingBuffer.t).

Lemma try_dequeue_empty yield fuel cap q :
  head_ q >= tail_ q -> try_dequeue yield fuel cap q = Ret (false, [], q).
Proof.
  intros H. unfold try_dequeue.
  assert ((head_ q >=? tail_ q) = true) as -> by (rewrite Z.geb_leb; apply Z.leb_le; lia).
  reflexivity.
Qed.

Lemma try_dequeue_nonempty yield fuel cap q :
  head_ q < tail_ q -> max_entries_ q <> 0 ->
  try_dequeue yield fuel cap q =
    let slot := slot_of q (head_ q) in
    do '(slot_len, q1) <- await_trailer yield fuel q (trailer_of q slot);
    if cap <? slot_len then Fault
    else
      do bytes <- Mem.read (buffer_ q1) slot slot_len;
      do b <- Mem.store_u16 (buffer_ q1) (trailer_of q slot) 0;
      Ret (true, bytes, with_head (with_buffer q1 b) (wrap64 (head_ q + 1))).
Proof.
  intros H HN. unfold try_dequeue.
  assert ((head_ q >=? tail_ q) = false) as ->
    by (rewrite Z.geb_leb; apply Z.leb_gt; lia).
  assert ((max_entries_ q =? 0) = false) as -> by (apply Z.eqb_neq; lia).
  reflexivity.
Qed.

Lemma try_dequeue_false_inv yield fuel cap q out q' :
  try_dequeue yield fuel cap q = Ret (false, out, q') ->
  head_ q >= tail_ q /\ out = [] /\ q' = q.
Proof.
  unfold try_dequeue.
  destruct (head_ q >=? tail_ q) eqn:E.
  - intros [= <- <-]. rewrite Z.geb_leb in E. apply Z.leb_le in E. split; [lia|done].
  - destruct (max_entries_ q =? 0); [discriminate|].
    intros H. bind_inv H. destruct r as [slot_len q1].
    destruct (cap <? slot_len); [discriminate|].
    bind_inv H. bind_inv H. discriminate.
Qed.

Lemma await_trailer_unpublished fuel q trailer :
  Mem.load_u16 (buffer_ q) trailer = Ret 0 ->
  await_trailer id fuel q trailer = OutOfFuel.
Proof.
  intros H. induction fuel as [|fuel IH]; simpl; [done|].
  rewrite H. simpl. exact IH.
Qed.

Lemma try_dequeue_unpublished fuel cap q :
  oldest_unpublished q -> try_dequeue id fuel cap q = OutOfFuel.
Proof.
  intros (Hlt & HN & Htr). rewrite try_dequeue_nonempty by done. simpl.
  by rewrite await_trailer_unpublished.
Qed.

End DequeueFacts.

(** C3, as the code has it. [try_dequeue] returns false exactly when
    [head_ >= tail_], and then nothing is copied out and the queue, [head_]
    included, is as before. When the oldest reserved slot is not yet
    published the call does not return false: with no producer storing the
    trailer it is still spinning whatever the fuel. *)
Theorem try_dequeue_false_iff_empty
  (yield : LockFreeRingBuffer.t -> LockFreeRingBuffer.t) (fuel : nat) (cap : Z)
  (q : LockFreeRingBuffer.t) :
  (forall out q',
     LockFreeRingBuffer.try_dequeue yield fuel cap q = Ret (false, out, q') <->
     LockFreeRingBuffer.head_ q >= LockFreeRingBuffer.tail_ q /\ out = [] /\ q' = q) /\
  (oldest_unpublished q ->
     LockFreeRingBuffer.try_dequeue id fuel cap q = OutOfFuel).
Proof.
  split.
  - intros out q'. split.
    + apply try_dequeue_false_inv.
    + intros (H & -> & ->). by apply try_dequeue_empty.
  - apply try_dequeue_unpublished.
Qed.

Lemma try_dequeue_false_iff_empty_witness :
  LockFreeRingBuffer.try_dequeue id 5 256
    (LockFreeRingBuffer.with_tail (LockFreeRingBuffer.new 256 4) 1) = OutOfFuel.
Proof.
  apply (proj2 (try_dequeue_false_iff_empty id 5 256
                  (LockFreeRingBuffer.with_tail (LockFreeRingBuffer.new 256 4) 1))).
  repeat split; vm_compute; first [reflexivity | discriminate].
Defined.

(** C3 as stated fails. After a producer has reserved index 0 of a fresh
    queue and before it has stored the trailer, the oldest reserved slot is
    unpublished; [try_dequeue] does not return false there: it is still
    spinning after 1000 reads of the trailer, and once the producer's
    trailer store lands during a yield it returns true with the record. *)
Lemma try_dequeue_unpublished_counterexample :
  let q0 := LockFreeRingBuffer.with_tail (LockFreeRingBuffer.new 256 4) 1 in
  let producer q :=
    match LockFreeRingBuffer.publish q 0 [104; 105; 10] 3 with
    | Ret q' => q'
    | _ => q
    end in
  LockFreeRingBuffer.reserve (LockFreeRingBuffer.new 256 4) = Some (0, q0) /\
  oldest_unpublished q0 /\
  LockFreeRingBuffer.try_dequeue id 1000 256 q0 = OutOfFuel /\
  (exists q', LockFreeRingBuffer.try_dequeue producer 2 256 q0
              = Ret (true, [104; 105; 10], q')) /\
  ~ ((exists out q', LockFreeRingBuffer.try_dequeue id 1000 256 q0 = Ret (false, out, q'))
     <-> (LockFreeRingBuffer.head_ q0 >= LockFreeRingBuffer.tail_ q0 \/ oldest_unpublished q0)).
Proof.
  intros q0 producer.
  assert (Hun : oldest_unpublished q0)
    by (repeat split; vm_compute; first [reflexivity | discriminate]).
  assert (Hspin : LockFreeRingBuffer.try_dequeue id 1000 256 q0 = OutOfFuel)
    by (by apply try_dequeue_unpublished).
  split; [reflexivity|]. split; [exact Hun|]. split; [exact Hspin|]. split.
  - eexists. vm_compute. reflexivity.
  - intros [_ H]. destruct (H (or_intror Hun)) as (out & q' & Hq).
    rewrite Hspin in Hq. discriminate.
Qed.

(** ** Ring buffer: the counters *)

Section Counters.

Import LockFreeRingBuffer.
Implicit Types (q : LockFreeRingBuffer.t).

Lemma await_trailer_id_inv fuel q trailer slot_len q1 :
  await_trailer id fuel q trailer = Ret (slot_len, q1) ->
  q1 = q /\ slot_len <> 0 /\
  Mem.load_u16 (buffer_ q) trailer = Ret slot_len.
Proof.
  induction fuel as [|fuel IH]; simpl; [discriminate|].
  destruct (Mem.load_u16 (buffer_ q) trailer) as [v| |] eqn:E;
    simpl; try discriminate.
  destruct (v =? 0) eqn:Ev.
  - intros H. destruct (IH H) as (-> & ? & ?). done.
  - intros [= <- <-]. apply Z.eqb_neq in Ev. done.
Qed.

Lemma try_dequeue_id_inv_true fuel cap q out q' :
  try_dequeue id fuel cap q = Ret (true, out, q') ->
  head_ q < tail_ q /\ max_entries_ q <> 0 /\
  exists slot_len b,
    slot_len <> 0 /\ slot_len <= cap /\
    Mem.load_u16 (buffer_ q) (trailer_of q (slot_of q (head_ q))) = Ret slot_len /\
    Mem.read (buffer_ q) (slot_of q (head_ q)) slot_len = Ret out /\
    Mem.store_u16 (buffer_ q) (trailer_of q (slot_of q (head_ q))) 0 = Ret b /\
    q' = with_head (with_buffer q b) (wrap64 (head_ q + 1)).
Proof.
  unfold try_dequeue.
  destruct (head_ q >=? tail_ q) eqn:E; [discriminate|].
  rewrite Z.geb_leb in E. apply Z.leb_gt in E.
  destruct (max_entries_ q =? 0) eqn:EN; [discriminate|]. apply Z.eqb_neq in EN.
  intros H. bind_inv H. destruct r as [slot_len q1].
  apply await_trailer_id_inv in Hr as (-> & Hnz & Hld).
  destruct (cap <? slot_len) eqn:Ec; [discriminate|]. apply Z.ltb_ge in Ec.
  bind_inv H. bind_inv H. injection H as <- <-.
  split; [lia|]. split; [done|]. exists slot_len, r0. done.
Qed.

Lemma run_call_counters N k c q ok q' :
  0 <= N -> k + 1 < 2 ^ 64 -> counters_ok N k q ->
  run_call c q = Ret (ok, q') ->
  counters_ok N (k + 1) q' /\ head_ q <= head_ q' /\ tail_ q <= tail_ q'.
Proof.
  intros HN Hk (HmN & Hht & Htk & Hb) Hrun. unfold counters_ok.
  destruct c as [data len|fuel cap]; simpl in Hrun.
  - destruct ok.
    + apply try_enqueue_inv_true in Hrun as (Hlt & b1 & b2 & _ & _ & ->). simpl.
      rewrite wrap64_small in Hlt by lia.
      rewrite wrap64_small by lia. lia.
    + apply try_enqueue_inv_false in Hrun as [_ ->]. lia.
  - bind_inv Hrun. destruct r as [[ok' out] q1]. injection Hrun as -> ->.
    destruct ok.
    + apply try_dequeue_id_inv_true in Hr
        as (Hlt & _ & slot_len & b & _ & _ & _ & _ & _ & ->). simpl.
      rewrite wrap64_small by lia. lia.
    + apply try_dequeue_false_inv in Hr as (_ & _ & ->). lia.
Qed.

Lemma run_calls_counters N cs : forall k q q',
  0 <= N -> k + Z.of_nat (length cs) < 2 ^ 64 -> counters_ok N k q ->
  run_calls cs q = Ret q' ->
  counters_ok N (k + Z.of_nat (length cs)) q' /\
  head_ q <= head_ q' /\ tail_ q <= tail_ q'.
Proof.
  induction cs as [|c cs IH]; intros k q q' HN Hk Hok Hrun; simpl in *.
  - injection Hrun as <-. rewrite Z.add_0_r. split; [done|lia].
  - bind_inv Hrun. destruct r as [ok q1].
    destruct (run_call_counters N k c q ok q1) as (Hok1 & Hh & Ht); [lia|lia|done|done|].
    destruct (IH (k + 1) q1 q') as (Hok' & Hh' & Ht'); [lia|lia|done|done|].
    split; [|lia].
    replace (k + Z.of_nat (S (length cs))) with (k + 1 + Z.of_nat (length cs)) by lia.
    done.
Qed.

Lemma counters_ok_new entry_size N : 0 <= N -> counters_ok N 0 (new entry_size N).
Proof. intros. unfold counters_ok; simpl. lia. Qed.

Lemma try_enqueue_full q data len :
  wrap64 (tail_ q - head_ q) >= max_entries_ q ->
  try_enqueue q data len = Ret (false, q).
Proof.
  intros H. destruct (try_enqueue_cases q data len) as [[_ ->]|[? _]]; [done|lia].
Qed.

End Counters.

Section Size.

Import LockFreeRingBuffer.
Implicit Types (q : LockFreeRingBuffer.t).

Lemma run_call_size N c q ok q' :
  0 <= N < 2 ^ 64 -> counters_in_range N q ->
  run_call c q = Ret (ok, q') -> counters_in_range N q'.
Proof.
  intros HN (HmN & Hh & Ht & Hs) Hrun. unfold counters_in_range, size in *.
  destruct c as [data len|fuel cap]; simpl in Hrun.
  - destruct ok.
    + apply try_enqueue_inv_true in Hrun as (Hlt & b1 & b2 & _ & _ & ->). simpl.
      split; [done|]. split; [done|]. split; [apply wrap64_range|].
      rewrite wrap64_sub_l.
      replace (tail_ q + 1 - head_ q) with (tail_ q - head_ q + 1) by lia.
      rewrite <- wrap64_add_l.
      pose proof (wrap64_range (tail_ q - head_ q)).
      rewrite wrap64_small; lia.
    + apply try_enqueue_inv_false in Hrun as [_ ->]. done.
  - bind_inv Hrun. destruct r as [[ok' out] q1]. injection Hrun as -> ->.
    destruct ok.
    + apply try_dequeue_id_inv_true in Hr
        as (Hlt & _ & slot_len & b & _ & _ & _ & _ & _ & ->). simpl.
      rewrite (wrap64_small (head_ q + 1)) by lia.
      rewrite wrap64_small in Hs by lia.
      rewrite wrap64_small by lia. repeat split; try lia.
    + apply try_dequeue_false_inv in Hr as (_ & _ & ->). done.
Qed.

Lemma run_calls_size N cs : forall q q',
  0 <= N < 2 ^ 64 -> counters_in_range N q ->
  run_calls cs q = Ret q' -> counters_in_range N q'.
Proof.
  induction cs as [|c cs IH]; intros q q' HN Hq Hrun; simpl in Hrun.
  - by injection Hrun as <-.
  - bind_inv Hrun. destruct r as [ok q1].
    apply (IH q1 q'); [done| |done]. by apply (run_call_size N c q ok q1).
Qed.

Lemma counters_in_range_new entry_size N :
  0 <= N -> counters_in_range N (new entry_size N).
Proof.
  intros. unfold counters_in_range, size. simpl.
  rewrite wrap64_small by lia. lia.
Qed.

End Size.

(** C5. Start from a fresh queue of [N] slots and let one thread make any
    calls of [try_enqueue] and [try_dequeue]. In every state reached,
    [tail_ - head_] as the code computes it (a [size_t] difference) lies
    between 0 and [N]. As long as fewer than 2^64 calls have been made (the
    counters have not wrapped), [0 <= tail_ - head_ <= N] holds of the
    counters themselves, neither counter decreases over any later part of
    the run, and when [tail_ - head_ = N], [try_enqueue] returns false and
    changes nothing. *)
Theorem counters_bounded_monotone
  (entry_size N : Z) (cs1 cs2 : list call) (q1 q2 : LockFreeRingBuffer.t) :
  0 <= N < 2 ^ 64 ->
  run_calls cs1 (LockFreeRingBuffer.new entry_size N) = Ret q1 ->
  run_calls cs2 q1 = Ret q2 ->
  0 <= LockFreeRingBuffer.size q2 <= N /\
  (Z.of_nat (length (cs1 ++ cs2)) < 2 ^ 64 ->
   0 <= LockFreeRingBuffer.tail_ q2 - LockFreeRingBuffer.head_ q2 <= N /\
   LockFreeRingBuffer.head_ q1 <= LockFreeRingBuffer.head_ q2 /\
   LockFreeRingBuffer.tail_ q1 <= LockFreeRingBuffer.tail_ q2 /\
   (LockFreeRingBuffer.tail_ q2 - LockFreeRingBuffer.head_ q2 = N ->
    forall data len, LockFreeRingBuffer.try_enqueue q2 data len = Ret (false, q2))).
Proof.
  intros HN H1 H2. split.
  - assert (Hr : counters_in_range N q2).
    { apply (run_calls_size N cs2 q1 q2); [done| |done].
      apply (run_calls_size N cs1 (LockFreeRingBuffer.new entry_size N) q1); [done| |done].
      apply counters_in_range_new. lia. }
    destruct Hr as (_ & _ & _ & Hs). split; [|done].
    apply wrap64_range.
  - intros Hlen. rewrite length_app in Hlen.
    destruct (run_calls_counters N cs1 0 (LockFreeRingBuffer.new entry_size N) q1)
      as (Hok1 & _ & _);
      [lia|lia|apply counters_ok_new; lia|exact H1|].
    destruct (run_calls_counters N cs2 (0 + Z.of_nat (length cs1)) q1 q2)
      as (Hok2 & Hh & Ht);
      [lia|lia|exact Hok1|exact H2|].
    destruct Hok2 as (HmN & Hht & Htk & Hb).
    split; [lia|]. split; [lia|]. split; [lia|].
    intros Hfull data len. apply try_enqueue_full.
    rewrite Hfull, HmN, wrap64_small by lia. lia.
Qed.

Lemma counters_bounded_monotone_witness :
  let cs1 := [Enqueue [97; 10] 2; Enqueue [98; 10] 2; Enqueue [99; 10] 2] in
  let cs2 := [Dequeue 1 256; Enqueue [100; 10] 2] in
  let q0 := LockFreeRingBuffer.new 256 2 in
  let q1 := ret_or q0 (run_calls cs1 q0) in
  let q2 := ret_or q1 (run_calls cs2 q1) in
  (LockFreeRingBuffer.head_ q1 = 0 /\ LockFreeRingBuffer.tail_ q1 = 2 /\
   LockFreeRingBuffer.head_ q2 = 1 /\ LockFreeRingBuffer.tail_ q2 = 3) /\
  0 <= LockFreeRingBuffer.size q2 <= 2 /\
  0 <= LockFreeRingBuffer.tail_ q2 - LockFreeRingBuffer.head_ q2 <= 2 /\
  LockFreeRingBuffer.head_ q1 <= LockFreeRingBuffer.head_ q2 /\
  LockFreeRingBuffer.tail_ q1 <= LockFreeRingBuffer.tail_ q2 /\
  (LockFreeRingBuffer.tail_ q2 - LockFreeRingBuffer.head_ q2 = 2 ->
   forall data len, LockFreeRingBuffer.try_enqueue q2 data len = Ret (false, q2)).
Proof.
  intros cs1 cs2 q0 q1 q2.
  assert (HN : 0 <= 2 < 2 ^ 64) by lia.
  assert (H1 : run_calls cs1 q0 = Ret q1) by (vm_compute; reflexivity).
  assert (H2 : run_calls cs2 q1 = Ret q2) by (vm_compute; reflexivity).
  assert (Hlen : Z.of_nat (length (cs1 ++ cs2)) < 2 ^ 64) by (simpl; lia).
  split; [repeat split; reflexivity|].
  exact (conj (proj1 (counters_bounded_monotone 256 2 cs1 cs2 q1 q2 HN H1 H2))
              (proj2 (counters_bounded_monotone 256 2 cs1 cs2 q1 q2 HN H1 H2) Hlen)).
Defined.

(** At the wrap of [size_t], which the statement above leaves out, [tail_]
    restarts from 0; the size is still right, but the emptiness test of
    [try_dequeue] compares the counters themselves and reports an empty
    queue. *)
Example tail_wraps_at_size_max :
  let q := LockFreeRingBuffer.with_head
             (LockFreeRingBuffer.with_tail (LockFreeRingBuffer.new 256 4) (2 ^ 64 - 1))
             (2 ^ 64 - 1) in
  let q' := ret_or q (run_calls [Enqueue [10] 1] q) in
  LockFreeRingBuffer.try_enqueue q [10] 1 = Ret (true, q') /\
  LockFreeRingBuffer.tail_ q' = 0 /\
  LockFreeRingBuffer.size q' = 1 /\
  LockFreeRingBuffer.try_dequeue id 1 256 q' = Ret (false, [], q').
Proof. vm_compute. repeat split; reflexivity. Qed.

(** ** Logger: level filter and rendering *)

Section LogFacts.

Context {S : Type} {SinkS : Sink S}.
Variable sched : nat -> nat.
Implicit Types (lg : Logger.t S) (tl : Logger.thread_locals).






End LogFacts.

(** C7. A call of [log<L>] with [L] below [MinLevel] returns at once: the
    thread-local scratch buffer and batch, the queue, the sink and every
    other part of the logger are what they were. *)
Theorem log_below_min_level_unchanged
  {S : Type} {SinkS : Sink S} (sched : nat -> nat) (MinLevel L : LogLevel)
  (fuel : nat) (ns : Z) (payload : list Z)
  (tl : Logger.thread_locals) (lg : Logger.t S) :
  level_to_int L < level_to_int MinLevel ->
  Logger.log sched MinLevel L fuel ns payload tl lg = Ret (tl, lg).
Proof.
  intros Hlt. unfold Logger.log.
  assert ((level_to_int L >=? level_to_int MinLevel) = false) as ->
    by (rewrite Z.geb_leb; apply Z.leb_gt; lia).
  reflexivity.
Qed.

Lemma log_below_min_level_unchanged_witness :
  Logger.log (fun _ => 1%nat) INFO TRACE 10 1500000007 (bytes_of_string "x")
    Logger.fresh_thread (Logger.new capture_sink true)
  = Ret (Logger.fresh_thread, Logger.new capture_sink true).
Proof.
  apply (log_below_min_level_unchanged (fun _ => 1%nat) INFO TRACE).
  simpl. lia.
Defined.



(** ** Logger: what the worker and a suspension change *)

Section WorkerFacts.

Context {S : Type} {SinkS : Sink S}.
Variable sched : nat -> nat.
Implicit Types (lg : Logger.t S) (tl : Logger.thread_locals).

Lemma same_tail_refl oq : same_tail oq oq.
Proof. by destruct oq. Qed.

Lemma same_tail_trans oq1 oq2 oq3 :
  same_tail oq1 oq2 -> same_tail oq2 oq3 -> same_tail oq1 oq3.
Proof.
  destruct oq1, oq2, oq3; simpl; try tauto. intros [-> ->] [-> ->]. done.
Qed.

Lemma worker_frame_refl lg : worker_frame lg lg.
Proof. repeat split. apply same_tail_refl. Qed.

Lemma worker_frame_trans lg1 lg2 lg3 :
  worker_frame lg1 lg2 -> worker_frame lg2 lg3 -> worker_frame lg1 lg3.
Proof.
  intros (? & ? & ? & ? & ?) (? & ? & ? & ? & ?).
  repeat split; try congruence. by eapply same_tail_trans.
Qed.

Lemma worker_iteration_frame lg lg' :
  Logger.worker_iteration lg = Ret lg' -> worker_frame lg lg'.
Proof.
  unfold Logger.worker_iteration.
  destruct (Logger.queue_ lg) as [q|] eqn:Hq; [|discriminate].
  destruct (LockFreeRingBuffer.try_dequeue id 1 256 q) as [[[ok entry] q']| |] eqn:Hd;
    [|discriminate|].
  - destruct ok.
    + intros [= <-].
      apply try_dequeue_id_inv_true in Hd as (_ & _ & slot_len & b & _ & _ & _ & _ & _ & ->).
      repeat split; simpl; try done. by rewrite Hq.
    + intros [= <-]. apply worker_frame_refl.
  - intros [= <-]. apply worker_frame_refl.
Qed.

Lemma worker_iterations_frame n : forall lg lg',
  Logger.worker_iterations n lg = Ret lg' -> worker_frame lg lg'.
Proof.
  induction n as [|n IH]; intros lg lg' H; simpl in H.
  - injection H as <-. apply worker_frame_refl.
  - bind_inv H. eapply worker_frame_trans; [by apply worker_iteration_frame|by apply IH].
Qed.

Lemma suspend_inv e lg lg' :
  Logger.suspend sched e lg = Ret lg' ->
  Logger.events_ lg' = Logger.events_ lg ++ [e] /\
  Logger.worker_ lg' = Logger.worker_ lg /\
  Logger.running_ lg' = Logger.running_ lg /\
  same_tail (Logger.queue_ lg) (Logger.queue_ lg').
Proof.
  unfold Logger.suspend. intros H.
  assert (worker_frame (Logger.tick (Logger.emit lg e)) lg') as (Ht & _ & Hw & Hr & Hq).
  { destruct (Logger.worker_ lg), (Logger.running_ lg);
      first [ injection H as <-; apply worker_frame_refl
            | by apply worker_iterations_frame in H ]. }
  simpl in *. done.
Qed.

Lemma suspend_idle e lg :
  Logger.worker_ lg <> Logger.WorkerRunning ->
  Logger.suspend sched e lg = Ret (Logger.tick (Logger.emit lg e)).
Proof. unfold Logger.suspend. by destruct (Logger.worker_ lg), (Logger.running_ lg). Qed.

Lemma yields_inv n : forall lg lg',
  Logger.yields sched n lg = Ret lg' ->
  Logger.events_ lg' = Logger.events_ lg ++ repeat Logger.Yield n /\
  Logger.worker_ lg' = Logger.worker_ lg /\
  Logger.running_ lg' = Logger.running_ lg /\
  same_tail (Logger.queue_ lg) (Logger.queue_ lg').
Proof.
  induction n as [|n IH]; intros lg lg' H; simpl in H.
  - injection H as <-. simpl. rewrite app_nil_r. repeat split. apply same_tail_refl.
  - bind_inv H. apply suspend_inv in Hr as (Ht1 & Hw1 & Hr1 & Hq1).
    apply IH in H as (Ht2 & Hw2 & Hr2 & Hq2).
    repeat split; try congruence.
    + rewrite Ht2, Ht1, <- app_assoc. reflexivity.
    + by eapply same_tail_trans.
Qed.

Lemma attempt_events_pause k : Forall is_pause (attempt_events k).
Proof.
  unfold attempt_events. destruct (k <? 4)%nat.
  - induction (2 ^ k)%nat; simpl; constructor; [by left|done].
  - constructor; [by right|constructor].
Qed.

Lemma backoff_events_pause first n : Forall is_pause (backoff_trace first n).
Proof.
  unfold backoff_trace. revert first. induction n as [|n IH]; intros first; simpl.
  - constructor.
  - apply Forall_app. split; [apply attempt_events_pause|apply IH].
Qed.

(** The retry loop: [k] is the number of the attempt at which it is entered,
    and [backoff] has the value the loop gives it by then. *)
Lemma enqueue_with_backoff_inv fuel : forall k backoff data len lg lg',
  backoff = Z.of_nat (Nat.min k 4) ->
  Logger.enqueue_with_backoff sched fuel backoff data len lg = Ret lg' ->
  exists (n : nat) qa qb,
    (n <= fuel)%nat /\
    Logger.events_ lg' = Logger.events_ lg ++ backoff_trace k n /\
    LockFreeRingBuffer.try_enqueue qa data len = Ret (true, qb) /\
    Logger.queue_ lg' = Some qb /\
    same_tail (Logger.queue_ lg) (Some qa) /\
    Logger.worker_ lg' = Logger.worker_ lg /\
    Logger.running_ lg' = Logger.running_ lg.
Proof.
  induction fuel as [|fuel IH]; intros k backoff data len lg lg' Hb H;
    simpl in H; destruct (Logger.queue_ lg) as [q|] eqn:Hq; try discriminate;
    bind_inv H; destruct r as [ok q']; destruct ok; try discriminate.
  - injection H as <-. exists O, q, q'. simpl. rewrite app_nil_r. done.
  - injection H as <-. exists O, q, q'. simpl. rewrite app_nil_r.
    split; [lia|done].
  - unfold Logger.BACKOFF_MAX in H. destruct (backoff <? 4) eqn:Hlt.
    + apply Z.ltb_lt in Hlt. bind_inv H.
      apply yields_inv in Hr0 as (Ht1 & Hw1 & Hr1 & Hq1).
      apply (IH (Datatypes.S k)) in H
        as (n & qa & qb & Hn & Ht2 & Henq & Hq2 & Hst & Hw2 & Hr2); [|lia].
      exists (Datatypes.S n), qa, qb.
      split; [lia|]. split; [|split; [exact Henq|split; [exact Hq2|split]]].
      * rewrite Ht2, Ht1, <- app_assoc. f_equal.
        unfold backoff_trace. simpl. f_equal.
        unfold attempt_events.
        assert ((k <? 4)%nat = true) as -> by (apply Nat.ltb_lt; lia).
        f_equal. subst backoff. rewrite Z.shiftl_1_l.
        replace (Nat.min k 4) with k by lia.
        change 2 with (Z.of_nat 2). by rewrite <- Nat2Z.inj_pow, Nat2Z.id.
      * rewrite Hq in Hq1. eapply same_tail_trans; [exact Hq1|exact Hst].
      * split; congruence.
    + apply Z.ltb_ge in Hlt. bind_inv H.
      apply suspend_inv in Hr0 as (Ht1 & Hw1 & Hr1 & Hq1).
      apply (IH (Datatypes.S k)) in H
        as (n & qa & qb & Hn & Ht2 & Henq & Hq2 & Hst & Hw2 & Hr2); [|lia].
      exists (Datatypes.S n), qa, qb.
      split; [lia|]. split; [|split; [exact Henq|split; [exact Hq2|split]]].
      * rewrite Ht2, Ht1, <- app_assoc. f_equal.
        unfold backoff_trace. simpl. f_equal.
        unfold attempt_events.
        assert ((k <? 4)%nat = false) as -> by (apply Nat.ltb_ge; lia).
        reflexivity.
      * rewrite Hq in Hq1. eapply same_tail_trans; [exact Hq1|exact Hst].
      * split; congruence.
Qed.

End WorkerFacts.

(** ** Logger: [flush_batch] *)

Section FlushBatchFacts.

Context {S : Type} {SinkS : Sink S}.
Variable sched : nat -> nat.
Implicit Types (lg : Logger.t S) (tl : Logger.thread_locals).

Lemma try_enqueue_true_facts qa data len qb :
  LockFreeRingBuffer.try_enqueue qa data len = Ret (true, qb) ->
  LockFreeRingBuffer.tail_ qb = wrap64 (LockFreeRingBuffer.tail_ qa + 1) /\
  LockFreeRingBuffer.head_ qb = LockFreeRingBuffer.head_ qa /\
  LockFreeRingBuffer.max_entries_ qb = LockFreeRingBuffer.max_entries_ qa /\
  (LockFreeRingBuffer.max_entries_ qa < 2 ^ 64 -> LockFreeRingBuffer.size qb <> 0).
Proof.
  intros (Hlt & b1 & b2 & _ & _ & ->)%try_enqueue_inv_true. simpl.
  repeat split. intros HN. unfold LockFreeRingBuffer.size. simpl.
  rewrite wrap64_sub_l.
  replace (LockFreeRingBuffer.tail_ qa + 1 - LockFreeRingBuffer.head_ qa)
    with (LockFreeRingBuffer.tail_ qa - LockFreeRingBuffer.head_ qa + 1) by lia.
  rewrite <- wrap64_add_l.
  pose proof (wrap64_range (LockFreeRingBuffer.tail_ qa - LockFreeRingBuffer.head_ qa)).
  rewrite wrap64_small by lia. lia.
Qed.

Lemma enqueue_with_backoff_mono fuel : forall fuel' backoff data len lg lg',
  (fuel <= fuel')%nat ->
  Logger.enqueue_with_backoff sched fuel backoff data len lg = Ret lg' ->
  Logger.enqueue_with_backoff sched fuel' backoff data len lg = Ret lg'.
Proof.
  induction fuel as [|fuel IH]; intros fuel' backoff data len lg lg' Hle H.
  - destruct fuel'; simpl in *; destruct (Logger.queue_ lg); try discriminate;
      bind_inv H; destruct r as [ok q']; destruct ok; try discriminate;
      rewrite Hr; done.
  - destruct fuel' as [|fuel']; [lia|]. simpl in *.
    destruct (Logger.queue_ lg); [|discriminate].
    bind_inv H. destruct r as [ok q']. rewrite Hr. simpl. destruct ok; [done|].
    destruct (backoff <? Logger.BACKOFF_MAX).
    + bind_inv H. rewrite Hr0. simpl. apply IH; [lia|done].
    + bind_inv H. rewrite Hr0. simpl. apply IH; [lia|done].
Qed.

Lemma flush_entries_inv fuel n : forall i b lg lg',
  Logger.flush_entries sched fuel n i b lg = Ret lg' ->
  (exists evs, Logger.events_ lg' = Logger.events_ lg ++ evs /\ Forall is_pause evs) /\
  Logger.worker_ lg' = Logger.worker_ lg /\
  Logger.running_ lg' = Logger.running_ lg /\
  (forall q, Logger.queue_ lg = Some q ->
     exists q', Logger.queue_ lg' = Some q' /\
       wrap64 (LockFreeRingBuffer.tail_ q')
       = wrap64 (LockFreeRingBuffer.tail_ q + Z.of_nat n) /\
       LockFreeRingBuffer.max_entries_ q' = LockFreeRingBuffer.max_entries_ q /\
       ((1 <= n)%nat -> LockFreeRingBuffer.max_entries_ q < 2 ^ 64 ->
        LockFreeRingBuffer.size q' <> 0)).
Proof.
  induction n as [|n IH]; intros i b lg lg' H; simpl in H.
  - injection H as <-. split; [exists []; by rewrite app_nil_r|].
    split; [done|]. split; [done|].
    intros q Hq. exists q. split; [done|]. split; [by rewrite Z.add_0_r|].
    split; [done|lia].
  - bind_inv H. bind_inv H.
    apply (enqueue_with_backoff_inv sched fuel O) in Hr0
      as (m & qa & qb & _ & Ht1 & Henq & Hq1 & Hst & Hw1 & Hr1); [|done].
    pose proof (IH _ _ _ _ H) as ((evs & Ht2 & Hevs) & Hw2 & Hr2 & Hq2).
    split; [|split; [congruence|split; [congruence|]]].
    + exists (backoff_trace 0 m ++ evs). split.
      * rewrite Ht2, Ht1, <- app_assoc. reflexivity.
      * apply Forall_app. split; [apply backoff_events_pause|done].
    + intros q Hq. rewrite Hq in Hst. destruct Hst as [Hta HNa].
      apply try_enqueue_true_facts in Henq as (Htb & _ & HNb & Hne).
      destruct (Hq2 qb Hq1) as (q' & Hq' & Ht' & HN' & Hne').
      exists q'. split; [done|]. split; [|split; [congruence|]].
      * rewrite Ht', Htb, Hta, wrap64_add_l. f_equal. lia.
      * intros _ HN. destruct n as [|n].
        -- simpl in H. injection H as <-.
           rewrite Hq1 in Hq'. injection Hq' as <-. apply Hne. congruence.
        -- apply Hne'; [lia|congruence].
Qed.

Lemma flush_batch_inv fuel tl lg tl' lg' :
  Logger.flush_batch sched fuel tl lg = Ret (tl', lg') ->
  Logger.flush_entries sched fuel
    (Z.to_nat (ThreadLocalBatch.size (Logger.batch_ tl))) 0 (Logger.batch_ tl) lg
  = Ret lg' /\
  tl' = {| Logger.format_buf_ := Logger.format_buf_ tl;
           Logger.batch_ := ThreadLocalBatch.clear (Logger.batch_ tl) |}.
Proof.
  unfold Logger.flush_batch. intros H. bind_inv H. simpl in H.
  by injection H as <- <-.
Qed.

End FlushBatchFacts.

(** C4, on the code. Whatever the batch holds, the only events of a
    returning [flush_batch] are the yields and sleeps of its backoff:
    [cv_.notify_one()] is never issued, because the test that guards it reads
    the size of the batch after [clear()]. *)
Theorem flush_batch_issues_no_notification
  {S : Type} {SinkS : Sink S} (sched : nat -> nat) (fuel : nat)
  (tl tl' : Logger.thread_locals) (lg lg' : Logger.t S) :
  Logger.flush_batch sched fuel tl lg = Ret (tl', lg') ->
  exists evs,
    Logger.events_ lg' = Logger.events_ lg ++ evs /\
    Forall is_pause evs /\
    ~ In Logger.NotifyOne evs.
Proof.
  intros [H _]%flush_batch_inv.
  apply flush_entries_inv in H as ((evs & Ht & Hevs) & _).
  exists evs. split; [done|]. split; [done|].
  intros Hin. rewrite Forall_forall in Hevs.
  apply list_elem_of_In, Hevs in Hin as [?|?]; discriminate.
Qed.

Lemma flush_batch_issues_no_notification_witness :
  let st := ret_or (Logger.fresh_thread, Logger.new capture_sink true)
              (info_all (fun _ => O) 10 (repeat (0, bytes_of_string "x") 2)
                 Logger.fresh_thread (Logger.new capture_sink true)) in
  let r := ret_or st (Logger.flush_batch (fun _ => O) 10 (fst st) (snd st)) in
  ThreadLocalBatch.size (Logger.batch_ (fst st)) = 2 /\
  option_map LockFreeRingBuffer.size (Logger.queue_ (snd r)) = Some 2 /\
  Logger.events_ (snd r) = [] /\
  exists evs,
    Logger.events_ (snd r) = Logger.events_ (snd st) ++ evs /\
    Forall is_pause evs /\ ~ In Logger.NotifyOne evs.
Proof.
  intros st r.
  split; [vm_compute; reflexivity|].
  split; [vm_compute; reflexivity|].
  split; [vm_compute; reflexivity|].
  apply (flush_batch_issues_no_notification (fun _ => O) 10 (fst st) (fst r)).
  vm_compute. reflexivity.
Defined.

(** ** Logger: [flush] and the destructor *)

Section ShutdownFacts.

Context {S : Type} {SinkS : Sink S}.
Variable sched : nat -> nat.
Implicit Types (lg : Logger.t S) (tl : Logger.thread_locals).

Lemma worker_drain_frame fuel : forall lg lg',
  Logger.worker_drain fuel lg = Ret lg' -> worker_frame lg lg'.
Proof.
  induction fuel as [|fuel IH]; intros lg lg' H; [discriminate|].
  cbn [Logger.worker_drain] in H.
  destruct (Logger.queue_ lg) as [q|] eqn:Hq; [|discriminate].
  bind_inv H. destruct r as [[ok entry] q']. destruct ok.
  - apply try_dequeue_id_inv_true in Hr
      as (_ & _ & slot_len & b & _ & _ & _ & _ & _ & ->).
    apply IH in H. eapply worker_frame_trans; [|exact H].
    repeat split; simpl; try done. by rewrite Hq.
  - injection H as <-. apply worker_frame_refl.
Qed.

Lemma not_returns_bind {A B} (m : outcome A) (f : A -> outcome B) :
  (forall a, m = Ret a -> ~ returns (f a)) -> ~ returns (bind m f).
Proof.
  intros H [b Hb]. apply bind_Ret_inv in Hb as (a & Ha & Hfa).
  apply (H a Ha). by exists b.
Qed.

(** With no worker running, the wait for an empty queue never ends. *)
Lemma wait_empty_idle fuel : forall lg q,
  Logger.worker_ lg <> Logger.WorkerRunning ->
  Logger.queue_ lg = Some q -> LockFreeRingBuffer.size q <> 0 ->
  Logger.wait_empty sched fuel lg = OutOfFuel.
Proof.
  induction fuel as [|fuel IH]; intros lg q Hw Hq Hne; simpl; rewrite Hq;
    unfold LockFreeRingBuffer.empty;
    (assert ((LockFreeRingBuffer.size q =? 0) = false) as -> by (by apply Z.eqb_neq));
    [done|].
  rewrite suspend_idle by done. simpl. by apply (IH _ q).
Qed.

Lemma flush_pending_never_returns fuel tl lg q :
  Logger.worker_ lg = Logger.WorkerJoined ->
  Logger.queue_ lg = Some q -> LockFreeRingBuffer.max_entries_ q < 2 ^ 64 ->
  0 < ThreadLocalBatch.size (Logger.batch_ tl) ->
  ~ returns (Logger.flush sched fuel tl lg).
Proof.
  intros Hw Hq HN Hsz. unfold Logger.flush.
  assert ((ThreadLocalBatch.size (Logger.batch_ tl) >? 0) = true) as ->
    by (apply Z.gtb_lt; lia).
  apply not_returns_bind. intros [tl1 lg1] [Hfe ->]%flush_batch_inv.
  apply flush_entries_inv in Hfe as (_ & Hw1 & _ & Hq1).
  destruct (Hq1 q Hq) as (q1 & Hq1' & _ & _ & Hne).
  rewrite Hw1, Hw.
  rewrite (wait_empty_idle fuel lg1 q1); [by intros [? ?]|congruence|done|].
  apply Hne; lia.
Qed.


Lemma destroy_pending_never_returns fuel tl lg q :
  Logger.worker_ lg = Logger.WorkerRunning ->
  Logger.queue_ lg = Some q ->
  LockFreeRingBuffer.max_entries_ q < 2 ^ 64 ->
  0 < ThreadLocalBatch.size (Logger.batch_ tl) ->
  ~ returns (Logger.destroy sched fuel tl lg).
Proof.
  intros Hw Hq HN Hsz. unfold Logger.destroy. rewrite Hw.
  apply not_returns_bind. intros lg1 Hj. unfold Logger.join in Hj.
  bind_inv Hj. injection Hj as <-.
  apply worker_drain_frame in Hr as (_ & _ & _ & _ & Hst). simpl in Hst.
  rewrite Hq in Hst. destruct (Logger.queue_ r) as [q1|] eqn:Hq1; [|done].
  destruct Hst as [_ HN1].
  apply (flush_pending_never_returns fuel tl _ q1); simpl; [done|done|lia|done].
Qed.

Lemma try_add_inv (b b' : ThreadLocalBatch.t) data len ok :
  ThreadLocalBatch.try_add b data len = Ret (ok, b') ->
  if ok then ThreadLocalBatch.count_ b' = ThreadLocalBatch.count_ b + 1
  else b' = b /\ ThreadLocalBatch.BATCH_SIZE <= ThreadLocalBatch.count_ b.
Proof.
  unfold ThreadLocalBatch.try_add.
  destruct (ThreadLocalBatch.count_ b >=? ThreadLocalBatch.BATCH_SIZE) eqn:E.
  - intros [= <- <-]. rewrite Z.geb_leb in E. apply Z.leb_le in E. done.
  - intros H. bind_inv H. bind_inv H. by injection H as <- <-.
Qed.

(** An admitted record leaves the batch of an asynchronous logger nonempty. *)
Lemma log_async_inv MinLevel L fuel ns payload tl lg tl' lg' q :
  level_to_int MinLevel <= level_to_int L ->
  Logger.queue_ lg = Some q ->
  0 <= ThreadLocalBatch.count_ (Logger.batch_ tl) ->
  Logger.log sched MinLevel L fuel ns payload tl lg = Ret (tl', lg') ->
  1 <= ThreadLocalBatch.count_ (Logger.batch_ tl') /\
  Logger.worker_ lg' = Logger.worker_ lg /\
  exists q', Logger.queue_ lg' = Some q' /\
    LockFreeRingBuffer.max_entries_ q' = LockFreeRingBuffer.max_entries_ q.
Proof.
  intros Hadm Hq Hc. unfold Logger.log.
  assert ((level_to_int L >=? level_to_int MinLevel) = true) as ->
    by (rewrite Z.geb_leb; apply Z.leb_le; lia).
  rewrite Hq. cbn [Logger.batch_]. intros H.
  bind_inv H. destruct r as [added b1]. apply try_add_inv in Hr. destruct added.
  - injection H as <- <-. simpl. split; [lia|]. split; [done|]. by exists q.
  - bind_inv H. destruct r as [tl1 lg1]. bind_inv H. destruct r as [ok2 b2].
    injection H as <- <-. simpl.
    apply flush_batch_inv in Hr0 as [Hfe ->]. simpl in Hr1.
    apply flush_entries_inv in Hfe as (_ & Hw & _ & Hq').
    destruct (Hq' q Hq) as (q' & Hq1 & _ & HN & _).
    apply try_add_inv in Hr1. simpl in Hr1.
    split; [|split; [done|by exists q']].
    destruct ok2; [lia|]. destruct Hr1 as [_ Hr1].
    unfold ThreadLocalBatch.BATCH_SIZE in Hr1. lia.
Qed.

Lemma info_all_async_inv fuel records : forall tl lg tl' lg' q,
  Logger.queue_ lg = Some q ->
  0 <= ThreadLocalBatch.count_ (Logger.batch_ tl) ->
  info_all sched fuel records tl lg = Ret (tl', lg') ->
  (records <> [] -> 1 <= ThreadLocalBatch.count_ (Logger.batch_ tl')) /\
  0 <= ThreadLocalBatch.count_ (Logger.batch_ tl') /\
  Logger.worker_ lg' = Logger.worker_ lg /\
  exists q', Logger.queue_ lg' = Some q' /\
    LockFreeRingBuffer.max_entries_ q' = LockFreeRingBuffer.max_entries_ q.
Proof.
  induction records as [|[ns payload] rest IH]; intros tl lg tl' lg' q Hq Hc H;
    simpl in H.
  - injection H as <- <-. split; [done|]. split; [done|]. split; [done|]. by exists q.
  - bind_inv H. destruct r as [tl1 lg1].
    apply (log_async_inv TRACE INFO fuel ns payload tl lg tl1 lg1 q) in Hr
      as (Hc1 & Hw1 & q1 & Hq1 & HN1); [|simpl; lia|done|done].
    destruct (IH tl1 lg1 tl' lg' q1 Hq1 ltac:(lia) H) as (Hne & Hc' & Hw' & q' & Hq' & HN').
    split; [|split; [done|split; [congruence|]]].
    + intros _. destruct rest as [|r rest].
      * simpl in H. by injection H as <- <-.
      * by apply Hne.
    + exists q'. split; [done|congruence].
Qed.

End ShutdownFacts.

(** C1, on the code. One thread emits at least one record through a fresh
    asynchronous logger, does not call [flush], and the logger is destroyed.
    The destructor joins the worker first and flushes afterwards: [flush]
    pushes the records still in the thread's batch into the queue and then
    waits for the queue to become empty, which the joined worker can no
    longer bring about. For no amount of fuel does the destructor return. *)
Theorem destroy_after_emitting_never_returns
  {S : Type} {SinkS : Sink S} (sched : nat -> nat) (fuel fuel' : nat)
  (sink : S) (records : list (Z * list Z))
  (tl' : Logger.thread_locals) (lg' : Logger.t S) :
  records <> [] ->
  info_all sched fuel records Logger.fresh_thread (Logger.new sink true) = Ret (tl', lg') ->
  ~ returns (Logger.destroy sched fuel' tl' lg').
Proof.
  intros Hne H.
  apply (info_all_async_inv sched fuel records _ _ _ _ (LockFreeRingBuffer.new 256 65536))
    in H as (Hc & _ & Hw & q' & Hq' & HN'); [|done|simpl; lia].
  apply (destroy_pending_never_returns sched fuel' tl' lg' q'); try done.
  - rewrite HN'. simpl. lia.
  - specialize (Hc Hne). unfold ThreadLocalBatch.size. lia.
Qed.

(** Scenario S6 with 40 records: 32 have gone through the queue, 8 are in
    the batch. The join delivers the 32; the flush that follows is still
    waiting after 1000 yields, so the 8 never reach the sink and the
    destructor does not return. *)
Lemma destroy_after_emitting_never_returns_witness :
  let records := repeat (0, bytes_of_string "x") 40 in
  let st := ret_or (Logger.fresh_thread, Logger.new capture_sink true)
              (info_all (fun _ => O) 10 records
                 Logger.fresh_thread (Logger.new capture_sink true)) in
  let joined := ret_or (snd st)
                  (Logger.join 100
                     (Logger.emit (Logger.with_running (snd st) false) Logger.NotifyAll)) in
  ThreadLocalBatch.size (Logger.batch_ (fst st)) = 8 /\
  length (captured (Logger.sink_ joined)) = 32%nat /\
  Logger.destroy (fun _ => O) 1000 (fst st) (snd st) = OutOfFuel /\
  ~ returns (Logger.destroy (fun _ => O) 1000 (fst st) (snd st)).
Proof.
  intros records st joined.
  split; [vm_compute; reflexivity|].
  split; [vm_compute; reflexivity|].
  split; [vm_compute; reflexivity|].
  apply (destroy_after_emitting_never_returns (fun _ => O) 10 1000 capture_sink records
           (fst st) (snd st)).
  - discriminate.
  - vm_compute. reflexivity.
Defined.

(** ** The trailer discipline for lengths that fit

    What C6 asks holds on the code for runs whose enqueued lengths lie in
    [1, entry_size_ - 2] and are nonzero as a [uint16_t]. *)

Section TrailerDiscipline.

Import LockFreeRingBuffer.
Implicit Types (q : LockFreeRingBuffer.t).

Lemma load_u16_memcpy_other m off src len m' a :
  Mem.memcpy m off src len = Ret m' -> a + 2 <= off \/ off + len <= a ->
  Mem.load_u16 m' a = Mem.load_u16 m a.
Proof.
  intros Hm Ha. unfold Mem.load_u16.
  rewrite !(load_memcpy_other _ _ _ _ _ _ Hm) by lia.
  apply memcpy_inv in Hm as [_ ->]. reflexivity.
Qed.

Lemma mod_distinct_within N h i :
  0 < N -> h < i < h + N -> i mod N <> h mod N.
Proof.
  intros HN Hi Heq.
  assert (Hd : (i - h) mod N = 0).
  { rewrite Zminus_mod, Heq, Z.sub_diag. by apply Z.mod_0_l; lia. }
  rewrite Z.mod_small in Hd by lia. lia.
Qed.

Lemma ring_wf_with q b h tl :
  ring_wf q -> Mem.size b = Mem.size (buffer_ q) ->
  ring_wf (with_head (with_tail (with_buffer q b) tl) h).
Proof. intros [? ? ? ?] Hb. constructor; unfold buffer_size_ in *; simpl; congruence. Qed.

Lemma slots_apart (es k k' : Z) : 2 <= es -> k <> k' ->
  k * es + es <= k' * es \/ k' * es + es <= k * es.
Proof. intros. nia. Qed.

Lemma run_call_trailer_discipline N k c q ok q' :
  k + 1 < 2 ^ 64 -> ring_wf q -> counters_ok N k q ->
  valid_lengths (entry_size_ q) [c] ->
  trailer_discipline q ->
  run_call c q = Ret (ok, q') ->
  ring_wf q' /\ entry_size_ q' = entry_size_ q /\ trailer_discipline q'.
Proof.
  intros Hk Hwf (HmN & Hht & Htk & Hb) Hvalid Hdisc Hrun.
  pose proof Hwf as [HN0 Hes Hsz Hfit]. unfold buffer_size_ in *.
  apply Forall_cons in Hvalid as [Hvalid _].
  destruct c as [data len|fuel cap]; simpl in Hrun.
  - destruct Hvalid as (Hlen & Hnz & Hdata). destruct ok.
    + apply try_enqueue_inv_true in Hrun as (Hlt & b1 & b2 & H1 & H2 & ->).
      rewrite slot_of_eq in H1, H2 by done.
      set (kt := tail_ q mod max_entries_ q) in *.
      assert (Hkt : 0 <= kt < max_entries_ q) by (by apply Z.mod_pos_bound).
      assert (Hsz2 : Mem.size b2 = Mem.size (buffer_ q)).
      { rewrite (size_store_u16 _ _ _ _ H2). apply (size_memcpy _ _ _ _ _ H1). }
      split; [|split; [done|]].
      { destruct Hwf. constructor; unfold buffer_size_; simpl; congruence. }
      intros j Hj. simpl in Hj. unfold trailer_at, trailer_of in *. simpl.
      destruct (Z.eq_dec j kt) as [->|Hne].
      * exists (to_uint16 len). split.
        -- rewrite (load_u16_store_u16 _ _ _ _ H2). f_equal. apply to_uint16_idem.
        -- split; [|done]. intros _. exists (tail_ q). simpl.
           rewrite wrap64_small by lia. split; [lia|done].
      * destruct (Hdisc j Hj) as (v & Hv & Hiff). exists v. split.
        -- pose proof (slots_apart (entry_size_ q) j kt Hes Hne).
           rewrite (load_u16_store_u16_other _ _ _ _ _ H2) by lia.
           rewrite (load_u16_memcpy_other _ _ _ _ _ _ H1) by lia.
           exact Hv.
        -- rewrite Hiff. unfold occupied. simpl. rewrite wrap64_small by lia.
           split; intros (i & Hi & Him).
           ++ exists i. split; [lia|done].
           ++ exists i. split; [|done].
              assert (i <> tail_ q) by (intros ->; by apply Hne). lia.
    + apply try_enqueue_inv_false in Hrun as [_ ->]. done.
  - bind_inv Hrun. destruct r as [[ok' out] q1]. injection Hrun as -> ->.
    destruct ok.
    + apply try_dequeue_id_inv_true in Hr
        as (Hlt & _ & slot_len & b & _ & _ & _ & _ & Hst & ->).
      rewrite slot_of_eq in Hst by done.
      set (kh := head_ q mod max_entries_ q) in *.
      assert (Hkh : 0 <= kh < max_entries_ q) by (by apply Z.mod_pos_bound).
      split; [|split; [done|]].
      { destruct Hwf. constructor; unfold buffer_size_; simpl; try done;
          rewrite (size_store_u16 _ _ _ _ Hst); done. }
      intros j Hj. simpl in Hj. unfold trailer_at, trailer_of in *. simpl.
      destruct (Z.eq_dec j kh) as [->|Hne].
      * exists 0. split; [apply (load_u16_store_u16 _ _ _ _ Hst)|].
        split; [done|]. intros (i & Hi & Him). exfalso. simpl in Hi, Him.
        rewrite wrap64_small in Hi by lia.
        apply (mod_distinct_within (max_entries_ q) (head_ q) i); [done|lia|done].
      * destruct (Hdisc j Hj) as (v & Hv & Hiff). exists v. split.
        -- pose proof (slots_apart (entry_size_ q) j kh Hes Hne).
           rewrite (load_u16_store_u16_other _ _ _ _ _ Hst) by lia.
           exact Hv.
        -- rewrite Hiff. unfold occupied. simpl. rewrite wrap64_small by lia.
           split; intros (i & Hi & Him).
           ++ exists i. split; [|done].
              assert (i <> head_ q) by (intros ->; by apply Hne). lia.
           ++ exists i. split; [lia|done].
    + apply try_dequeue_false_inv in Hr as (_ & _ & ->). done.
Qed.

Lemma run_calls_trailer_discipline N cs : forall k q q',
  0 <= N -> k + Z.of_nat (length cs) < 2 ^ 64 ->
  ring_wf q -> counters_ok N k q ->
  valid_lengths (entry_size_ q) cs ->
  trailer_discipline q ->
  run_calls cs q = Ret q' ->
  trailer_discipline q'.
Proof.
  induction cs as [|c cs IH]; intros k q q' HN Hk Hwf Hok Hvalid Hdisc Hrun;
    simpl in *.
  - by injection Hrun as <-.
  - bind_inv Hrun. destruct r as [ok q1].
    apply Forall_cons in Hvalid as [Hc Hcs].
    destruct (run_call_counters N k c q ok q1) as (Hok1 & _ & _); [lia|lia|done|done|].
    destruct (run_call_trailer_discipline N k c q ok q1)
      as (Hwf1 & Hes1 & Hdisc1); [lia|done|done|by constructor|done|done|].
    apply (IH (k + 1) q1 q'); try done; [lia|by rewrite Hes1].
Qed.

Lemma trailer_discipline_new entry_size N :
  0 < N -> 2 <= entry_size -> entry_size * N < 2 ^ 64 ->
  ring_wf (new entry_size N) /\ trailer_discipline (new entry_size N).
Proof.
  intros HN Hes Hfit.
  assert (Hsz : wrap64 (entry_size * N) = entry_size * N) by (apply wrap64_small; nia).
  split.
  - constructor; unfold buffer_size_; simpl; rewrite ?Hsz; done.
  - intros k Hk. simpl in Hk. exists 0. split.
    + unfold trailer_at, trailer_of, Mem.load_u16, new. simpl.
      assert (Mem.in_bounds (Mem.zeros (wrap64 (entry_size * N)))
                (k * entry_size + entry_size - 2) 2 = true) as ->.
      { apply in_bounds_spec. simpl. rewrite Hsz. nia. }
      reflexivity.
    + split; [done|]. intros (i & Hi & _). simpl in Hi. lia.
Qed.

(** X13. In every state a fresh queue reaches by calls whose enqueued
    lengths fit, a slot's trailer is nonzero exactly when the slot holds a
    record not yet dequeued; when the queue is empty every trailer is zero. *)
Lemma trailer_discipline_valid_lengths entry_size N cs q :
  0 < N -> 2 <= entry_size -> entry_size * N < 2 ^ 64 ->
  Z.of_nat (length cs) < 2 ^ 64 ->
  valid_lengths entry_size cs ->
  run_calls cs (new entry_size N) = Ret q ->
  trailer_discipline q /\
  (head_ q = tail_ q ->
   forall k, 0 <= k < max_entries_ q -> trailer_at q k = Ret 0).
Proof.
  intros HN Hes Hfit Hlen Hvalid Hrun.
  destruct (trailer_discipline_new entry_size N HN Hes Hfit) as [Hwf0 Hd0].
  assert (Hd : trailer_discipline q).
  { apply (run_calls_trailer_discipline N cs 0 (new entry_size N) q).
    - lia.
    - lia.
    - exact Hwf0.
    - apply counters_ok_new. lia.
    - exact Hvalid.
    - exact Hd0.
    - exact Hrun. }
  split; [done|].
  intros Hempty k Hk. destruct (Hd k Hk) as (v & Hv & Hiff).
  destruct (Z.eq_dec v 0) as [->|Hnz]; [done|].
  apply Hiff in Hnz as (i & Hi & _). lia.
Qed.

End TrailerDiscipline.

Lemma trailer_discipline_valid_lengths_witness :
  let q := ret_or (LockFreeRingBuffer.new 256 2)
             (run_calls [Enqueue [97; 10] 2; Dequeue 1 256]
                (LockFreeRingBuffer.new 256 2)) in
  trailer_discipline q /\
  (LockFreeRingBuffer.head_ q = LockFreeRingBuffer.tail_ q ->
   forall k, 0 <= k < LockFreeRingBuffer.max_entries_ q -> trailer_at q k = Ret 0).
Proof.
  intros q.
  apply (trailer_discipline_valid_lengths 256 2 [Enqueue [97; 10] 2; Dequeue 1 256] q).
  - lia.
  - lia.
  - lia.
  - simpl. lia.
  - apply List.Forall_cons; [|apply List.Forall_cons; [exact I|apply List.Forall_nil]].
    split; [lia|]. split; [vm_compute; discriminate|simpl; lia].
  - vm_compute. reflexivity.
Defined.

(** ** A record goes through the queue unchanged when its length fits *)

Section RoundTrip.

Import LockFreeRingBuffer.
Implicit Types (q : LockFreeRingBuffer.t).

Lemma map_load_range m (l : list Z) : forall off,
  (forall k : nat, (k < length l)%nat ->
     Mem.load m (off + Z.of_nat k) = default 0 (l !! k)) ->
  map (Mem.load m) (Mem.range off (length l)) = l.
Proof.
  induction l as [|x l IH]; intros off H; simpl; [done|]. f_equal.
  - specialize (H O). simpl in H. rewrite Z.add_0_r in H. apply H. lia.
  - apply IH. intros k Hk. specialize (H (S k)). simpl in H.
    replace (off + 1 + Z.of_nat k) with (off + Z.of_nat (S k)) by lia.
    apply H. lia.
Qed.

Lemma enqueue_dequeue_roundtrip q data len fuel cap :
  ring_wf q -> 0 <= head_ q -> head_ q = tail_ q -> tail_ q + 1 < 2 ^ 64 ->
  entry_size_ q - 2 < 2 ^ 16 ->
  1 <= len <= entry_size_ q - 2 -> len <= Z.of_nat (length data) -> len <= cap ->
  exists q1 q2,
    try_enqueue q data len = Ret (true, q1) /\
    try_dequeue id (S fuel) cap q1 = Ret (true, take (Z.to_nat len) data, q2) /\
    head_ q2 = tail_ q2.
Proof.
  intros Hwf Hh Hempty Ht Hes16 Hlen Hdata Hcap.
  pose proof Hwf as [HN Hes Hsz Hfit]. unfold buffer_size_ in *.
  destruct (slot_of_bounds q (tail_ q) Hwf) as [Hs0 Hs1]. unfold buffer_size_ in *.
  destruct (try_enqueue_cases q data len) as [[Hfull _]|[_ Henq]].
  { rewrite <- Hempty, Z.sub_diag, wrap64_small in Hfull by lia. lia. }
  destruct (publish_returns (with_tail q (wrap64 (tail_ q + 1))) (tail_ q) data len)
    as [q1 Hpub]; [by destruct Hwf; constructor|simpl; lia|lia|].
  rewrite Hpub in Henq. simpl in Henq.
  exists q1. pose proof Henq as Henq'.
  apply try_enqueue_inv_true in Henq' as (_ & b1 & b2 & H1 & H2 & ->).
  set (slot := slot_of q (tail_ q)) in *.
  rewrite try_dequeue_nonempty; simpl; [|rewrite wrap64_small; lia|lia].
  rewrite Hempty.
  change (slot_of (with_buffer (with_tail q (wrap64 (tail_ q + 1))) b2) (tail_ q))
    with slot.
  change (trailer_of (with_buffer (with_tail q (wrap64 (tail_ q + 1))) b2) slot)
    with (trailer_of q slot).
  rewrite (load_u16_store_u16 _ _ _ _ H2), to_uint16_idem, to_uint16_small by lia.
  simpl.
  assert ((len =? 0) = false) as -> by (apply Z.eqb_neq; lia).
  cbn [bind buffer_ with_buffer].
  assert ((cap <? len) = false) as -> by (apply Z.ltb_ge; lia).
  assert (Hsz2 : Mem.size b2 = Mem.size (buffer_ q)).
  { rewrite (size_store_u16 _ _ _ _ H2). apply (size_memcpy _ _ _ _ _ H1). }
  unfold Mem.read.
  assert (Mem.in_bounds b2 slot len = true) as ->
    by (apply in_bounds_spec; rewrite Hsz2; lia).
  simpl.
  rewrite store_u16_Ret by (unfold trailer_of; rewrite ?Hsz2; lia).
  cbn [bind].
  assert (Hbytes : map (Mem.load b2) (Mem.range slot (Z.to_nat len))
                   = take (Z.to_nat len) data).
  { rewrite <- (length_take_le data (Z.to_nat len)) at 1 by lia.
    apply map_load_range. intros k Hk. rewrite length_take in Hk.
    rewrite (load_store_u16_other _ _ _ _ _ H2) by (unfold trailer_of; lia).
    rewrite (load_memcpy_inside _ _ _ _ _ _ H1) by lia.
    by rewrite lookup_take_lt by lia. }
  rewrite Hbytes. eexists. split; [exact Henq|]. split; reflexivity.
Qed.

End RoundTrip.

(** ** Truncation and the trailer *)

(** [try_add] caps the copy at [entry_size_ - 2] bytes but stores the
    uncapped length in the trailer. *)
Lemma try_add_trailer_uncapped (b b' : ThreadLocalBatch.t) (data : list Z) (len : Z) :
  ThreadLocalBatch.try_add b data len = Ret (true, b') ->
  Mem.load_u16 (ThreadLocalBatch.batch_ b')
    (ThreadLocalBatch.count_ b * ThreadLocalBatch.entry_size_ b
     + ThreadLocalBatch.entry_size_ b - 2)
  = Ret (to_uint16 len).
Proof.
  unfold ThreadLocalBatch.try_add.
  destruct (ThreadLocalBatch.count_ b >=? ThreadLocalBatch.BATCH_SIZE); [discriminate|].
  intros H. bind_inv H. bind_inv H. injection H as <-. simpl.
  rewrite (load_u16_store_u16 _ _ _ _ Hr0). f_equal. apply to_uint16_idem.
Qed.

(** C2, on the code. An asynchronous logger is given one record whose
    rendered line has 255 bytes. The batch trailer holds 255, not 254; after
    [flush] the sink has received one run of 255 bytes: the first 254 bytes
    of the line followed by the byte 255, the low byte of the trailer, where
    the line has its newline. For a line of 400 bytes the trailer holds 400
    and the worker's copy into its 256-byte [entry] is out of bounds. *)
Theorem truncation_law_fails_at_255_bytes :
  let line := Logger.render INFO 0 (repeat 97 248) in
  let st := ret_or (Logger.fresh_thread, Logger.new capture_sink true)
              (Logger.info (fun _ => 1%nat) TRACE 10 0 (repeat 97 248)
                 Logger.fresh_thread (Logger.new capture_sink true)) in
  let st' := ret_or st (Logger.flush (fun _ => 1%nat) 10 (fst st) (snd st)) in
  let st400 := ret_or (Logger.fresh_thread, Logger.new capture_sink true)
                 (Logger.info (fun _ => 1%nat) TRACE 10 0 (repeat 97 393)
                    Logger.fresh_thread (Logger.new capture_sink true)) in
  length line = 255%nat /\
  Mem.load_u16 (ThreadLocalBatch.batch_ (Logger.batch_ (fst st))) 254 = Ret 255 /\
  Logger.flush (fun _ => 1%nat) 10 (fst st) (snd st) = Ret st' /\
  captured (Logger.sink_ (snd st')) = [take 254 line ++ [255]] /\
  nth 254 line 0 = 10 /\
  length (Logger.render INFO 0 (repeat 97 393)) = 400%nat /\
  Mem.load_u16 (ThreadLocalBatch.batch_ (Logger.batch_ (fst st400))) 254 = Ret 400 /\
  Logger.flush (fun _ => 1%nat) 10 (fst st400) (snd st400) = Fault.
Proof.
  intros line st st' st400.
  split; [vm_compute; reflexivity|].
  split; [vm_compute; reflexivity|].
  split; [vm_compute; reflexivity|].
  split; [vm_compute; reflexivity|].
  split; [vm_compute; reflexivity|].
  split; [vm_compute; reflexivity|].
  split; vm_compute; reflexivity.
Qed.

(** C6, on the code. [try_enqueue] accepts a length of 0: the call returns
    true and index 0 is reserved and written, so slot 0 holds a record not
    yet consumed, yet its trailer reads 0, the value that means unpublished:
    the discipline fails in a reachable state. The consumer then spins on
    that slot whatever the fuel. The logger reaches this through a record
    whose rendered line has 65536 bytes, a length whose low 16 bits are 0:
    [flush] is still waiting when its fuel is gone. *)
Theorem zero_length_record_breaks_trailer_discipline :
  let q1 := ret_or (LockFreeRingBuffer.new 256 4)
              (run_calls [Enqueue [] 0] (LockFreeRingBuffer.new 256 4)) in
  let st := ret_or (Logger.fresh_thread, Logger.new capture_sink true)
              (Logger.info (fun _ => 1%nat) TRACE 10 0 (repeat 97 (Z.to_nat 65529))
                 Logger.fresh_thread (Logger.new capture_sink true)) in
  LockFreeRingBuffer.try_enqueue (LockFreeRingBuffer.new 256 4) [] 0 = Ret (true, q1) /\
  LockFreeRingBuffer.head_ q1 = 0 /\ LockFreeRingBuffer.tail_ q1 = 1 /\
  occupied q1 0 /\
  trailer_at q1 0 = Ret 0 /\
  ~ trailer_discipline q1 /\
  (forall fuel cap, LockFreeRingBuffer.try_dequeue id fuel cap q1 = OutOfFuel) /\
  Z.of_nat (length (Logger.render INFO 0 (repeat 97 (Z.to_nat 65529)))) = 65536 /\
  Mem.load_u16 (ThreadLocalBatch.batch_ (Logger.batch_ (fst st))) 254 = Ret 0 /\
  Logger.flush (fun _ => 1%nat) 50 (fst st) (snd st) = OutOfFuel.
Proof.
  intros q1 st.
  assert (Hocc : occupied q1 0) by (exists 0; split; [vm_compute; split; congruence|done]).
  assert (Htr : trailer_at q1 0 = Ret 0) by (vm_compute; reflexivity).
  split; [vm_compute; reflexivity|].
  split; [reflexivity|]. split; [reflexivity|].
  split; [exact Hocc|]. split; [exact Htr|].
  split.
  { intros Hd. destruct (Hd 0) as (v & Hv & Hiff); [vm_compute; split; congruence|].
    rewrite Htr in Hv. injection Hv as <-. by apply Hiff. }
  split.
  - intros fuel cap. apply try_dequeue_unpublished.
    repeat split; vm_compute; first [reflexivity | discriminate].
  - split; [vm_compute; reflexivity|].
    split; vm_compute; reflexivity.
Qed.

(** ** A line that fits is delivered as rendered

    The positive side of the truncation law: through a fresh asynchronous
    logger, a record whose rendered line has at most 254 bytes reaches the
    sink as exactly that line once [flush] returns, and [flush] does return
    when the worker is scheduled during its first yield. *)

Section ShortRecord.

Variable sched : nat -> nat.

Lemma length_range n : forall off, length (Mem.range off n) = n.
Proof. induction n as [|n IH]; intros off; simpl; [done|]. by rewrite IH. Qed.

Lemma take_map_range {A} (f : Z -> A) n : forall off m,
  (n <= m)%nat -> take n (map f (Mem.range off m)) = map f (Mem.range off n).
Proof.
  induction n as [|n IH]; intros off m Hle; [done|].
  destruct m as [|m]; [lia|]. simpl. f_equal. apply IH. lia.
Qed.

Lemma render_length L ns payload :
  1 <= Z.of_nat (length (Logger.render L ns payload)).
Proof. unfold Logger.render. rewrite !length_app. simpl. lia. Qed.

Lemma worker_iterations_empty {S : Type} {SinkS : Sink S} n (lg : Logger.t S) q :
  Logger.queue_ lg = Some q ->
  LockFreeRingBuffer.head_ q >= LockFreeRingBuffer.tail_ q ->
  Logger.worker_iterations n lg = Ret lg.
Proof.
  intros Hq Hempty. induction n as [|n IH]; simpl; [done|].
  unfold Logger.worker_iteration. rewrite Hq, try_dequeue_empty by done.
  simpl. exact IH.
Qed.

(** [try_add] on an empty batch, for a line that fits *)
Lemma try_add_new_short (line : list Z) :
  Z.of_nat (length line) <= 254 ->
  exists m,
    ThreadLocalBatch.try_add ThreadLocalBatch.new line (Z.of_nat (length line))
    = Ret (true, {| ThreadLocalBatch.batch_ := m; ThreadLocalBatch.count_ := 1;
                    ThreadLocalBatch.entry_size_ := 256 |}) /\
    Mem.size m = 8192 /\
    Mem.load_u16 m 254 = Ret (Z.of_nat (length line)) /\
    take (length line) (Mem.tail_from m 0) = line.
Proof.
  intros Hlen. unfold ThreadLocalBatch.try_add, ThreadLocalBatch.new.
  cbn [ThreadLocalBatch.count_ ThreadLocalBatch.entry_size_ ThreadLocalBatch.batch_].
  change (0 >=? ThreadLocalBatch.BATCH_SIZE) with false. cbv iota.
  change ThreadLocalBatch.ENTRY_SIZE with 256.
  change ThreadLocalBatch.BATCH_SIZE with 32.
  change (0 * 256) with 0. change (256 - 2) with 254. change (0 + 256 - 2) with 254.
  rewrite Z.min_l by lia.
  destruct (Mem.memcpy (Mem.zeros (256 * 32)) 0 line (Z.of_nat (length line)))
    as [m1| |] eqn:H1;
    try (rewrite memcpy_Ret in H1 by (cbn [Mem.size Mem.zeros]; lia); discriminate).
  cbn [bind].
  destruct (Mem.store_u16 m1 254 (to_uint16 (Z.of_nat (length line))))
    as [m2| |] eqn:H2;
    try (rewrite store_u16_Ret in H2
           by (rewrite ?(size_memcpy _ _ _ _ _ H1); cbn [Mem.size Mem.zeros]; lia);
         discriminate).
  cbn [bind]. exists m2. split; [reflexivity|].
  assert (Hsz : Mem.size m2 = 8192).
  { rewrite (size_store_u16 _ _ _ _ H2), (size_memcpy _ _ _ _ _ H1). reflexivity. }
  split; [exact Hsz|]. split.
  - rewrite (load_u16_store_u16 _ _ _ _ H2), to_uint16_idem, to_uint16_small; [done|lia].
  - unfold Mem.tail_from. rewrite Hsz, take_map_range by lia.
    apply map_load_range. intros k Hk.
    rewrite (load_store_u16_other _ _ _ _ _ H2) by lia.
    apply (load_memcpy_inside _ _ _ _ _ _ H1). lia.
Qed.

Lemma wait_empty_empty {S : Type} {SinkS : Sink S} fuel (lg : Logger.t S) q :
  Logger.queue_ lg = Some q -> LockFreeRingBuffer.empty q = true ->
  Logger.wait_empty sched fuel lg = Ret lg.
Proof. intros Hq He. destruct fuel; simpl; by rewrite Hq, He. Qed.

Lemma short_record_delivered fuel ns payload :
  let line := Logger.render INFO ns payload in
  Z.of_nat (length line) <= 254 -> (1 <= sched 0)%nat ->
  exists tl1 lg1 tl2 lg2,
    Logger.info sched TRACE fuel ns payload
      Logger.fresh_thread (Logger.new capture_sink true) = Ret (tl1, lg1) /\
    Logger.flush sched (S fuel) tl1 lg1 = Ret (tl2, lg2) /\
    captured (Logger.sink_ lg2) = [line] /\
    ThreadLocalBatch.size (Logger.batch_ tl2) = 0 /\
    option_map LockFreeRingBuffer.size (Logger.queue_ lg2) = Some 0.
Proof.
  intros line Hlen Hsched.
  destruct (try_add_new_short line Hlen) as (m & Hadd & Hsz & Htr & Htake).
  pose proof (render_length INFO ns payload) as Hpos. fold line in Hpos.
  set (q0 := LockFreeRingBuffer.new 256 65536).
  assert (Hwf : ring_wf q0)
    by (constructor; vm_compute; first [reflexivity | discriminate]).
  assert (Hdata : Z.of_nat (length (Mem.tail_from m 0)) = 8192).
  { unfold Mem.tail_from. rewrite length_map, length_range, Hsz, Z2Nat.id; lia. }
  destruct (enqueue_dequeue_roundtrip q0 (Mem.tail_from m 0)
              (Z.of_nat (length line)) O 256 Hwf)
    as (q1 & q2 & Henq & Hdeq & Hq2); try (simpl; lia).
  rewrite Nat2Z.id, Htake in Hdeq.
  eexists _, _, _, _. split.
  { unfold Logger.info, Logger.log.
    change (level_to_int INFO >=? level_to_int TRACE) with true. cbv iota.
    fold line. cbn [Logger.queue_ Logger.new Logger.batch_ Logger.fresh_thread].
    rewrite Hadd. cbn [bind]. reflexivity. }
  split.
  { unfold Logger.flush, Logger.flush_batch.
    cbn [Logger.batch_ ThreadLocalBatch.size ThreadLocalBatch.count_
         ThreadLocalBatch.clear ThreadLocalBatch.batch_ ThreadLocalBatch.entry_size_].
    change (1 >? 0) with true. change (0 >? 0) with false. cbv iota.
    change (Z.to_nat 1) with 1%nat.
    cbn [Logger.flush_entries]. unfold ThreadLocalBatch.index.
    cbn [ThreadLocalBatch.batch_ ThreadLocalBatch.entry_size_ Logger.format_buf_].
    change (0 * 256) with 0. change (0 + 254) with 254.
    rewrite Htr. cbn [bind Logger.enqueue_with_backoff Logger.queue_ Logger.new].
    fold q0. rewrite Henq. cbn [bind].
    cbn [Logger.worker_ Logger.with_queue Logger.new].
    cbn [Logger.wait_empty Logger.queue_ Logger.with_queue].
    apply try_enqueue_true_facts in Henq as (_ & _ & _ & Hne).
    unfold LockFreeRingBuffer.empty.
    assert ((LockFreeRingBuffer.size q1 =? 0) = false) as ->
      by (apply Z.eqb_neq, Hne; simpl; lia).
    unfold Logger.suspend.
    cbn [Logger.worker_ Logger.running_ Logger.clock_ Logger.with_queue Logger.new].
    destruct (sched 0) as [|k]; [lia|].
    cbn [Logger.worker_iterations]. unfold Logger.worker_iteration at 1.
    cbn [Logger.queue_ Logger.tick Logger.emit Logger.with_queue].
    rewrite Hdeq. cbn [bind].
    rewrite (worker_iterations_empty k _ q2) by (first [reflexivity | lia]).
    cbn [bind].
    rewrite (wait_empty_empty fuel _ q2);
      [|reflexivity
       |unfold LockFreeRingBuffer.empty, LockFreeRingBuffer.size;
        rewrite Hq2, Z.sub_diag; reflexivity].
    cbn [bind]. reflexivity. }
  split; [reflexivity|]. split; [reflexivity|].
  cbn [Logger.queue_ Logger.with_sink Logger.with_queue option_map].
  unfold LockFreeRingBuffer.size. rewrite Hq2, Z.sub_diag. reflexivity.
Qed.

End ShortRecord.

(** ** The queue as a bounded FIFO of records *)

Section FifoFacts.

Import LockFreeRingBuffer.
Implicit Types (q : LockFreeRingBuffer.t) (pend : list (list Z)).

Lemma range_bounds n : forall off a, In a (Mem.range off n) -> off <= a < off + Z.of_nat n.
Proof.
  induction n as [|n IH]; intros off a Ha; simpl in Ha; [done|].
  destruct Ha as [<-|Ha]; [lia|]. apply IH in Ha. lia.
Qed.

Lemma read_frame m m' off len :
  Mem.size m' = Mem.size m ->
  (forall a, off <= a < off + len -> Mem.load m' a = Mem.load m a) ->
  Mem.read m' off len = Mem.read m off len.
Proof.
  intros Hsz Hld. unfold Mem.read, Mem.in_bounds. rewrite Hsz.
  destruct ((0 <=? off) && (0 <=? len) && (off + len <=? Mem.size m)) eqn:Hb; [|done].
  f_equal. apply map_ext_in. intros a Ha%range_bounds. apply Hld.
  apply andb_true_iff in Hb as [Hb _]. apply andb_true_iff in Hb as [_ Hb].
  apply Z.leb_le in Hb. lia.
Qed.

Lemma load_u16_frame m m' off :
  Mem.size m' = Mem.size m ->
  (forall a, off <= a < off + 2 -> Mem.load m' a = Mem.load m a) ->
  Mem.load_u16 m' off = Mem.load_u16 m off.
Proof.
  intros Hsz Hld. unfold Mem.load_u16, Mem.in_bounds. rewrite Hsz.
  rewrite !Hld by lia. reflexivity.
Qed.

(** a slot keeps what it holds when its own bytes keep their values *)
Lemma slot_holds_frame q q' i r :
  entry_size_ q' = entry_size_ q -> max_entries_ q' = max_entries_ q ->
  Mem.size (buffer_ q') = Mem.size (buffer_ q) ->
  Z.of_nat (length r) <= entry_size_ q - 2 ->
  (forall a, slot_of q i <= a < slot_of q i + entry_size_ q ->
     Mem.load (buffer_ q') a = Mem.load (buffer_ q) a) ->
  slot_holds q i r -> slot_holds q' i r.
Proof.
  intros Hes HN Hsz Hr Hld [Htr Hrd]. unfold slot_holds, trailer_of, slot_of in *.
  rewrite Hes, HN. split.
  - rewrite <- Htr. apply load_u16_frame; [done|]. intros a Ha. apply Hld. lia.
  - rewrite <- Hrd. apply read_frame; [done|]. intros a Ha. apply Hld. lia.
Qed.

Lemma slot_regions_apart q i i' :
  ring_wf q -> i mod max_entries_ q <> i' mod max_entries_ q ->
  slot_of q i + entry_size_ q <= slot_of q i' \/
  slot_of q i' + entry_size_ q <= slot_of q i.
Proof.
  intros Hwf Hne. rewrite !slot_of_eq by done. destruct Hwf as [_ Hes _ _].
  by apply slots_apart.
Qed.

Lemma ring_holds_mono k k' q pend : k <= k' -> ring_holds k q pend -> ring_holds k' q pend.
Proof. intros Hk [? ? ? ? ? ? ?]. constructor; try done. lia. Qed.

Lemma ring_holds_new entry_size N :
  0 < N -> 2 <= entry_size -> entry_size - 2 < 2 ^ 16 -> entry_size * N < 2 ^ 64 ->
  ring_holds 0 (new entry_size N) [].
Proof.
  intros HN Hes H16 Hfit.
  destruct (trailer_discipline_new entry_size N HN Hes Hfit) as [Hwf _].
  constructor; simpl; try done; lia.
Qed.

Lemma ring_holds_size k q pend :
  ring_holds k q pend -> k < 2 ^ 64 -> size q = Z.of_nat (length pend).
Proof.
  intros [? ? ? Ht ? ? _] Hk. unfold size. rewrite Ht.
  replace (head_ q + Z.of_nat (length pend) - head_ q) with (Z.of_nat (length pend)) by lia.
  apply wrap64_small. lia.
Qed.

(** [try_enqueue] on a queue that holds [pend] *)
Lemma try_enqueue_holds k q pend data len :
  ring_holds k q pend -> k + 1 < 2 ^ 64 ->
  1 <= len <= entry_size_ q - 2 -> len <= Z.of_nat (length data) ->
  if Z.of_nat (length pend) <? max_entries_ q
  then exists q', try_enqueue q data len = Ret (true, q') /\
                  ring_holds (k + 1) q' (pend ++ [take (Z.to_nat len) data])
  else try_enqueue q data len = Ret (false, q).
Proof.
  intros Hh Hk Hlen Hdata. pose proof Hh as [Hwf H16 Hhd Htl Hbd Hroom Hslots].
  pose proof Hwf as [HN Hes Hsz Hfit]. unfold buffer_size_ in *.
  assert (Hsize : wrap64 (tail_ q - head_ q) = Z.of_nat (length pend)).
  { rewrite Htl. replace (head_ q + Z.of_nat (length pend) - head_ q)
      with (Z.of_nat (length pend)) by lia. apply wrap64_small. lia. }
  destruct (Z.of_nat (length pend) <? max_entries_ q) eqn:Hfull.
  - apply Z.ltb_lt in Hfull.
    destruct (slot_of_bounds q (tail_ q) Hwf) as [Hs0 Hs1]. unfold buffer_size_ in *.
    destruct (try_enqueue_cases q data len) as [[Hge _]|[_ Henq]]; [lia|].
    destruct (publish_returns (with_tail q (wrap64 (tail_ q + 1))) (tail_ q) data len)
      as [q1 Hpub]; [by destruct Hwf; constructor|simpl; lia|lia|].
    rewrite Hpub in Henq. simpl in Henq. exists q1. split; [exact Henq|].
    apply try_enqueue_inv_true in Henq as (_ & b1 & b2 & H1 & H2 & ->).
    set (slot := slot_of q (tail_ q)) in *.
    assert (Hsz2 : Mem.size b2 = Mem.size (buffer_ q)).
    { rewrite (size_store_u16 _ _ _ _ H2). apply (size_memcpy _ _ _ _ _ H1). }
    assert (Hout : forall a, a < slot \/ slot + entry_size_ q <= a ->
                     Mem.load b2 a = Mem.load (buffer_ q) a).
    { intros a Ha.
      rewrite (load_store_u16_other _ _ _ _ _ H2) by (unfold trailer_of; lia).
      apply (load_memcpy_other _ _ _ _ _ _ H1). lia. }
    constructor; simpl.
    + destruct Hwf. constructor; unfold buffer_size_; simpl; congruence.
    + done.
    + done.
    + rewrite wrap64_small, length_app by lia. simpl. lia.
    + rewrite wrap64_small by lia. lia.
    + rewrite length_app. simpl. lia.
    + intros j r Hj. destruct (decide (j < length pend)%nat) as [Hlt|Hge].
      * rewrite lookup_app_l in Hj by done.
        destruct (Hslots j r Hj) as [Hr Hsl]. split; [done|].
        apply (slot_holds_frame q); simpl; try done; [lia|].
        intros a Ha. apply Hout.
        destruct (slot_regions_apart q (head_ q + Z.of_nat j) (tail_ q) Hwf) as [?|?];
          [|subst slot; lia..].
        intros Heq. symmetry in Heq. revert Heq.
        apply mod_distinct_within; lia.
      * rewrite lookup_app_r in Hj by lia.
        destruct (j - length pend)%nat as [|n] eqn:Hjn; [|by destruct n].
        injection Hj as <-.
        assert (Hlt : length (take (Z.to_nat len) data) = Z.to_nat len)
          by (apply length_take_le; lia).
        split; [rewrite Hlt; lia|].
        replace (head_ q + Z.of_nat j) with (tail_ q) by lia.
        unfold slot_holds. simpl.
        change (slot_of (with_buffer (with_tail q (wrap64 (tail_ q + 1))) b2) (tail_ q))
          with slot.
        change (trailer_of (with_buffer (with_tail q (wrap64 (tail_ q + 1))) b2) slot)
          with (trailer_of q slot).
        rewrite Hlt, Z2Nat.id by lia. split.
        -- rewrite (load_u16_store_u16 _ _ _ _ H2), to_uint16_idem, to_uint16_small; [done|lia].
        -- unfold Mem.read.
           assert (Mem.in_bounds b2 slot len = true) as ->
             by (apply in_bounds_spec; rewrite Hsz2; lia).
           f_equal. rewrite <- Hlt at 1.
           apply map_load_range. intros i Hi. rewrite Hlt in Hi.
           rewrite (load_store_u16_other _ _ _ _ _ H2) by (unfold trailer_of; lia).
           rewrite (load_memcpy_inside _ _ _ _ _ _ H1) by lia.
           by rewrite lookup_take_lt by lia.
  - apply Z.ltb_ge in Hfull. apply try_enqueue_full. lia.
Qed.

(** [try_dequeue] on a queue that holds [pend] *)
Lemma try_dequeue_holds k q pend fuel cap :
  ring_holds k q pend -> k < 2 ^ 64 -> entry_size_ q - 2 <= cap ->
  match pend with
  | [] => try_dequeue id fuel cap q = Ret (false, [], q)
  | r :: rest =>
      exists q', try_dequeue id (S fuel) cap q = Ret (true, r, q') /\
                 ring_holds k q' rest
  end.
Proof.
  intros Hh Hk Hcap. pose proof Hh as [Hwf H16 Hhd Htl Hbd Hroom Hslots].
  pose proof Hwf as [HN Hes Hsz Hfit]. unfold buffer_size_ in *.
  destruct pend as [|r rest].
  - apply try_dequeue_empty. simpl in Htl. lia.
  - simpl in Htl, Hroom.
    destruct (Hslots O r eq_refl) as [Hr [Htr Hrd]].
    rewrite Z.add_0_r in Htr, Hrd.
    destruct (slot_of_bounds q (head_ q) Hwf) as [Hs0 Hs1]. unfold buffer_size_ in *.
    set (slot := slot_of q (head_ q)) in *.
    rewrite try_dequeue_nonempty by lia. fold slot.
    cbn [await_trailer]. rewrite Htr. cbn [bind].
    assert ((Z.of_nat (length r) =? 0) = false) as -> by (apply Z.eqb_neq; lia).
    cbn [bind].
    assert ((cap <? Z.of_nat (length r)) = false) as -> by (apply Z.ltb_ge; lia).
    rewrite Hrd. cbn [bind].
    destruct (Mem.store_u16 (buffer_ q) (trailer_of q slot) 0) as [b| |] eqn:Hst;
      try (rewrite store_u16_Ret in Hst by (unfold trailer_of; lia); discriminate).
    cbn [bind]. eexists. split; [reflexivity|].
    assert (Hszb : Mem.size b = Mem.size (buffer_ q)) by apply (size_store_u16 _ _ _ _ Hst).
    constructor; simpl.
    + destruct Hwf. constructor; unfold buffer_size_; simpl; congruence.
    + done.
    + rewrite wrap64_small by lia. lia.
    + rewrite wrap64_small by lia. lia.
    + done.
    + lia.
    + intros j r' Hj. destruct (Hslots (S j) r' Hj) as [Hr' Hsl].
      apply lookup_lt_Some in Hj as Hjlt.
      rewrite wrap64_small by lia. split; [done|].
      replace (head_ q + 1 + Z.of_nat j) with (head_ q + Z.of_nat (S j)) by lia.
      apply (slot_holds_frame q); simpl; try done; [lia|].
      intros a Ha.
      apply (load_store_u16_other _ _ _ _ _ Hst).
      destruct (slot_regions_apart q (head_ q + Z.of_nat (S j)) (head_ q) Hwf) as [?|?];
        [|subst slot; unfold trailer_of; lia..].
      apply mod_distinct_within; lia.
Qed.

End FifoFacts.

Section FifoRuns.

Import LockFreeRingBuffer.
Implicit Types (q : LockFreeRingBuffer.t) (pend : list (list Z)).

Lemma try_enqueue_geometry q data len ok q' :
  try_enqueue q data len = Ret (ok, q') ->
  max_entries_ q' = max_entries_ q /\ entry_size_ q' = entry_size_ q.
Proof.
  destruct ok.
  - by intros (_ & b1 & b2 & _ & _ & ->)%try_enqueue_inv_true.
  - by intros [_ ->]%try_enqueue_inv_false.
Qed.

Lemma try_dequeue_geometry fuel cap q ok out q' :
  try_dequeue id fuel cap q = Ret (ok, out, q') ->
  max_entries_ q' = max_entries_ q /\ entry_size_ q' = entry_size_ q.
Proof.
  destruct ok.
  - by intros (_ & _ & slot_len & b & _ & _ & _ & _ & _ & ->)%try_dequeue_id_inv_true.
  - by intros (_ & _ & ->)%try_dequeue_false_inv.
Qed.

Lemma call_result_holds k c q pend :
  ring_holds k q pend -> k + 1 < 2 ^ 64 ->
  well_formed_calls (entry_size_ q) [c] ->
  exists q',
    call_result c q
    = Ret (fst (fifo_call (max_entries_ q) c pend), q') /\
    ring_holds (k + 1) q' (snd (fifo_call (max_entries_ q) c pend)) /\
    max_entries_ q' = max_entries_ q /\ entry_size_ q' = entry_size_ q.
Proof.
  intros Hh Hk Hc. apply Forall_cons in Hc as [Hc _].
  destruct c as [data len|fuel cap]; simpl in *.
  - destruct Hc as [Hlen Hdata].
    pose proof (try_enqueue_holds k q pend data len Hh Hk Hlen Hdata) as He.
    destruct (Z.of_nat (length pend) <? max_entries_ q).
    + destruct He as (q' & He & Hh'). exists q'. rewrite He. simpl.
      split; [done|]. split; [done|]. by apply try_enqueue_geometry in He.
    + exists q. rewrite He. simpl. split; [done|]. split; [|done].
      apply (ring_holds_mono k); [lia|done].
  - destruct Hc as [Hfuel Hcap]. destruct fuel as [|fuel]; [lia|].
    pose proof (try_dequeue_holds k q pend) as Hd.
    destruct pend as [|r rest].
    + exists q. rewrite (Hd (S fuel) cap) by (done || lia). simpl.
      split; [done|]. split; [|done]. apply (ring_holds_mono k); [lia|done].
    + destruct (Hd fuel cap) as (q' & Hq' & Hh'); [done|lia|done|].
      exists q'. rewrite Hq'. simpl. split; [done|]. split.
      * apply (ring_holds_mono k); [lia|done].
      * by apply try_dequeue_geometry in Hq'.
Qed.

Lemma run_results_holds cs : forall k q pend,
  ring_holds k q pend -> k + Z.of_nat (length cs) < 2 ^ 64 ->
  well_formed_calls (entry_size_ q) cs ->
  exists q',
    run_results cs q
    = Ret (fst (fifo_results (max_entries_ q) cs pend), q') /\
    ring_holds (k + Z.of_nat (length cs)) q'
      (snd (fifo_results (max_entries_ q) cs pend)) /\
    max_entries_ q' = max_entries_ q /\ entry_size_ q' = entry_size_ q.
Proof.
  induction cs as [|c cs IH]; intros k q pend Hh Hk Hcs; simpl in *.
  - exists q. split; [done|]. split; [|done]. apply (ring_holds_mono k); [lia|done].
  - apply Forall_cons in Hcs as [Hc Hcs].
    destruct (call_result_holds k c q pend Hh) as (q1 & Hq1 & Hh1 & HN1 & Hes1);
      [lia|by constructor|].
    destruct (fifo_call (max_entries_ q) c pend) as [[ok out] pend1] eqn:Hf.
    simpl in Hq1, Hh1. rewrite Hq1. cbn [bind].
    destruct (IH (k + 1) q1 pend1 Hh1) as (q2 & Hq2 & Hh2 & HN2 & Hes2);
      [lia|by rewrite Hes1|].
    rewrite HN1 in Hq2, Hh2.
    destruct (fifo_results (max_entries_ q) cs pend1) as [outs pend2] eqn:Hfr.
    simpl in Hq2, Hh2. rewrite Hq2. cbn [bind]. exists q2. split; [done|].
    simpl. replace (k + Z.of_nat (S (length cs))) with (k + 1 + Z.of_nat (length cs)) by lia.
    split; [done|]. split; congruence.
Qed.

End FifoRuns.

(** X1. Used by one thread with lengths in [1, entry_size - 2], a fresh queue
    of [N] slots is a bounded FIFO of byte strings: every call returns, an
    enqueue is accepted exactly when fewer than [N] records are held and
    stores the first [len] bytes of its data, a dequeue hands back the oldest
    record held, or false when none is; [size()] is the number held. *)
Theorem ring_buffer_is_bounded_fifo (entry_size N : Z) (cs : list call) :
  0 < N -> 2 <= entry_size -> entry_size - 2 < 2 ^ 16 -> entry_size * N < 2 ^ 64 ->
  Z.of_nat (length cs) < 2 ^ 64 ->
  well_formed_calls entry_size cs ->
  exists q,
    run_results cs (LockFreeRingBuffer.new entry_size N)
    = Ret (fst (fifo_results N cs []), q) /\
    LockFreeRingBuffer.size q = Z.of_nat (length (snd (fifo_results N cs []))).
Proof.
  intros HN Hes H16 Hfit Hlen Hcs.
  destruct (run_results_holds cs 0 (LockFreeRingBuffer.new entry_size N) [])
    as (q & Hq & Hh & _); [by apply ring_holds_new|lia|done|].
  exists q. split; [exact Hq|].
  apply (ring_holds_size _ _ _ Hh). lia.
Qed.

Lemma ring_buffer_is_bounded_fifo_witness :
  let cs := [Dequeue 1 256; Enqueue [97; 10; 0] 2; Enqueue [98; 10] 2;
             Enqueue [99; 10] 2; Dequeue 1 256; Enqueue [100; 10] 2;
             Dequeue 1 256; Dequeue 1 256; Dequeue 1 256] in
  fst (fifo_results 2 cs [])
  = [(false, []); (true, []); (true, []); (false, []); (true, [97; 10]);
     (true, []); (true, [98; 10]); (true, [100; 10]); (false, [])] /\
  exists q,
    run_results cs (LockFreeRingBuffer.new 256 2)
    = Ret (fst (fifo_results 2 cs []), q) /\
    LockFreeRingBuffer.size q = Z.of_nat (length (snd (fifo_results 2 cs []))).
Proof.
  intros cs. split; [reflexivity|].
  apply (ring_buffer_is_bounded_fifo 256 2 cs); try lia.
  - simpl. lia.
  - repeat constructor; simpl; lia.
Defined.

(** X2. In single-threaded use with lengths that fit, the observers are
    exact: [size()] is the number of records held, [empty()] holds exactly
    when none is held and exactly when [try_dequeue] returns false, [full()]
    holds exactly when [N] are held and exactly when [try_enqueue] returns
    false. *)
Theorem size_empty_full_are_exact
  (entry_size N : Z) (cs : list call) (outs : list (bool * list Z))
  (q : LockFreeRingBuffer.t) :
  0 < N -> 2 <= entry_size -> entry_size - 2 < 2 ^ 16 -> entry_size * N < 2 ^ 64 ->
  Z.of_nat (length cs) < 2 ^ 64 ->
  well_formed_calls entry_size cs ->
  run_results cs (LockFreeRingBuffer.new entry_size N) = Ret (outs, q) ->
  let held := snd (fifo_results N cs []) in
  LockFreeRingBuffer.size q = Z.of_nat (length held) /\
  (LockFreeRingBuffer.empty q = true <-> held = []) /\
  (LockFreeRingBuffer.full q = true <-> Z.of_nat (length held) = N) /\
  (forall fuel cap, (1 <= fuel)%nat -> entry_size - 2 <= cap ->
     (LockFreeRingBuffer.empty q = true <->
      LockFreeRingBuffer.try_dequeue id fuel cap q = Ret (false, [], q))) /\
  (forall data len,
     LockFreeRingBuffer.full q = true <->
     LockFreeRingBuffer.try_enqueue q data len = Ret (false, q)).
Proof.
  intros HN Hes H16 Hfit Hlen Hcs Hrun held.
  destruct (run_results_holds cs 0 (LockFreeRingBuffer.new entry_size N) [])
    as (q' & Hq' & Hh & HNq & Hesq); [by apply ring_holds_new|lia|done|].
  simpl in Hq', Hh, HNq, Hesq. rewrite Hrun in Hq'. injection Hq' as _ <-.
  fold held in Hh.
  assert (Hk : 0 + Z.of_nat (length cs) < 2 ^ 64) by lia.
  pose proof (ring_holds_size _ _ _ Hh Hk) as Hsize.
  pose proof (rh_room _ _ _ Hh) as Hroom. rewrite HNq in Hroom.
  assert (Hempty : LockFreeRingBuffer.empty q = true <-> held = []).
  { unfold LockFreeRingBuffer.empty. rewrite Hsize, Z.eqb_eq.
    destruct held; simpl; split; intros; (done || lia). }
  assert (Hfull : LockFreeRingBuffer.full q = true <-> Z.of_nat (length held) = N).
  { unfold LockFreeRingBuffer.full. rewrite Hsize, HNq, Z.geb_leb, Z.leb_le. lia. }
  split; [done|]. split; [done|]. split; [done|]. split.
  - intros fuel cap Hfuel Hcap. rewrite Hempty.
    pose proof (try_dequeue_holds (0 + Z.of_nat (length cs)) q held) as Hd.
    rewrite Hesq in Hd.
    destruct fuel as [|fuel]; [lia|].
    destruct held as [|r rest].
    + rewrite (Hd (S fuel) cap Hh Hk Hcap). done.
    + destruct (Hd fuel cap Hh Hk Hcap) as (q2 & -> & _). split; discriminate.
  - intros data len. unfold LockFreeRingBuffer.full, LockFreeRingBuffer.size.
    rewrite Z.geb_leb, Z.leb_le.
    destruct (try_enqueue_cases q data len) as [[Hge ->]|[Hlt ->]].
    + split; [done|lia].
    + split; [lia|]. intros H. bind_inv H. discriminate.
Qed.

Lemma size_empty_full_are_exact_witness :
  let cs := [Enqueue [97; 10] 2; Enqueue [98; 10] 2; Dequeue 1 256] in
  let q := snd (ret_or ([], LockFreeRingBuffer.new 256 2)
                  (run_results cs (LockFreeRingBuffer.new 256 2))) in
  LockFreeRingBuffer.size q = 1 /\
  LockFreeRingBuffer.empty q = false /\ LockFreeRingBuffer.full q = false /\
  (LockFreeRingBuffer.full q = true <->
   LockFreeRingBuffer.try_enqueue q [99; 10] 2 = Ret (false, q)).
Proof.
  intros cs q.
  assert (Hrun : run_results cs (LockFreeRingBuffer.new 256 2)
                 = Ret (fst (fifo_results 2 cs []), q)) by (vm_compute; reflexivity).
  split; [vm_compute; reflexivity|]. split; [vm_compute; reflexivity|].
  split; [vm_compute; reflexivity|].
  refine (proj2 (proj2 (proj2 (proj2
            (size_empty_full_are_exact 256 2 cs _ q _ _ _ _ _ _ Hrun)))) [99; 10] 2);
    first [lia | simpl; lia | repeat constructor; simpl; lia].
Defined.

(** ** The batch *)

Section BatchFacts.

Import ThreadLocalBatch.
Implicit Types (b : ThreadLocalBatch.t) (lines : list (list Z)).

Lemma batch_wf_new : batch_wf new.
Proof. constructor; simpl; unfold BATCH_SIZE; (done || lia). Qed.

Lemma try_add_full b data len :
  BATCH_SIZE <= count_ b -> try_add b data len = Ret (false, b).
Proof.
  intros H. unfold try_add.
  assert ((count_ b >=? BATCH_SIZE) = true) as ->
    by (rewrite Z.geb_leb; apply Z.leb_le; lia).
  reflexivity.
Qed.

(** [try_add] with room left, for any length *)
Lemma try_add_room b data len :
  batch_wf b -> count_ b < BATCH_SIZE -> 0 <= len ->
  Z.min len 254 <= Z.of_nat (length data) ->
  let slot := count_ b * 256 in
  exists m,
    try_add b data len
    = Ret (true, {| batch_ := m; count_ := count_ b + 1; entry_size_ := entry_size_ b |}) /\
    Mem.size m = Mem.size (batch_ b) /\
    Mem.load_u16 m (slot + 254) = Ret (to_uint16 len) /\
    Mem.read m slot (Z.min len 254) = Ret (take (Z.to_nat (Z.min len 254)) data) /\
    (forall a, a < slot \/ slot + 256 <= a -> Mem.load m a = Mem.load (batch_ b) a).
Proof.
  intros [Hsz Hes [Hc0 Hc1]] Hroom Hlen Hdata slot.
  unfold ENTRY_SIZE, BATCH_SIZE in *. unfold try_add.
  assert ((count_ b >=? BATCH_SIZE) = false) as ->
    by (rewrite Z.geb_leb; apply Z.leb_gt; unfold BATCH_SIZE; lia).
  rewrite Hes. change (256 - 2) with 254.
  replace (count_ b * 256 + 256 - 2) with (slot + 254) by (unfold slot; lia).
  fold slot.
  assert (Hslot : 0 <= slot /\ slot + 256 <= 8192) by (unfold slot; lia).
  destruct (Mem.memcpy (batch_ b) slot data (Z.min len 254)) as [m1| |] eqn:H1;
    try (rewrite memcpy_Ret in H1 by lia; discriminate).
  cbn [bind].
  assert (Hsz1 : Mem.size m1 = Mem.size (batch_ b)) by apply (size_memcpy _ _ _ _ _ H1).
  destruct (Mem.store_u16 m1 (slot + 254) (to_uint16 len)) as [m2| |] eqn:H2;
    try (rewrite store_u16_Ret in H2 by lia; discriminate).
  cbn [bind]. exists m2. split; [reflexivity|].
  assert (Hsz2 : Mem.size m2 = Mem.size (batch_ b))
    by (rewrite (size_store_u16 _ _ _ _ H2); done).
  split; [done|]. split; [|split].
  - rewrite (load_u16_store_u16 _ _ _ _ H2). f_equal. apply to_uint16_idem.
  - unfold Mem.read.
    assert (Mem.in_bounds m2 slot (Z.min len 254) = true) as ->
      by (apply in_bounds_spec; lia).
    f_equal.
    rewrite <- (length_take_le data (Z.to_nat (Z.min len 254))) at 1 by lia.
    apply map_load_range. intros k Hk. rewrite length_take in Hk.
    rewrite (load_store_u16_other _ _ _ _ _ H2) by lia.
    rewrite (load_memcpy_inside _ _ _ _ _ _ H1) by lia.
    by rewrite lookup_take_lt by lia.
  - intros a Ha.
    rewrite (load_store_u16_other _ _ _ _ _ H2) by lia.
    apply (load_memcpy_other _ _ _ _ _ _ H1). lia.
Qed.

Lemma entry_holds_frame b b' i l :
  entry_size_ b' = entry_size_ b -> entry_size_ b = 256 ->
  Mem.size (batch_ b') = Mem.size (batch_ b) ->
  Z.of_nat (length l) <= 254 ->
  (forall a, i * 256 <= a < i * 256 + 256 ->
     Mem.load (batch_ b') a = Mem.load (batch_ b) a) ->
  entry_holds b i l -> entry_holds b' i l.
Proof.
  intros Hes H256 Hsz Hl Hld [Htr Hrd]. unfold entry_holds, index in *.
  rewrite Hes. rewrite H256 in *. split.
  - rewrite <- Htr. apply load_u16_frame; [done|]. intros a Ha. apply Hld. lia.
  - rewrite <- Hrd. apply read_frame; [done|]. intros a Ha. apply Hld. lia.
Qed.

Lemma batch_holds_new : batch_holds new [].
Proof. constructor; [apply batch_wf_new|done|done]. Qed.

Lemma batch_holds_clear b lines : batch_holds b lines -> batch_holds (clear b) [].
Proof.
  intros [[Hsz Hes Hc] _ _]. constructor; [|done|done].
  constructor; simpl; unfold BATCH_SIZE; (done || lia).
Qed.

(** [try_add] of a line that fits, on a batch that holds [lines] *)
Lemma try_add_holds b lines line :
  batch_holds b lines -> 1 <= Z.of_nat (length line) <= 254 ->
  if Z.of_nat (length lines) <? BATCH_SIZE
  then exists b', try_add b line (Z.of_nat (length line)) = Ret (true, b') /\
                  batch_holds b' (lines ++ [line])
  else try_add b line (Z.of_nat (length line)) = Ret (false, b).
Proof.
  intros [Hwf Hcount Hentries] Hline.
  pose proof Hwf as [Hsz Hes [Hc0 Hc1]].
  destruct (Z.of_nat (length lines) <? BATCH_SIZE) eqn:Hroom.
  - apply Z.ltb_lt in Hroom.
    destruct (try_add_room b line (Z.of_nat (length line)) Hwf)
      as (m & Hadd & Hszm & Htr & Hrd & Hout); [lia|lia|lia|].
    rewrite Z.min_l in Hrd by lia. rewrite Nat2Z.id, firstn_all in Hrd.
    rewrite to_uint16_small in Htr by lia.
    eexists. split; [exact Hadd|].
    unfold ENTRY_SIZE, BATCH_SIZE in *.
    constructor.
    + constructor; simpl; unfold ENTRY_SIZE, BATCH_SIZE; (congruence || lia).
    + simpl. rewrite length_app. simpl. lia.
    + intros i l Hi. destruct (decide (i < length lines)%nat) as [Hlt|Hge].
      * rewrite lookup_app_l in Hi by done.
        destruct (Hentries i l Hi) as [Hl Hh]. split; [done|].
        apply (entry_holds_frame b); simpl; try done; [lia|].
        intros a Ha. apply Hout. nia.
      * rewrite lookup_app_r in Hi by lia.
        destruct (i - length lines)%nat as [|n] eqn:Hin; [|by destruct n].
        injection Hi as <-. split; [done|].
        assert (Hieq : Z.of_nat i = count_ b) by lia.
        unfold entry_holds, index. simpl. rewrite Hes, Hieq. done.
  - apply Z.ltb_ge in Hroom. apply try_add_full. lia.
Qed.

End BatchFacts.

(** X3. [try_add] is memory-safe for every length: with room left it
    returns true, copies the first [min(len, 254)] bytes into the next entry,
    stores [len] as a [uint16_t] in that entry's trailer, and changes no byte
    outside the entry; with 32 entries held it returns false and changes
    nothing. *)
Theorem try_add_stays_in_its_entry
  (b : ThreadLocalBatch.t) (data : list Z) (len : Z) :
  batch_wf b -> 0 <= len -> Z.min len 254 <= Z.of_nat (length data) ->
  (ThreadLocalBatch.count_ b < 32 ->
   exists b',
     ThreadLocalBatch.try_add b data len = Ret (true, b') /\
     batch_wf b' /\
     ThreadLocalBatch.size b' = ThreadLocalBatch.size b + 1 /\
     let entry := ThreadLocalBatch.index b (ThreadLocalBatch.size b) in
     Mem.load_u16 (ThreadLocalBatch.batch_ b') (entry + 254) = Ret (to_uint16 len) /\
     Mem.read (ThreadLocalBatch.batch_ b') entry (Z.min len 254)
     = Ret (take (Z.to_nat (Z.min len 254)) data) /\
     forall a, a < entry \/ entry + 256 <= a ->
       Mem.load (ThreadLocalBatch.batch_ b') a = Mem.load (ThreadLocalBatch.batch_ b) a) /\
  (ThreadLocalBatch.count_ b = 32 ->
   ThreadLocalBatch.try_add b data len = Ret (false, b)).
Proof.
  intros Hwf Hlen Hdata. split.
  - intros Hroom.
    destruct (try_add_room b data len Hwf) as (m & Hadd & Hsz & Htr & Hrd & Hout);
      [unfold ThreadLocalBatch.BATCH_SIZE; lia|done|done|].
    pose proof Hwf as [Hsz0 Hes [Hc0 Hc1]].
    eexists. split; [exact Hadd|]. split.
    + constructor; simpl; unfold ThreadLocalBatch.BATCH_SIZE in *; (congruence || lia).
    + split; [reflexivity|]. unfold ThreadLocalBatch.index, ThreadLocalBatch.size.
      rewrite Hes. simpl. done.
  - intros Hfull. apply try_add_full. unfold ThreadLocalBatch.BATCH_SIZE. lia.
Qed.

Lemma try_add_stays_in_its_entry_witness :
  let data := repeat 97 400 in
  exists b',
    ThreadLocalBatch.try_add ThreadLocalBatch.new data 400 = Ret (true, b') /\
    Mem.load_u16 (ThreadLocalBatch.batch_ b') 254 = Ret 400 /\
    Mem.read (ThreadLocalBatch.batch_ b') 0 254 = Ret (repeat 97 254) /\
    Mem.load (ThreadLocalBatch.batch_ b') 256 = 0.
Proof.
  intros data.
  destruct (proj1 (try_add_stays_in_its_entry ThreadLocalBatch.new data 400
                     batch_wf_new ltac:(lia) ltac:(simpl; lia)))
    as (b' & Hadd & _ & _ & Htr & Hrd & Hout); [simpl; lia|].
  exists b'. split; [exact Hadd|]. split; [exact Htr|]. split; [exact Hrd|].
  apply (Hout 256). right. vm_compute. discriminate.
Defined.

Section BatchRuns.

Import ThreadLocalBatch.

Lemma add_all_holds lines : forall b held,
  batch_holds b held ->
  Forall (fun l => 1 <= Z.of_nat (length l) <= 254) lines ->
  Z.of_nat (length held + length lines) <= BATCH_SIZE ->
  exists b', add_all lines b = Ret (true, b') /\ batch_holds b' (held ++ lines).
Proof.
  induction lines as [|l rest IH]; intros b held Hh Hfit Hroom; simpl.
  - exists b. by rewrite app_nil_r.
  - apply Forall_cons in Hfit as [Hl Hrest]. simpl in Hroom.
    pose proof (try_add_holds b held l Hh Hl) as Hadd.
    assert ((Z.of_nat (length held) <? BATCH_SIZE) = true) as Hlt
      by (apply Z.ltb_lt; lia).
    rewrite Hlt in Hadd. destruct Hadd as (b1 & -> & Hh1). cbn [bind].
    destruct (IH b1 (held ++ [l]) Hh1 Hrest) as (b' & Hb' & Hh');
      [rewrite length_app; simpl; lia|].
    exists b'. split; [done|]. by rewrite <- app_assoc in Hh'.
Qed.

End BatchRuns.

(** X4. Up to 32 lines of 1 to 254 bytes added to an empty batch are all
    accepted and read back unchanged: entry [i] gives line [i] and its length
    through [operator[]] and the trailer, [size()] is their number, and once
    32 are held a further [try_add] is refused. *)
Theorem batch_round_trip (lines : list (list Z)) :
  Forall (fun l => 1 <= Z.of_nat (length l) <= 254) lines ->
  (length lines <= 32)%nat ->
  exists b,
    add_all lines ThreadLocalBatch.new = Ret (true, b) /\
    ThreadLocalBatch.size b = Z.of_nat (length lines) /\
    (forall (i : nat) l, lines !! i = Some l ->
       Mem.load_u16 (ThreadLocalBatch.batch_ b)
         (ThreadLocalBatch.index b (Z.of_nat i) + 254) = Ret (Z.of_nat (length l)) /\
       Mem.read (ThreadLocalBatch.batch_ b) (ThreadLocalBatch.index b (Z.of_nat i))
         (Z.of_nat (length l)) = Ret l) /\
    (length lines = 32%nat ->
     forall data len, ThreadLocalBatch.try_add b data len = Ret (false, b)).
Proof.
  intros Hfit Hlen.
  destruct (add_all_holds lines ThreadLocalBatch.new [] batch_holds_new Hfit)
    as (b & Hb & [Hwf Hc He]); [unfold ThreadLocalBatch.BATCH_SIZE; simpl; lia|].
  simpl in Hc, He. exists b. split; [exact Hb|]. split; [exact Hc|]. split.
  - intros i l Hi. by destruct (He i l Hi) as [_ Hh].
  - intros H32 data len. apply try_add_full.
    unfold ThreadLocalBatch.BATCH_SIZE. lia.
Qed.

Lemma batch_round_trip_witness :
  exists b,
    add_all [[104; 105; 10]; [111; 107; 10]] ThreadLocalBatch.new = Ret (true, b) /\
    ThreadLocalBatch.size b = 2 /\
    Mem.read (ThreadLocalBatch.batch_ b) (ThreadLocalBatch.index b 1) 3
    = Ret [111; 107; 10].
Proof.
  destruct (batch_round_trip [[104; 105; 10]; [111; 107; 10]])
    as (b & Hb & Hsz & He & _).
  - repeat constructor; simpl; lia.
  - simpl. lia.
  - exists b. split; [exact Hb|]. split; [exact Hsz|].
    exact (proj2 (He 1%nat [111; 107; 10] eq_refl)).
Defined.

(** ** Logger: the backoff of [flush_batch] against the specification *)

Section BackoffRefinement.

Context {S : Type} {SinkS : Sink S}.
Variable sched : nat -> nat.
Implicit Types (lg : Logger.t S) (tl : Logger.thread_locals).

(** what [flush_batch] hands to [try_enqueue] for an entry that holds [l] *)
Lemma take_tail_from m off (l : list Z) :
  Mem.read m off (Z.of_nat (length l)) = Ret l ->
  take (length l) (Mem.tail_from m off) = l /\
  Z.of_nat (length l) <= Z.of_nat (length (Mem.tail_from m off)).
Proof.
  unfold Mem.read, Mem.tail_from.
  destruct (Mem.in_bounds m off _) eqn:Hb; [|done].
  intros [= Hl]. apply in_bounds_spec in Hb. rewrite Nat2Z.id in Hl.
  rewrite length_map, length_range. split; [|lia].
  rewrite take_map_range by lia. done.
Qed.

Lemma yields_spec_pauses n : forall lg,
  Logger.yields sched n lg = spec_pauses sched (repeat Logger.Yield n) lg.
Proof.
  induction n as [|n IH]; intros lg; simpl; [done|].
  destruct (Logger.suspend sched Logger.Yield lg); simpl; [apply IH|done|done].
Qed.

(** [try_enqueue] reads [len] bytes of its data and no more *)
Lemma try_enqueue_take q data (l : list Z) :
  take (length l) data = l ->
  LockFreeRingBuffer.try_enqueue q data (Z.of_nat (length l))
  = LockFreeRingBuffer.try_enqueue q l (Z.of_nat (length l)).
Proof.
  intros Ht.
  assert (Hlen : (length l <= length data)%nat).
  { rewrite <- Ht at 1. rewrite length_take. lia. }
  unfold LockFreeRingBuffer.try_enqueue. destruct (LockFreeRingBuffer.reserve q) as [[i q1]|];
    [|done].
  unfold LockFreeRingBuffer.publish, Mem.memcpy.
  rewrite Nat2Z.id, Ht, firstn_all.
  assert ((Z.of_nat (length l) <=? Z.of_nat (length data)) = true) as ->
    by (apply Z.leb_le; lia).
  assert ((Z.of_nat (length l) <=? Z.of_nat (length l)) = true) as ->
    by (apply Z.leb_le; lia).
  done.
Qed.

(** the retry loop entered at attempt [k], with the value [backoff] has by
    then, is the wait of the specification from attempt [k] *)
Lemma enqueue_with_backoff_spec fuel : forall k backoff data (l : list Z) lg,
  backoff = Z.of_nat (Nat.min k 4) -> take (length l) data = l ->
  Logger.enqueue_with_backoff sched fuel backoff data (Z.of_nat (length l)) lg
  = spec_wait_until_accepted sched fuel k l lg.
Proof.
  induction fuel as [|fuel IH]; intros k backoff data l lg Hb Ht;
    cbn [Logger.enqueue_with_backoff spec_wait_until_accepted];
    destruct (Logger.queue_ lg) as [q|]; try done;
    rewrite (try_enqueue_take q data l Ht);
    destruct (LockFreeRingBuffer.try_enqueue q l (Z.of_nat (length l)))
      as [[[] q']| |]; cbn [bind]; try done.
  unfold Logger.BACKOFF_MAX, attempt_events.
  destruct (backoff <? 4) eqn:Hlt.
  - apply Z.ltb_lt in Hlt.
    assert ((k <? 4)%nat = true) as -> by (apply Nat.ltb_lt; lia).
    rewrite yields_spec_pauses.
    assert (Z.to_nat (Z.shiftl 1 backoff) = (2 ^ k)%nat) as ->.
    { subst backoff. rewrite Z.shiftl_1_l. replace (Nat.min k 4) with k by lia.
      change 2 with (Z.of_nat 2). by rewrite <- Nat2Z.inj_pow, Nat2Z.id. }
    destruct (spec_pauses sched (repeat Logger.Yield (2 ^ k)) lg) as [lg1| |];
      cbn [bind]; try done.
    apply IH; [lia|done].
  - apply Z.ltb_ge in Hlt.
    assert ((k <? 4)%nat = false) as -> by (apply Nat.ltb_ge; lia).
    cbn [spec_pauses].
    destruct (Logger.suspend sched (Logger.SleepForNs 100) lg) as [lg1| |];
      cbn [bind]; try done.
    apply IH; [lia|done].
Qed.

Lemma flush_entries_spec fuel b lines n : forall (i : nat) lg,
  batch_holds b lines -> (i + n = length lines)%nat ->
  Logger.flush_entries sched fuel n (Z.of_nat i) b lg
  = spec_batch_flush sched fuel (drop i lines) lg.
Proof.
  induction n as [|n IH]; intros i lg Hb Hi; cbn [Logger.flush_entries].
  - by rewrite drop_ge by lia.
  - destruct (lookup_lt_is_Some_2 lines i) as [l Hl]; [lia|].
    destruct (bh_entries _ _ Hb i l Hl) as [Hlen [Htr Hrd]].
    rewrite Htr, (drop_S _ _ _ Hl). cbn [bind spec_batch_flush].
    destruct (take_tail_from _ _ _ Hrd) as [Htake _].
    rewrite (enqueue_with_backoff_spec fuel O 0 _ l lg eq_refl Htake).
    destruct (spec_wait_until_accepted sched fuel 0 l lg) as [lg1| |];
      cbn [bind]; try done.
    replace (Z.of_nat i + 1) with (Z.of_nat (Datatypes.S i)) by lia.
    apply IH; [done|lia].
Qed.

(** the events of the [for] loop: for each record the pauses of the attempts
    that were refused *)
Lemma flush_entries_trace fuel n : forall i b lg lg',
  Logger.flush_entries sched fuel n i b lg = Ret lg' ->
  exists refused : list nat,
    length refused = n /\
    Logger.events_ lg'
    = Logger.events_ lg ++ concat (map (backoff_trace 0) refused).
Proof.
  induction n as [|n IH]; intros i b lg lg' H; simpl in H.
  - injection H as <-. exists []. by rewrite app_nil_r.
  - bind_inv H. bind_inv H.
    apply (enqueue_with_backoff_inv sched fuel O) in Hr0
      as (m & qa & qb & _ & Ht1 & _); [|done].
    destruct (IH _ _ _ _ H) as (refused & Hn & Ht2).
    exists (m :: refused). split; [simpl; lia|].
    rewrite Ht2, Ht1, <- app_assoc. done.
Qed.

End BackoffRefinement.

(** C8. [flush_batch] is the batch flush of the specification: each line of
    the batch in turn, oldest first, is offered to [try_enqueue] from attempt
    0; an attempt [k] that finds the queue full is followed by [2^k] yields
    for [k < 4] and by one sleep of 100 ns from attempt 4 on, then by attempt
    [k + 1]; the loop for a line ends only by [try_enqueue] accepting it;
    then the batch is cleared. So when [flush_batch] returns, the events of
    the thread are, line by line, those of the refused attempts
    [0 .. n - 1], and [tail_] has advanced by the number of lines: none was
    dropped. *)
Theorem flush_batch_backoff_discipline
  {S : Type} {SinkS : Sink S} (sched : nat -> nat) (fuel : nat)
  (tl : Logger.thread_locals) (lg : Logger.t S) (lines : list (list Z)) :
  batch_holds (Logger.batch_ tl) lines ->
  Logger.flush_batch sched fuel tl lg
  = (do lg1 <- spec_batch_flush sched fuel lines lg;
     Ret ({| Logger.format_buf_ := Logger.format_buf_ tl;
             Logger.batch_ := ThreadLocalBatch.clear (Logger.batch_ tl) |}, lg1)) /\
  (forall tl' lg' q,
     Logger.flush_batch sched fuel tl lg = Ret (tl', lg') ->
     Logger.queue_ lg = Some q ->
     exists (refused : list nat) q',
       length refused = length lines /\
       Logger.events_ lg'
       = Logger.events_ lg ++ concat (map (backoff_trace 0) refused) /\
       Logger.queue_ lg' = Some q' /\
       wrap64 (LockFreeRingBuffer.tail_ q')
       = wrap64 (LockFreeRingBuffer.tail_ q + Z.of_nat (length lines)) /\
       ThreadLocalBatch.size (Logger.batch_ tl') = 0).
Proof.
  intros Hb.
  assert (Hn : Z.to_nat (ThreadLocalBatch.size (Logger.batch_ tl)) = length lines).
  { unfold ThreadLocalBatch.size. by rewrite (bh_count _ _ Hb), Nat2Z.id. }
  split.
  - unfold Logger.flush_batch. rewrite Hn.
    rewrite (flush_entries_spec sched fuel _ lines (length lines) O lg Hb eq_refl).
    rewrite drop_0.
    destruct (spec_batch_flush sched fuel lines lg) as [lg1| |]; cbn [bind]; done.
  - intros tl' lg' q [H ->]%flush_batch_inv Hq. rewrite Hn in H.
    destruct (flush_entries_trace sched fuel _ _ _ _ _ H) as (refused & Hlen & Hev).
    apply flush_entries_inv in H as (_ & _ & _ & Hq').
    destruct (Hq' q Hq) as (q' & ? & ? & _).
    exists refused, q'. done.
Qed.

Lemma flush_batch_backoff_discipline_witness :
  let r := ret_or (Logger.fresh_thread, full_two_slot_logger)
             (Logger.flush_batch late_worker 10 (thread_holding [[99; 10]])
                full_two_slot_logger) in
  Logger.flush_batch late_worker 10 (thread_holding [[99; 10]]) full_two_slot_logger
  = (do lg1 <- spec_batch_flush late_worker 10 [[99; 10]] full_two_slot_logger;
     Ret ({| Logger.format_buf_ := [];
             Logger.batch_ :=
               ThreadLocalBatch.clear (Logger.batch_ (thread_holding [[99; 10]])) |},
          lg1)) /\
  Logger.events_ (snd r)
  = repeat Logger.Yield 15 ++ repeat (Logger.SleepForNs 100) 3 /\
  captured (Logger.sink_ (snd r)) = [[97; 10]] /\
  option_map LockFreeRingBuffer.tail_ (Logger.queue_ (snd r)) = Some 3.
Proof.
  intros r.
  assert (Hb : batch_holds (Logger.batch_ (thread_holding [[99; 10]])) [[99; 10]]).
  { destruct (add_all_holds [[99; 10]] ThreadLocalBatch.new [] batch_holds_new)
      as (b & Hb & Hh).
    - repeat (apply List.Forall_cons; [simpl; lia|]). apply List.Forall_nil.
    - unfold ThreadLocalBatch.BATCH_SIZE. simpl. lia.
    - vm_compute in Hb. injection Hb as <-. exact Hh. }
  split; [|split; [|split]].
  - exact (proj1 (flush_batch_backoff_discipline late_worker 10
                    (thread_holding [[99; 10]]) full_two_slot_logger [[99; 10]] Hb)).
  - vm_compute. reflexivity.
  - vm_compute. reflexivity.
  - vm_compute. reflexivity.
Defined.

(** ** The logger as a pipeline: the worker *)

Section PipelineWorker.

Context {S : Type} {SinkS : Sink S}.
Variable sched : nat -> nat.
Variable s0 : S.
Variables N k : Z.
Implicit Types (lg : Logger.t S) (tl : Logger.thread_locals)
               (d p : list (list Z)).

Lemma written_snoc d r : written s0 (d ++ [r]) = write (written s0 d) r.
Proof. unfold written. by rewrite fold_left_app. Qed.

(** one iteration of the worker's first loop *)
Lemma worker_iteration_pipeline d p lg :
  queue_sink s0 N k d p lg -> k < 2 ^ 64 ->
  exists lg',
    Logger.worker_iteration lg = Ret lg' /\ worker_frame lg lg' /\
    match p with
    | [] => lg' = lg
    | r :: rest => queue_sink s0 N k (d ++ [r]) rest lg'
    end.
Proof.
  intros (q & Hq & Hes & HN & Hh & Hs) Hk. unfold Logger.worker_iteration. rewrite Hq.
  pose proof (try_dequeue_holds _ q p O 256 Hh Hk) as Hd. rewrite Hes in Hd.
  destruct p as [|r rest].
  - rewrite (try_dequeue_empty id 1 256 q).
    + exists lg. split; [done|]. split; [apply worker_frame_refl|done].
    + pose proof (rh_tail _ _ _ Hh) as Ht. simpl in Ht. lia.
  - destruct Hd as (q' & Hq' & Hh'); [lia|]. rewrite Hq'.
    eexists. split; [reflexivity|]. split.
    + apply try_dequeue_id_inv_true in Hq'
        as (_ & _ & slot_len & b & _ & _ & _ & _ & _ & ->).
      repeat split; simpl; try done. by rewrite Hq.
    + exists q'. simpl. split; [done|].
      pose proof (try_dequeue_geometry _ _ _ _ _ _ Hq') as [HN' Hes'].
      split; [congruence|]. split; [congruence|].
      * split; [done|by rewrite written_snoc, Hs].
Qed.

Lemma worker_iterations_pipeline n : forall d p lg,
  queue_sink s0 N k d p lg -> k < 2 ^ 64 ->
  exists lg' d' p',
    Logger.worker_iterations n lg = Ret lg' /\ worker_frame lg lg' /\
    queue_sink s0 N k d' p' lg' /\ d' ++ p' = d ++ p /\
    (length p' <= length p)%nat /\
    ((1 <= n)%nat -> p <> [] -> (length p' < length p)%nat).
Proof.
  induction n as [|n IH]; intros d p lg Hqs Hk; simpl.
  - exists lg, d, p. split; [done|]. split; [apply worker_frame_refl|].
    split; [done|]. split; [done|]. split; [lia|]. lia.
  - destruct (worker_iteration_pipeline d p lg Hqs Hk) as (lg1 & -> & Hf1 & Hp).
    cbn [bind]. destruct p as [|r rest].
    + subst lg1. destruct (IH d [] lg Hqs Hk) as (lg' & d' & p' & ? & ? & ? & ? & ? & ?).
      exists lg', d', p'. split_and!; try done.
    + destruct (IH (d ++ [r]) rest lg1 Hp Hk)
        as (lg' & d' & p' & Hr & Hf & Hqs' & Heq & Hle & _).
      exists lg', d', p'. split; [done|]. split; [by eapply worker_frame_trans|].
      split; [done|]. split; [by rewrite Heq, <- app_assoc|].
      simpl. split; lia.
Qed.



End PipelineWorker.

(** ** The logger as a pipeline: the calling thread *)

Section PipelineProducer.

Context {S : Type} {SinkS : Sink S}.
Variable sched : nat -> nat.
Variable N : Z.
Implicit Types (lg : Logger.t S) (tl : Logger.thread_locals)
               (d p : list (list Z)).

Lemma queue_sink_mono s0 k k' d p lg :
  k <= k' -> queue_sink s0 N k d p lg -> queue_sink s0 N k' d p lg.
Proof.
  intros Hk (q & ? & ? & ? & Hh & ?). exists q. split_and!; try done.
  by apply (ring_holds_mono k).
Qed.

Lemma queue_sink_enqueued s0 k d p lg q q' data len :
  queue_sink s0 N k d p lg -> Logger.queue_ lg = Some q ->
  LockFreeRingBuffer.try_enqueue q data len = Ret (true, q') ->
  ring_holds (k + 1) q' (p ++ [take (Z.to_nat len) data]) ->
  queue_sink s0 N (k + 1) d (p ++ [take (Z.to_nat len) data]) (Logger.with_queue lg q').
Proof.
  intros (q0 & Hq0 & Hes & HN & _ & Hs) Hq Heq Hh'.
  assert (q0 = q) as -> by congruence.
  pose proof (try_enqueue_geometry _ _ _ _ _ Heq) as [HN' Hes'].
  exists q'. simpl. split_and!; try done; congruence.
Qed.




End PipelineProducer.

(** ** The logger as a pipeline: shutdown *)

Section PipelineShutdown.

Context {S : Type} {SinkS : Sink S}.
Variable sched : nat -> nat.
Variable N : Z.
Implicit Types (lg : Logger.t S) (tl : Logger.thread_locals)
               (d p : list (list Z)).

(** the second loop of [worker_loop] *)
Lemma worker_drain_pipeline s0 k fuel : forall d p lg,
  queue_sink s0 N k d p lg -> k < 2 ^ 64 -> (length p < fuel)%nat ->
  exists lg',
    Logger.worker_drain fuel lg = Ret lg' /\ worker_frame lg lg' /\
    queue_sink s0 N k (d ++ p) [] lg'.
Proof.
  induction fuel as [|fuel IH]; intros d p lg Hqs Hk Hf; [lia|].
  pose proof Hqs as (q & Hq & Hes & HN & Hh & Hs).
  assert (Hrun : exists lg', Logger.worker_drain (Datatypes.S fuel) lg = Ret lg' /\
                             queue_sink s0 N k (d ++ p) [] lg').
  { cbn [Logger.worker_drain]. rewrite Hq. destruct p as [|r rest].
    - pose proof (try_dequeue_holds k q [] (Datatypes.S fuel) 256 Hh Hk) as Hd.
      rewrite Hes in Hd. rewrite Hd by lia. cbn [bind].
      exists lg. by rewrite app_nil_r.
    - pose proof (try_dequeue_holds k q (r :: rest) fuel 256 Hh Hk) as Hd.
      rewrite Hes in Hd. destruct Hd as (q' & Hq' & Hh'); [lia|].
      rewrite Hq'. cbn [bind].
      pose proof (try_dequeue_geometry _ _ _ _ _ _ Hq') as [HN' Hes'].
      destruct (IH (d ++ [r]) rest
                  (Logger.with_queue (Logger.with_sink lg (write (Logger.sink_ lg) r)) q'))
        as (lg' & Hrun & _ & Hqs'); [|done|simpl in Hf; lia|].
      + exists q'. simpl. split_and!; try done; try congruence.
        by rewrite written_snoc, Hs.
      + exists lg'. split; [done|]. by rewrite <- app_assoc in Hqs'. }
  destruct Hrun as (lg' & Hrun & Hqs'). exists lg'. split; [done|]. split; [|done].
  by eapply worker_drain_frame.
Qed.

Lemma queue_sink_empty s0 k d lg :
  queue_sink s0 N k d [] lg -> k < 2 ^ 64 ->
  exists q, Logger.queue_ lg = Some q /\ LockFreeRingBuffer.empty q = true.
Proof.
  intros (q & Hq & _ & _ & Hh & _) Hk. exists q. split; [done|].
  unfold LockFreeRingBuffer.empty. by rewrite (ring_holds_size _ _ _ Hh Hk).
Qed.


(** a logger without a queue writes through *)
Lemma log_all_sync MinLevel fuel records : forall tl lg,
  Logger.queue_ lg = None ->
  exists tl' lg',
    log_all sched MinLevel fuel records tl lg = Ret (tl', lg') /\
    Logger.sink_ lg' = written (Logger.sink_ lg) (admitted_lines MinLevel records) /\
    Logger.queue_ lg' = None /\
    Logger.worker_ lg' = Logger.worker_ lg /\
    Logger.running_ lg' = Logger.running_ lg /\
    Logger.events_ lg' = Logger.events_ lg /\
    Logger.batch_ tl' = Logger.batch_ tl.
Proof.
  induction records as [|[[L ns] payload] rest IH]; intros tl lg Hq;
    cbn [log_all admitted_lines].
  - exists tl, lg. split_and!; done.
  - unfold Logger.log. destruct (level_to_int L >=? level_to_int MinLevel).
    + rewrite Hq. cbn [bind].
      destruct (IH {| Logger.format_buf_ := Logger.render L ns payload;
                      Logger.batch_ := Logger.batch_ tl |}
                   (Logger.with_sink lg (write (Logger.sink_ lg) (Logger.render L ns payload))))
        as (tl' & lg' & Hrun & Hs & ? & ? & ? & ? & ?); [done|].
      exists tl', lg'. split_and!; try done.
    + cbn [bind]. by apply IH.
Qed.

Lemma admitted_lines_length MinLevel records :
  (length (admitted_lines MinLevel records) <= length records)%nat.
Proof.
  induction records as [|[[L ns] payload] rest IH]; simpl; [lia|].
  destruct (level_to_int L >=? level_to_int MinLevel); simpl; lia.
Qed.

Lemma queue_sink_new s0 : queue_sink s0 65536 0 [] [] (Logger.new s0 true).
Proof.
  exists (LockFreeRingBuffer.new 256 65536).
  split; [done|]. split; [done|]. split; [done|]. split; [|done].
  apply ring_holds_new; lia.
Qed.

End PipelineShutdown.


(** ** The logger end to end *)



(** X8. A logger without a queue writes through: every [log] call of an
    admitted record hands its whole line, of any length, to the sink before
    it returns, without touching the batch or yielding, and [flush()] then
    only flushes the sink. This needs no fuel and no worker. *)
Theorem sync_logger_writes_through {S : Type} {SinkS : Sink S}
        (sched : nat -> nat) (MinLevel : LogLevel) (fuel : nat)
        (records : list (LogLevel * Z * list Z))
        (tl : Logger.thread_locals) (lg : Logger.t S) :
  Logger.queue_ lg = None -> Logger.worker_ lg = Logger.NoWorker ->
  ThreadLocalBatch.size (Logger.batch_ tl) = 0 ->
  exists tl1 lg1 lg2,
    log_all sched MinLevel fuel records tl lg = Ret (tl1, lg1) /\
    Logger.sink_ lg1 = written (Logger.sink_ lg) (admitted_lines MinLevel records) /\
    Logger.batch_ tl1 = Logger.batch_ tl /\
    Logger.flush sched fuel tl1 lg1 = Ret (tl1, lg2) /\
    Logger.sink_ lg2
    = flush (written (Logger.sink_ lg) (admitted_lines MinLevel records)) /\
    Logger.events_ lg2 = Logger.events_ lg.
Proof.
  intros Hq Hw Hb.
  destruct (log_all_sync sched MinLevel fuel records tl lg Hq)
    as (tl1 & lg1 & Hrun & Hs & Hq1 & Hw1 & Hr1 & He1 & Hb1).
  exists tl1, lg1, (Logger.with_sink lg1 (flush (Logger.sink_ lg1))).
  split; [done|]. split; [done|]. split; [done|]. split.
  - unfold Logger.flush. rewrite Hb1, Hb. change (0 >? 0) with false. cbv iota.
    cbn [bind]. rewrite Hw1, Hw. reflexivity.
  - simpl. by rewrite Hs.
Qed.

Lemma sync_logger_writes_through_witness :
  exists tl1 lg1 lg2,
    log_all stalled_worker INFO 0 sample_records
            Logger.fresh_thread (Logger.new capture_sink false) = Ret (tl1, lg1) /\
    Logger.flush stalled_worker 0 tl1 lg1 = Ret (tl1, lg2) /\
    Logger.sink_ lg2 = flush (written capture_sink (admitted_lines INFO sample_records)).
Proof.
  destruct (sync_logger_writes_through stalled_worker INFO 0 sample_records
              Logger.fresh_thread (Logger.new capture_sink false))
    as (tl1 & lg1 & lg2 & H1 & _ & _ & H2 & H3 & _).
  - reflexivity.
  - reflexivity.
  - reflexivity.
  - exists tl1, lg1, lg2. split; [exact H1|]. split; [exact H2|exact H3].
Defined.

(** X9. [batch_] is one per thread for all loggers of a type. When it holds
    a line, left there by an asynchronous logger, [flush()] on a logger that
    has no queue calls [flush_batch], which dereferences the null [queue_]:
    [flush()] and the destructor of such a logger fault. *)
Theorem flush_without_queue_faults {S : Type} {SinkS : Sink S}
        (sched : nat -> nat) (fuel : nat)
        (tl : Logger.thread_locals) (lg : Logger.t S) :
  Logger.queue_ lg = None ->
  0 < ThreadLocalBatch.size (Logger.batch_ tl) ->
  Logger.flush sched fuel tl lg = Fault /\
  (Logger.worker_ lg = Logger.NoWorker -> Logger.destroy sched fuel tl lg = Fault).
Proof.
  intros Hq Hsz.
  assert (Hflush : Logger.flush sched fuel tl lg = Fault).
  { unfold Logger.flush.
    assert ((ThreadLocalBatch.size (Logger.batch_ tl) >? 0) = true) as ->.
    { rewrite Z.gtb_ltb. by apply Z.ltb_lt. }
    unfold Logger.flush_batch.
    destruct (Z.to_nat (ThreadLocalBatch.size (Logger.batch_ tl))) as [|n] eqn:Hn; [lia|].
    cbn [Logger.flush_entries]. unfold Mem.load_u16.
    destruct (Mem.in_bounds _ _ _); [|done]. cbn [bind].
    destruct fuel; cbn [Logger.enqueue_with_backoff]; by rewrite Hq. }
  split; [done|]. intros Hw. unfold Logger.destroy. rewrite Hw. cbn [bind]. done.
Qed.

Lemma flush_without_queue_faults_witness :
  Logger.flush stalled_worker 1 thread_after_info (Logger.new null_sink false) = Fault.
Proof.
  refine (proj1 (flush_without_queue_faults stalled_worker 1 thread_after_info
                   (Logger.new null_sink false) _ _)).
  - reflexivity.
  - vm_compute. reflexivity.
Defined.

(** X10. [worker_loop], from whatever point it finds [running_] false, hands
    every record in the queue to the sink, oldest first and each exactly
    once, and returns with the queue empty; it never moves [tail_]. *)
Theorem worker_loop_delivers_queue_in_order {S : Type} {SinkS : Sink S}
        (n fuel : nat) (lg : Logger.t S) (q : LockFreeRingBuffer.t) (k : Z)
        (pend : list (list Z)) :
  Logger.queue_ lg = Some q -> LockFreeRingBuffer.entry_size_ q = 256 ->
  ring_holds k q pend -> k < 2 ^ 64 -> (length pend < fuel)%nat ->
  exists lg' q',
    Logger.worker_loop n fuel lg = Ret lg' /\
    Logger.sink_ lg' = written (Logger.sink_ lg) pend /\
    Logger.queue_ lg' = Some q' /\
    ring_holds k q' [] /\
    LockFreeRingBuffer.empty q' = true /\
    LockFreeRingBuffer.tail_ q' = LockFreeRingBuffer.tail_ q /\
    Logger.events_ lg' = Logger.events_ lg.
Proof.
  intros Hq Hes Hh Hk Hf.
  assert (Hqs : queue_sink (Logger.sink_ lg) (LockFreeRingBuffer.max_entries_ q) k [] pend lg).
  { exists q. split_and!; done. }
  destruct (worker_iterations_pipeline (Logger.sink_ lg) _ k n [] pend lg Hqs Hk)
    as (lg1 & d1 & p1 & Hrun1 & Hf1 & Hqs1 & Heq1 & Hle1 & _).
  destruct (worker_drain_pipeline _ (Logger.sink_ lg) k fuel d1 p1 lg1 Hqs1 Hk ltac:(lia))
    as (lg' & Hrun' & Hf' & Hqs').
  pose proof (worker_frame_trans _ _ _ Hf1 Hf') as (He & _ & _ & _ & Ht).
  destruct Hqs' as (q' & Hq' & Hes' & HN' & Hh' & Hs').
  exists lg', q'. unfold Logger.worker_loop. rewrite Hrun1. cbn [bind].
  rewrite Hq, Hq' in Ht. destruct Ht as [Ht _].
  split_and!; try done.
  - by rewrite Hs', Heq1.
  - unfold LockFreeRingBuffer.empty. by rewrite (ring_holds_size _ _ _ Hh' Hk).
Qed.

Lemma worker_loop_delivers_queue_in_order_witness :
  let q := ret_or (LockFreeRingBuffer.new 256 2)
             (run_calls [Enqueue [97; 10] 2; Enqueue [98; 10] 2]
                (LockFreeRingBuffer.new 256 2)) in
  exists lg' q',
    Logger.worker_loop 1 3 full_two_slot_logger = Ret lg' /\
    Logger.sink_ lg' = written capture_sink [[97; 10]; [98; 10]] /\
    Logger.queue_ lg' = Some q' /\
    ring_holds 2 q' [] /\
    LockFreeRingBuffer.empty q' = true /\
    LockFreeRingBuffer.tail_ q' = LockFreeRingBuffer.tail_ q /\
    Logger.events_ lg' = [].
Proof.
  intros q.
  assert (Hh : ring_holds 2 q [[97; 10]; [98; 10]]).
  { pose proof (ring_holds_new 256 2 ltac:(lia) ltac:(lia) ltac:(lia) ltac:(lia)) as H0.
    pose proof (try_enqueue_holds 0 _ [] [97; 10] 2 H0
                  ltac:(lia) ltac:(simpl; lia) ltac:(simpl; lia)) as H1.
    simpl in H1. destruct H1 as (q1 & Hq1 & H1).
    vm_compute in Hq1. injection Hq1 as <-.
    pose proof (try_enqueue_holds 1 _ _ [98; 10] 2 H1
                  ltac:(lia) ltac:(simpl; lia) ltac:(simpl; lia)) as H2.
    simpl in H2. destruct H2 as (q2 & Hq2 & H2).
    vm_compute in Hq2. injection Hq2 as <-.
    exact H2. }
  exact (worker_loop_delivers_queue_in_order 1 3 full_two_slot_logger q 2
           [[97; 10]; [98; 10]] eq_refl eq_refl Hh ltac:(lia) ltac:(simpl; lia)).
Defined.

(** ** A worker that is not scheduled *)

Section Stalled.

Context {S : Type} {SinkS : Sink S}.
Variable sched : nat -> nat.
Hypothesis Hstalled : forall k, sched k = O.
Implicit Types (lg : Logger.t S) (tl : Logger.thread_locals).

Lemma suspend_stalled e lg :
  Logger.suspend sched e lg = Ret (Logger.tick (Logger.emit lg e)).
Proof.
  unfold Logger.suspend. rewrite Hstalled.
  by destruct (Logger.worker_ lg), (Logger.running_ lg).
Qed.

Lemma yields_stalled n : forall lg,
  exists lg', Logger.yields sched n lg = Ret lg' /\
              Logger.queue_ lg' = Logger.queue_ lg.
Proof.
  induction n as [|n IH]; intros lg; simpl; [by exists lg|].
  rewrite suspend_stalled. cbn [bind].
  destruct (IH (Logger.tick (Logger.emit lg Logger.Yield))) as (lg' & -> & Hq).
  by exists lg'.
Qed.

Lemma enqueue_with_backoff_stalled fuel : forall backoff data len lg q,
  Logger.queue_ lg = Some q -> LockFreeRingBuffer.full q = true ->
  Logger.enqueue_with_backoff sched fuel backoff data len lg = OutOfFuel.
Proof.
  induction fuel as [|fuel IH]; intros backoff data len lg q Hq Hfull;
    cbn [Logger.enqueue_with_backoff]; rewrite Hq;
    (rewrite try_enqueue_full;
     [|unfold LockFreeRingBuffer.full, LockFreeRingBuffer.size in Hfull;
       rewrite Z.geb_leb in Hfull; apply Z.leb_le in Hfull; lia]);
    cbn [bind]; [done|].
  destruct (backoff <? Logger.BACKOFF_MAX).
  - destruct (yields_stalled (Z.to_nat (Z.shiftl 1 backoff)) lg) as (lg1 & -> & Hq1).
    cbn [bind]. apply (IH _ _ _ _ q); [congruence|done].
  - rewrite suspend_stalled. cbn [bind]. by apply (IH _ _ _ _ q).
Qed.

End Stalled.

(** X12. [log] does not drop a record when there is no room for it: called
    with a full batch and a full queue while the worker is not scheduled, it
    keeps retrying and does not return. *)
Theorem log_blocks_while_queue_is_full {S : Type} {SinkS : Sink S}
        (sched : nat -> nat) (MinLevel L : LogLevel) (fuel : nat) (ns : Z)
        (payload : list Z) (tl : Logger.thread_locals) (lg : Logger.t S)
        (q : LockFreeRingBuffer.t) (lines : list (list Z)) :
  (forall k, sched k = O) ->
  Logger.queue_ lg = Some q -> LockFreeRingBuffer.full q = true ->
  batch_holds (Logger.batch_ tl) lines -> length lines = 32%nat ->
  level_to_int MinLevel <= level_to_int L ->
  Logger.log sched MinLevel L fuel ns payload tl lg = OutOfFuel.
Proof.
  intros Hst Hq Hfull Hb Hlen Hadm. unfold Logger.log.
  assert ((level_to_int L >=? level_to_int MinLevel) = true) as ->
    by (rewrite Z.geb_leb; apply Z.leb_le; lia).
  rewrite Hq. cbn [Logger.batch_].
  rewrite try_add_full
    by (rewrite (bh_count _ _ Hb), Hlen; unfold ThreadLocalBatch.BATCH_SIZE; lia).
  cbn [bind]. unfold Logger.flush_batch, ThreadLocalBatch.size. cbn [Logger.batch_].
  rewrite (bh_count _ _ Hb), Nat2Z.id, Hlen.
  cbn [Logger.flush_entries].
  destruct (lookup_lt_is_Some_2 lines O) as [l Hl]; [lia|].
  destruct (bh_entries _ _ Hb O l Hl) as [_ [Htr _]].
  change (Z.of_nat 0) with 0 in Htr. rewrite Htr. cbn [bind].
  rewrite (enqueue_with_backoff_stalled sched Hst fuel _ _ _ lg q) by done.
  reflexivity.
Qed.

Lemma log_blocks_while_queue_is_full_witness :
  Logger.log stalled_worker TRACE INFO 5 7 (bytes_of_string "late")
             thread_with_full_batch full_two_slot_logger = OutOfFuel.
Proof.
  assert (Hb : batch_holds (Logger.batch_ thread_with_full_batch) (repeat [97; 10] 32)).
  { destruct (add_all_holds (repeat [97; 10] 32) ThreadLocalBatch.new [] batch_holds_new)
      as (b & Hb & Hh).
    - repeat (apply List.Forall_cons; [simpl; lia|]). apply List.Forall_nil.
    - unfold ThreadLocalBatch.BATCH_SIZE. simpl. lia.
    - vm_compute in Hb. injection Hb as <-. exact Hh. }
  refine (log_blocks_while_queue_is_full stalled_worker TRACE INFO 5 7
            (bytes_of_string "late") thread_with_full_batch full_two_slot_logger
            _ (repeat [97; 10] 32) _ eq_refl _ Hb _ _).
  - intros k. reflexivity.
  - vm_compute. reflexivity.
  - reflexivity.
  - simpl. lia.
Defined.

(** ** Batching *)

Section Batching.

Context {S : Type} {SinkS : Sink S}.
Variable sched : nat -> nat.
Variable N : Z.
Variable s0 : S.
Implicit Types (lg : Logger.t S) (tl : Logger.thread_locals)
               (d p lines : list (list Z)).



End Batching.



(** ** The interleaved logger: the worker *)

Section ConveyorWorker.

Context {S : Type} {SinkS : Sink S}.
Variables sched drift : nat -> nat.
Variable s0 : S.
Variables N k : Z.
Implicit Types (st : Interleaved.t S) (moved : list (list Z)) (todo : nat).

Lemma caller_frame_refl st : caller_frame st st.
Proof. by repeat split. Qed.

Lemma caller_frame_trans st1 st2 st3 :
  caller_frame st1 st2 -> caller_frame st2 st3 -> caller_frame st1 st3.
Proof.
  intros (? & ? & ? & ? & ?) (? & ? & ? & ? & ?).
  unfold caller_frame. split_and!; congruence.
Qed.

Lemma in_transit_todo moved todo st :
  in_transit s0 N k moved todo st ->
  (todo <= 2 * length moved)%nat /\ Z.of_nat todo <= 2 * N + 1.
Proof.
  intros (d & p & (q & _ & _ & HN & Hh & _) & -> & ->).
  pose proof (rh_room _ _ _ Hh) as Hroom. rewrite HN in Hroom.
  rewrite !length_app. unfold held. destruct (Interleaved.entry_ st); simpl; lia.
Qed.

(** a step of the worker moves the lines on by one place *)
Lemma worker_step_transit moved todo st :
  in_transit s0 N k moved todo st -> k < 2 ^ 64 ->
  exists st',
    Interleaved.worker_step st = Ret st' /\
    in_transit s0 N k moved (todo - 1) st' /\ caller_frame st st'.
Proof.
  intros (d & p & Hqs & Hm & Ht) Hk.
  pose proof Hqs as (q & Hq & Hes & HN & Hh & Hs).
  unfold Interleaved.worker_step, held in *.
  destruct (Interleaved.entry_ st) as [r|] eqn:He.
  - eexists. split; [reflexivity|]. split; [|by repeat split].
    exists (d ++ [r]), p. unfold held. simpl. split_and!.
    + exists q. simpl. split_and!; try done. by rewrite written_snoc, Hs.
    + by rewrite Hm, <- app_assoc.
    + simpl in Ht. lia.
  - rewrite Hq. destruct p as [|r rest].
    + pose proof (try_dequeue_holds k q [] 1 256 Hh Hk) as Hd. rewrite Hes in Hd.
      rewrite Hd by lia. exists st. split; [done|]. split; [|apply caller_frame_refl].
      exists d, []. unfold held. rewrite He. simpl in *. split_and!; try done. lia.
    + pose proof (try_dequeue_holds k q (r :: rest) O 256 Hh Hk) as Hd.
      rewrite Hes in Hd. destruct Hd as (q' & Hq' & Hh'); [lia|]. rewrite Hq'.
      pose proof (try_dequeue_geometry _ _ _ _ _ _ Hq') as [HN' Hes'].
      eexists. split; [reflexivity|]. split.
      * exists d, rest. unfold held. simpl. split_and!; try done.
        -- exists q'. simpl. split_and!; try done; congruence.
        -- simpl in Ht. lia.
      * apply try_dequeue_id_inv_true in Hq'
          as (_ & _ & slot_len & b & _ & _ & _ & _ & _ & ->).
        by repeat split.
Qed.

Lemma worker_steps_transit n : forall moved todo st,
  in_transit s0 N k moved todo st -> k < 2 ^ 64 ->
  exists st',
    Interleaved.worker_steps n st = Ret st' /\
    in_transit s0 N k moved (todo - n) st' /\ caller_frame st st'.
Proof.
  induction n as [|n IH]; intros moved todo st Ht Hk; simpl.
  - exists st. rewrite Nat.sub_0_r. split; [done|]. split; [done|apply caller_frame_refl].
  - destruct (worker_step_transit moved todo st Ht Hk) as (st1 & -> & Ht1 & Hf1).
    cbn [bind]. destruct (IH moved (todo - 1)%nat st1 Ht1 Hk) as (st' & Hr & Ht' & Hf').
    exists st'. split; [done|]. split; [|by eapply caller_frame_trans].
    by replace (todo - Datatypes.S n)%nat with (todo - 1 - n)%nat by lia.
Qed.

Lemma in_transit_bump moved todo st a :
  in_transit s0 N k moved todo st ->
  in_transit s0 N k moved todo
    {| Interleaved.logger_ := Interleaved.logger_ st;
       Interleaved.entry_ := Interleaved.entry_ st;
       Interleaved.accesses_ := a |}.
Proof. intros (d & p & ? & ? & ?). by exists d, p. Qed.

(** an access of the calling thread, with what the worker did before it *)
Lemma access_transit moved todo st :
  in_transit s0 N k moved todo st -> k < 2 ^ 64 ->
  exists st' todo',
    Interleaved.access drift st = Ret st' /\
    in_transit s0 N k moved todo' st' /\ (todo' <= todo)%nat /\
    Logger.events_ (Interleaved.logger_ st') = Logger.events_ (Interleaved.logger_ st) /\
    Logger.worker_ (Interleaved.logger_ st') = Logger.worker_ (Interleaved.logger_ st) /\
    Logger.running_ (Interleaved.logger_ st') = Logger.running_ (Interleaved.logger_ st).
Proof.
  intros Ht Hk. unfold Interleaved.access.
  pose proof (in_transit_bump moved todo st (Datatypes.S (Interleaved.accesses_ st)) Ht)
    as Ht0.
  destruct (Interleaved.worker_runs st).
  - destruct (worker_steps_transit (drift (Interleaved.accesses_ st)) moved todo _ Ht0 Hk)
      as (st' & Hr & Ht' & (He & _ & Hw & Hr' & _)).
    exists st', (todo - drift (Interleaved.accesses_ st))%nat.
    split_and!; try done. lia.
  - eexists _, todo. split; [reflexivity|]. split_and!; try done.
Qed.

Lemma worker_runs_active st :
  worker_active st -> Interleaved.worker_runs st = true.
Proof. intros [Hw Hr]. unfold Interleaved.worker_runs. by rewrite Hw, Hr. Qed.

(** a suspension of the calling thread *)
Lemma suspend_transit e moved todo st :
  in_transit s0 N k moved todo st -> k < 2 ^ 64 ->
  exists st' todo',
    Interleaved.suspend sched e st = Ret st' /\
    in_transit s0 N k moved todo' st' /\ (todo' <= todo)%nat /\
    Logger.events_ (Interleaved.logger_ st')
    = Logger.events_ (Interleaved.logger_ st) ++ [e] /\
    Logger.worker_ (Interleaved.logger_ st') = Logger.worker_ (Interleaved.logger_ st) /\
    Logger.running_ (Interleaved.logger_ st') = Logger.running_ (Interleaved.logger_ st) /\
    (fair sched -> worker_active st -> (todo' <= todo - 1)%nat).
Proof.
  intros Ht Hk. unfold Interleaved.suspend.
  assert (Ht0 : in_transit s0 N k moved todo
                  (Interleaved.with_logger st
                     (Logger.tick (Logger.emit (Interleaved.logger_ st) e)))).
  { destruct Ht as (d & p & (q & ? & ? & ? & ? & ?) & ? & ?). exists d, p.
    split_and!; try done. by exists q. }
  destruct (Interleaved.worker_runs st) eqn:Hrun.
  - destruct (worker_steps_transit (sched (Logger.clock_ (Interleaved.logger_ st)))
                moved todo _ Ht0 Hk) as (st' & Hr & Ht' & (He & _ & Hw & Hr' & _)).
    exists st', (todo - sched (Logger.clock_ (Interleaved.logger_ st)))%nat.
    split_and!; try done; [lia|].
    intros Hfair _. specialize (Hfair (Logger.clock_ (Interleaved.logger_ st))). lia.
  - eexists _, todo. split; [reflexivity|]. split_and!; try done.
    intros _ Hact. apply worker_runs_active in Hact. congruence.
Qed.

Lemma yields_transit n : forall moved todo st,
  in_transit s0 N k moved todo st -> k < 2 ^ 64 ->
  exists st' todo',
    Interleaved.yields sched n st = Ret st' /\
    in_transit s0 N k moved todo' st' /\ (todo' <= todo)%nat /\
    Logger.worker_ (Interleaved.logger_ st') = Logger.worker_ (Interleaved.logger_ st) /\
    Logger.running_ (Interleaved.logger_ st') = Logger.running_ (Interleaved.logger_ st) /\
    (fair sched -> worker_active st -> (todo' <= todo - n)%nat).
Proof.
  induction n as [|n IH]; intros moved todo st Ht Hk; simpl.
  - exists st, todo. split_and!; try done. lia.
  - destruct (suspend_transit Logger.Yield moved todo st Ht Hk)
      as (st1 & todo1 & -> & Ht1 & Hle1 & _ & Hw1 & Hr1 & Hlt1).
    cbn [bind].
    destruct (IH moved todo1 st1 Ht1 Hk) as (st' & todo' & Hy & Ht' & Hle' & Hw' & Hr' & Hlt').
    exists st', todo'. split_and!; try done; try congruence; try lia.
    intros Hfair Hact. specialize (Hlt1 Hfair Hact).
    assert (Hact1 : worker_active st1).
    { destruct Hact. split; congruence. }
    specialize (Hlt' Hfair Hact1). lia.
Qed.

End ConveyorWorker.

(** ** The interleaved logger: the calling thread *)

Section ConveyorProducer.

Context {S : Type} {SinkS : Sink S}.
Variables sched drift : nat -> nat.
Variable s0 : S.
Variable N : Z.
Implicit Types (st : Interleaved.t S) (tl : Logger.thread_locals)
               (moved : list (list Z)) (todo : nat).

Lemma worker_active_eq st st' :
  Logger.worker_ (Interleaved.logger_ st') = Logger.worker_ (Interleaved.logger_ st) ->
  Logger.running_ (Interleaved.logger_ st') = Logger.running_ (Interleaved.logger_ st) ->
  worker_active st -> worker_active st'.
Proof. intros Hw Hr [? ?]. split; congruence. Qed.

Lemma in_transit_mono k k' moved todo st :
  k <= k' -> in_transit s0 N k moved todo st -> in_transit s0 N k' moved todo st.
Proof.
  intros Hk (d & p & Hqs & ? & ?). exists d, p. split_and!; try done.
  by apply (queue_sink_mono N s0 k k').
Qed.

(** the retry loop of [flush_batch] for one record *)
Lemma enqueue_with_backoff_transit k fuel : forall backoff moved todo st data len,
  in_transit s0 N k moved todo st -> k + 1 < 2 ^ 64 ->
  1 <= len <= 254 -> len <= Z.of_nat (length data) -> 0 <= backoff ->
  match Interleaved.enqueue_with_backoff sched drift fuel backoff data len st with
  | Ret st' =>
      exists todo',
        in_transit s0 N (k + 1) (moved ++ [take (Z.to_nat len) data]) todo' st' /\
        (todo' <= todo + 2)%nat /\
        Logger.worker_ (Interleaved.logger_ st') = Logger.worker_ (Interleaved.logger_ st) /\
        Logger.running_ (Interleaved.logger_ st') = Logger.running_ (Interleaved.logger_ st)
  | Fault => False
  | OutOfFuel =>
      ~ (fair sched /\ worker_active st /\
         Z.of_nat todo - (2 * N - 1) <= Z.of_nat fuel)
  end.
Proof.
  induction fuel as [|fuel IH]; intros backoff moved todo st data len Ht Hk Hlen Hdata Hb;
    cbn [Interleaved.enqueue_with_backoff];
    destruct (access_transit drift s0 N k moved todo st Ht ltac:(lia))
      as (sta & todoa & -> & Hta & Hlea & _ & Hwa & Hra);
    cbn [bind];
    pose proof Hta as (d & p & Hqs & Hm & Htd);
    pose proof Hqs as (q & Hq & Hes & HN & Hh & Hs);
    pose proof (try_enqueue_holds _ q p data len Hh Hk) as He;
    rewrite Hes, HN in He; specialize (He Hlen Hdata);
    rewrite Hq;
    destruct (Z.of_nat (length p) <? N) eqn:Hfull.
  1,3: destruct He as (q' & Heq & Hh'); rewrite Heq; cbn [bind];
    exists (todoa + 2)%nat; split; [|split; [lia|by split]];
    exists d, (p ++ [take (Z.to_nat len) data]); unfold held in *; simpl;
    split; [by eapply queue_sink_enqueued|];
    split; [by rewrite Hm, <- !app_assoc|rewrite length_app; simpl; lia].
  - rewrite He. cbn [bind]. apply Z.ltb_ge in Hfull.
    intros (_ & _ & Hf). lia.
  - rewrite He. cbn [bind]. apply Z.ltb_ge in Hfull.
    assert (Hk0 : k < 2 ^ 64) by lia.
    pose proof (wf_entries _ (rh_wf _ _ _ Hh)) as Hpos. rewrite HN in Hpos.
    assert (Hstep : forall st1 todo1 b1,
      in_transit s0 N k moved todo1 st1 ->
      Logger.worker_ (Interleaved.logger_ st1) = Logger.worker_ (Interleaved.logger_ sta) ->
      Logger.running_ (Interleaved.logger_ st1) = Logger.running_ (Interleaved.logger_ sta) ->
      (todo1 <= todoa)%nat ->
      (fair sched -> worker_active sta -> (todo1 <= todoa - 1)%nat) ->
      0 <= b1 ->
      match Interleaved.enqueue_with_backoff sched drift fuel b1 data len st1 with
      | Ret st' =>
          exists todo',
            in_transit s0 N (k + 1) (moved ++ [take (Z.to_nat len) data]) todo' st' /\
            (todo' <= todo + 2)%nat /\
            Logger.worker_ (Interleaved.logger_ st')
            = Logger.worker_ (Interleaved.logger_ st) /\
            Logger.running_ (Interleaved.logger_ st')
            = Logger.running_ (Interleaved.logger_ st)
      | Fault => False
      | OutOfFuel =>
          ~ (fair sched /\ worker_active st /\
             Z.of_nat todo - (2 * N - 1) <= Z.of_nat (Datatypes.S fuel))
      end).
    { intros st1 todo1 b1 Ht1 Hw1 Hr1 Hle1 Hlt1 Hb1.
      specialize (IH b1 moved todo1 st1 data len Ht1 Hk Hlen Hdata Hb1).
      destruct (Interleaved.enqueue_with_backoff sched drift fuel b1 data len st1)
        as [st'| |].
      - destruct IH as (todo' & Ht' & Hle' & Hw' & Hr').
        exists todo'. split_and!; try done; try congruence; lia.
      - done.
      - intros (Hfair & Hact & Hf). apply IH.
        assert (Hacta : worker_active sta) by (by apply (worker_active_eq st)).
        split; [done|]. split; [by apply (worker_active_eq sta)|].
        specialize (Hlt1 Hfair Hacta). lia. }
    destruct (backoff <? Logger.BACKOFF_MAX).
    + destruct (yields_transit sched s0 N k (Z.to_nat (Z.shiftl 1 backoff)) moved todoa sta
                  Hta Hk0) as (st1 & todo1 & -> & Ht1 & Hle1 & Hw1 & Hr1 & Hlt1).
      cbn [bind]. apply (Hstep st1 todo1); try done; [|lia].
      intros Hfair Hact. specialize (Hlt1 Hfair Hact).
      assert (1 <= Z.to_nat (Z.shiftl 1 backoff))%nat; [|lia].
      rewrite Z.shiftl_1_l. pose proof (Z.pow_pos_nonneg 2 backoff). lia.
    + destruct (suspend_transit sched s0 N k (Logger.SleepForNs 100) moved todoa sta
                  Hta Hk0) as (st1 & todo1 & -> & Ht1 & Hle1 & _ & Hw1 & Hr1 & Hlt1).
      cbn [bind]. apply (Hstep st1 todo1); try done.
Qed.

(** the [for] loop of [flush_batch] from entry [i] on *)
Lemma flush_entries_transit fuel b lines n : forall (i : nat) k moved todo st,
  batch_holds b lines -> (i + n = length lines)%nat ->
  in_transit s0 N k moved todo st -> k + Z.of_nat n < 2 ^ 64 ->
  match Interleaved.flush_entries sched drift fuel n (Z.of_nat i) b st with
  | Ret st' =>
      exists todo',
        in_transit s0 N (k + Z.of_nat n) (moved ++ drop i lines) todo' st' /\
        (todo' <= todo + 2 * n)%nat /\
        Logger.worker_ (Interleaved.logger_ st') = Logger.worker_ (Interleaved.logger_ st) /\
        Logger.running_ (Interleaved.logger_ st') = Logger.running_ (Interleaved.logger_ st)
  | Fault => False
  | OutOfFuel => ~ (fair sched /\ worker_active st /\ (2 <= fuel)%nat)
  end.
Proof.
  induction n as [|n IH]; intros i k moved todo st Hb Hi Ht Hk;
    cbn [Interleaved.flush_entries].
  - exists todo. change (Z.of_nat 0) with 0. rewrite Z.add_0_r.
    rewrite drop_ge by lia. rewrite app_nil_r. split_and!; try done. lia.
  - destruct (lookup_lt_is_Some_2 lines i) as [l Hl]; [lia|].
    destruct (bh_entries _ _ Hb i l Hl) as [Hlen [Htr Hrd]].
    rewrite Htr. cbn [bind].
    destruct (take_tail_from _ _ _ Hrd) as [Htake Hdata].
    pose proof (enqueue_with_backoff_transit k fuel 0 moved todo st
      (Mem.tail_from (ThreadLocalBatch.batch_ b) (ThreadLocalBatch.index b (Z.of_nat i)))
      (Z.of_nat (length l)) Ht) as He.
    rewrite Nat2Z.id, Htake in He.
    specialize (He ltac:(lia) Hlen Hdata ltac:(lia)).
    destruct (Interleaved.enqueue_with_backoff _ _ _ _ _ _ st) as [st1| |].
    + destruct He as (todo1 & Ht1 & Hle1 & Hw1 & Hr1). cbn [bind].
      replace (Z.of_nat i + 1) with (Z.of_nat (Datatypes.S i)) by lia.
      specialize (IH (Datatypes.S i) (k + 1) _ todo1 st1 Hb ltac:(lia) Ht1 ltac:(lia)).
      replace (k + 1 + Z.of_nat n) with (k + Z.of_nat (Datatypes.S n)) in IH by lia.
      destruct (Interleaved.flush_entries _ _ _ _ _ _ st1) as [st'| |].
      * destruct IH as (todo' & Ht' & Hle' & Hw' & Hr').
        rewrite <- app_assoc in Ht'. simpl in Ht'. rewrite (drop_S _ _ _ Hl).
        exists todo'. split_and!; try done; try congruence; try lia.
      * done.
      * intros (Hfair & Hact & Hf). apply IH. split_and!; try done.
        by apply (worker_active_eq st).
    + done.
    + cbn [bind]. intros (Hfair & Hact & Hf). apply He. split_and!; try done.
      destruct (in_transit_todo s0 N k moved todo st Ht). lia.
Qed.

(** [flush_batch]: the batch goes to the back of the queue, line by line *)
Lemma flush_batch_transit k fuel tl st moved todo lines :
  batch_holds (Logger.batch_ tl) lines -> in_transit s0 N k moved todo st ->
  k + Z.of_nat (length lines) < 2 ^ 64 ->
  match Interleaved.flush_batch sched drift fuel tl st with
  | Ret (tl', st') =>
      exists todo',
        in_transit s0 N (k + Z.of_nat (length lines)) (moved ++ lines) todo' st' /\
        (todo' <= todo + 2 * length lines)%nat /\
        batch_holds (Logger.batch_ tl') [] /\
        Logger.worker_ (Interleaved.logger_ st') = Logger.worker_ (Interleaved.logger_ st) /\
        Logger.running_ (Interleaved.logger_ st') = Logger.running_ (Interleaved.logger_ st)
  | Fault => False
  | OutOfFuel => ~ (fair sched /\ worker_active st /\ (2 <= fuel)%nat)
  end.
Proof.
  intros Hb Ht Hk. unfold Interleaved.flush_batch, ThreadLocalBatch.size.
  rewrite (bh_count _ _ Hb), Nat2Z.id.
  pose proof (flush_entries_transit fuel _ lines (length lines) O k moved todo st Hb
                ltac:(lia) Ht ltac:(lia)) as Hf.
  change (Z.of_nat O) with 0 in Hf. rewrite drop_0 in Hf.
  destruct (Interleaved.flush_entries _ _ _ _ _ _ st) as [st1| |]; cbn [bind]; try done.
  simpl. destruct Hf as (todo' & Ht' & Hle' & Hw' & Hr').
  exists todo'. split_and!; try done.
  by apply (batch_holds_clear _ lines).
Qed.

(** [log<L>] of an admitted record whose line fits a batch entry *)
Lemma log_conveyor k MinLevel L fuel ns payload tl st emitted :
  conveyor s0 N k emitted tl st ->
  level_to_int MinLevel <= level_to_int L ->
  Z.of_nat (length (Logger.render L ns payload)) <= 254 ->
  k + 1 < 2 ^ 64 ->
  match Interleaved.log sched drift MinLevel L fuel ns payload tl st with
  | Ret (tl', st') =>
      conveyor s0 N (k + 1) (emitted ++ [Logger.render L ns payload]) tl' st' /\
      Logger.worker_ (Interleaved.logger_ st') = Logger.worker_ (Interleaved.logger_ st) /\
      Logger.running_ (Interleaved.logger_ st') = Logger.running_ (Interleaved.logger_ st)
  | Fault => False
  | OutOfFuel => ~ (fair sched /\ worker_active st /\ (2 <= fuel)%nat)
  end.
Proof.
  intros (moved & todo & lines & kq & Ht & Hb & -> & Hkq) Hadm Hlen Hk.
  pose proof (render_length L ns payload) as Hlen1.
  unfold Interleaved.log.
  assert ((level_to_int L >=? level_to_int MinLevel) = true) as ->
    by (rewrite Z.geb_leb; apply Z.leb_le; lia).
  set (line := Logger.render L ns payload) in *.
  pose proof Ht as (d & p & (q & Hq & _) & _). rewrite Hq. cbn [Logger.batch_].
  pose proof (try_add_holds _ lines line Hb ltac:(lia)) as Ha.
  destruct (Z.of_nat (length lines) <? ThreadLocalBatch.BATCH_SIZE).
  - destruct Ha as (b' & -> & Hb'). cbn [bind]. split_and!; try done.
    exists moved, todo, (lines ++ [line]), kq. split_and!; try done.
    + by rewrite <- !app_assoc.
    + rewrite length_app. simpl. lia.
  - rewrite Ha. cbn [bind].
    pose proof (flush_batch_transit kq fuel
                  {| Logger.format_buf_ := line; Logger.batch_ := Logger.batch_ tl |}
                  st moved todo lines Hb Ht ltac:(lia)) as Hf.
    destruct (Interleaved.flush_batch _ _ _ _ st) as [[tl1 st1]| |]; cbn [bind]; try done.
    destruct Hf as (todo' & Ht' & _ & Hb0 & Hw' & Hr').
    pose proof (try_add_holds _ [] line Hb0 ltac:(lia)) as Ha0.
    change (Z.of_nat (length []) <? ThreadLocalBatch.BATCH_SIZE) with true in Ha0.
    cbv iota in Ha0.
    destruct Ha0 as (b2 & -> & Hb2). cbn [bind]. split_and!; try done.
    exists (moved ++ lines), todo', [line], (kq + Z.of_nat (length lines)).
    split_and!; try done. simpl. lia.
Qed.

Lemma conveyor_mono k k' emitted tl st :
  k <= k' -> conveyor s0 N k emitted tl st -> conveyor s0 N k' emitted tl st.
Proof.
  intros Hk (moved & todo & lines & kq & ? & ? & ? & ?).
  exists moved, todo, lines, kq. split_and!; try done. lia.
Qed.

Lemma log_all_conveyor MinLevel fuel records : forall k tl st emitted,
  conveyor s0 N k emitted tl st ->
  Forall (fun l => Z.of_nat (length l) <= 254) (admitted_lines MinLevel records) ->
  k + Z.of_nat (length records) < 2 ^ 64 ->
  match Interleaved.log_all sched drift MinLevel fuel records tl st with
  | Ret (tl', st') =>
      conveyor s0 N (k + Z.of_nat (length records))
               (emitted ++ admitted_lines MinLevel records) tl' st' /\
      Logger.worker_ (Interleaved.logger_ st') = Logger.worker_ (Interleaved.logger_ st) /\
      Logger.running_ (Interleaved.logger_ st') = Logger.running_ (Interleaved.logger_ st)
  | Fault => False
  | OutOfFuel => ~ (fair sched /\ worker_active st /\ (2 <= fuel)%nat)
  end.
Proof.
  induction records as [|[[L ns] payload] rest IH]; intros k tl st emitted Hp Hfit Hk;
    cbn [Interleaved.log_all admitted_lines] in *.
  - rewrite app_nil_r. change (Z.of_nat (length [])) with 0. rewrite Z.add_0_r. done.
  - rewrite length_cons in *.
    replace (k + Z.of_nat (Datatypes.S (length rest)))
      with (k + 1 + Z.of_nat (length rest)) in * by lia.
    destruct (level_to_int L >=? level_to_int MinLevel) eqn:Hadm.
    + apply Forall_cons in Hfit as [Hl Hfit].
      pose proof (log_conveyor k MinLevel L fuel ns payload tl st emitted Hp
                    ltac:(rewrite Z.geb_leb in Hadm; apply Z.leb_le in Hadm; lia)
                    Hl ltac:(lia)) as Hlog.
      destruct (Interleaved.log _ _ _ _ _ _ _ tl st) as [[tl1 st1]| |]; cbn [bind];
        try done.
      destruct Hlog as (Hp1 & Hw1 & Hr1).
      specialize (IH (k + 1) tl1 st1 _ Hp1 Hfit Hk).
      destruct (Interleaved.log_all _ _ _ _ _ tl1 st1) as [[tl' st']| |]; try done.
      * destruct IH as (Hp' & Hw' & Hr'). rewrite <- app_assoc in Hp'.
        split_and!; try done; congruence.
      * intros (Hfair & Hact & Hf). apply IH. split_and!; try done.
        by apply (worker_active_eq st).
    + unfold Interleaved.log. rewrite Hadm. cbn [bind].
      apply (conveyor_mono k (k + 1)) in Hp; [|lia].
      apply (IH (k + 1) tl st emitted Hp Hfit Hk).
Qed.

End ConveyorProducer.

(** ** The interleaved logger: [flush] and the destructor *)

Section ConveyorShutdown.

Context {S : Type} {SinkS : Sink S}.
Variables sched drift : nat -> nat.
Variable s0 : S.
Variable N : Z.
Implicit Types (st : Interleaved.t S) (tl : Logger.thread_locals)
               (moved : list (list Z)) (todo : nat).

(** the [while (!queue_->empty())] loop of [flush] *)
Lemma wait_empty_transit k fuel : forall moved todo st,
  in_transit s0 N k moved todo st -> k < 2 ^ 64 ->
  match Interleaved.wait_empty sched drift fuel st with
  | Ret st' =>
      (exists d, queue_sink s0 N k d [] (Interleaved.logger_ st') /\
                 moved = d ++ held st') /\
      Logger.worker_ (Interleaved.logger_ st') = Logger.worker_ (Interleaved.logger_ st) /\
      Logger.running_ (Interleaved.logger_ st') = Logger.running_ (Interleaved.logger_ st)
  | Fault => False
  | OutOfFuel => ~ (fair sched /\ worker_active st /\ (todo <= fuel)%nat)
  end.
Proof.
  induction fuel as [|fuel IH]; intros moved todo st Ht Hk;
    cbn [Interleaved.wait_empty];
    destruct (access_transit drift s0 N k moved todo st Ht Hk)
      as (sta & todoa & -> & Hta & Hlea & _ & Hwa & Hra);
    cbn [bind];
    pose proof Hta as (d & p & Hqs & Hm & Htd);
    pose proof Hqs as (q & Hq & Hes & HN & Hh & Hs);
    pose proof (ring_holds_size _ _ _ Hh Hk) as Hsz;
    rewrite Hq; unfold LockFreeRingBuffer.empty; rewrite Hsz;
    destruct p as [|r rest]; simpl.
  - rewrite app_nil_r in Hm. split; [by exists d|done].
  - simpl in Htd. intros (_ & _ & ?). lia.
  - rewrite app_nil_r in Hm. split; [by exists d|done].
  - destruct (suspend_transit sched s0 N k Logger.Yield moved todoa sta Hta Hk)
      as (st1 & todo1 & -> & Ht1 & Hle1 & _ & Hw1 & Hr1 & Hlt1).
    cbn [bind]. specialize (IH moved todo1 st1 Ht1 Hk).
    destruct (Interleaved.wait_empty sched drift fuel st1) as [st'| |]; try done.
    + destruct IH as (Hd & Hw' & Hr'). split; [done|]. split; congruence.
    + intros (Hfair & Hact & Hf). apply IH.
      assert (Hacta : worker_active sta) by (by apply (worker_active_eq st)).
      split; [done|]. split; [by apply (worker_active_eq sta)|].
      specialize (Hlt1 Hfair Hacta). simpl in Htd. lia.
Qed.

(** [flush()] of a logger with a worker: every line emitted so far has
    reached the sink, or is the one the worker holds; the sink is flushed *)
Lemma flush_conveyor k fuel tl st moved todo lines :
  in_transit s0 N k moved todo st -> batch_holds (Logger.batch_ tl) lines ->
  Logger.worker_ (Interleaved.logger_ st) <> Logger.NoWorker ->
  k + Z.of_nat (length lines) < 2 ^ 64 ->
  match Interleaved.flush sched drift fuel tl st with
  | Ret (tl', st') =>
      exists d,
        queue_sink (flush (written s0 d)) N (k + Z.of_nat (length lines)) [] []
                   (Interleaved.logger_ st') /\
        d ++ held st' = moved ++ lines /\
        batch_holds (Logger.batch_ tl') [] /\
        Logger.worker_ (Interleaved.logger_ st') = Logger.worker_ (Interleaved.logger_ st) /\
        Logger.running_ (Interleaved.logger_ st') = Logger.running_ (Interleaved.logger_ st)
  | Fault => False
  | OutOfFuel =>
      ~ (fair sched /\ worker_active st /\ (2 <= fuel)%nat /\
         (todo + 2 * length lines <= fuel)%nat)
  end.
Proof.
  intros Ht Hb Hw Hk. unfold Interleaved.flush, ThreadLocalBatch.size.
  rewrite (bh_count _ _ Hb).
  assert (Hwait : forall tl1 st1 todo1,
    in_transit s0 N (k + Z.of_nat (length lines)) (moved ++ lines) todo1 st1 ->
    batch_holds (Logger.batch_ tl1) [] ->
    Logger.worker_ (Interleaved.logger_ st1) = Logger.worker_ (Interleaved.logger_ st) ->
    Logger.running_ (Interleaved.logger_ st1) = Logger.running_ (Interleaved.logger_ st) ->
    match
      (do st2 <- match Logger.worker_ (Interleaved.logger_ st1) with
                 | Logger.NoWorker => Ret st1
                 | _ => Interleaved.wait_empty sched drift fuel st1
                 end;
       do st3 <- Interleaved.access drift st2;
       Ret (tl1, Interleaved.with_logger st3
                   (Logger.with_sink (Interleaved.logger_ st3)
                      (flush (Logger.sink_ (Interleaved.logger_ st3))))))
    with
    | Ret (tl', st') =>
        exists d,
          queue_sink (flush (written s0 d)) N (k + Z.of_nat (length lines)) [] []
                     (Interleaved.logger_ st') /\
          d ++ held st' = moved ++ lines /\
          batch_holds (Logger.batch_ tl') [] /\
          Logger.worker_ (Interleaved.logger_ st')
          = Logger.worker_ (Interleaved.logger_ st) /\
          Logger.running_ (Interleaved.logger_ st')
          = Logger.running_ (Interleaved.logger_ st)
    | Fault => False
    | OutOfFuel => ~ (fair sched /\ worker_active st /\ (todo1 <= fuel)%nat)
    end).
  { intros tl1 st1 todo1 Ht1 Hb1 Hw1 Hr1.
    pose proof (wait_empty_transit _ fuel _ todo1 st1 Ht1 Hk) as Hwe.
    assert (match Logger.worker_ (Interleaved.logger_ st1) with
            | Logger.NoWorker => Ret st1
            | _ => Interleaved.wait_empty sched drift fuel st1
            end = Interleaved.wait_empty sched drift fuel st1) as ->.
    { destruct (Logger.worker_ (Interleaved.logger_ st1)); congruence. }
    destruct (Interleaved.wait_empty sched drift fuel st1) as [st2| |]; cbn [bind];
      try done.
    - destruct Hwe as ((d2 & Hqs2 & Hm2) & Hw2 & Hr2).
      assert (Ht2 : in_transit s0 N (k + Z.of_nat (length lines)) (moved ++ lines)
                      (length (held st2)) st2).
      { exists d2, []. rewrite app_nil_r. split_and!; try done; simpl; lia. }
      destruct (access_transit drift s0 N _ _ _ st2 Ht2 Hk)
        as (st3 & todo3 & -> & Ht3 & Hle3 & _ & Hw3 & Hr3).
      cbn [bind]. destruct Ht3 as (d3 & p3 & Hqs3 & Hm3 & Htd3).
      assert (p3 = []) as ->.
      { destruct p3; [done|]. unfold held in Hle3.
        destruct (Interleaved.entry_ st2); simpl in *; lia. }
      rewrite app_nil_r in Hm3. exists d3. unfold held in *. simpl.
      split_and!; try done; try congruence.
      destruct Hqs3 as (q & Hq & Hes & HN & Hh & Hs).
      exists q. simpl. split_and!; try done. by rewrite Hs.
    - intros (Hfair & Hact & Hf). apply Hwe. split_and!; try done.
      by apply (worker_active_eq st). }
  destruct lines as [|l lines'].
  - simpl. cbn [bind]. specialize (Hwait tl st todo).
    change (Z.of_nat (length [])) with 0 in *. rewrite Z.add_0_r, app_nil_r in *.
    specialize (Hwait Ht Hb eq_refl eq_refl).
    destruct (bind _ _) as [[tl' st']| |]; try done.
    intros (Hfair & Hact & _ & Hf). apply Hwait. split_and!; try done.
    simpl in Hf. lia.
  - assert ((Z.of_nat (length (l :: lines')) >? 0) = true) as ->.
    { rewrite Z.gtb_ltb. apply Z.ltb_lt. rewrite length_cons. lia. }
    pose proof (flush_batch_transit sched drift s0 N k fuel tl st moved todo
                  (l :: lines') Hb Ht Hk) as Hf.
    destruct (Interleaved.flush_batch sched drift fuel tl st) as [[tl1 st1]| |];
      cbn [bind]; try done.
    + destruct Hf as (todo1 & Ht1 & Hle1 & Hb1 & Hw1 & Hr1).
      specialize (Hwait tl1 st1 todo1 Ht1 Hb1 Hw1 Hr1).
      destruct (bind _ _) as [[tl' st']| |]; try done.
      intros (Hfair & Hact & _ & Hfu). apply Hwait. split_and!; try done. lia.
    + intros (Hfair & Hact & Hf2 & _). apply Hf. done.
Qed.

Lemma access_idle st :
  Interleaved.worker_runs st = false ->
  Interleaved.access drift st
  = Ret {| Interleaved.logger_ := Interleaved.logger_ st;
           Interleaved.entry_ := Interleaved.entry_ st;
           Interleaved.accesses_ := Datatypes.S (Interleaved.accesses_ st) |}.
Proof. intros H. unfold Interleaved.access. by rewrite H. Qed.

(** [~Logger()] run by a thread whose batch is empty *)
Lemma destroy_conveyor k fuel tl st moved todo :
  in_transit s0 N k moved todo st ->
  ThreadLocalBatch.size (Logger.batch_ tl) = 0 ->
  worker_active st -> k < 2 ^ 64 -> (todo < fuel)%nat ->
  exists st',
    Interleaved.destroy sched drift fuel tl st = Ret (tl, st') /\
    queue_sink (flush (written s0 moved)) N k [] [] (Interleaved.logger_ st') /\
    Interleaved.entry_ st' = None /\
    Logger.worker_ (Interleaved.logger_ st') = Logger.WorkerJoined /\
    Logger.running_ (Interleaved.logger_ st') = false /\
    Logger.events_ (Interleaved.logger_ st')
    = Logger.events_ (Interleaved.logger_ st) ++ [Logger.NotifyAll].
Proof.
  intros (d & p & Hqs & Hm & Htd) Hb [Hw Hr] Hk Hf.
  unfold Interleaved.destroy. rewrite Hw.
  set (lg0 := Logger.emit (Logger.with_running (Interleaved.logger_ st) false)
                Logger.NotifyAll).
  assert (Hqs0 : queue_sink s0 N k d p lg0).
  { destruct Hqs as (q & ? & ? & ? & ? & ?). by exists q. }
  assert (Hjoin : exists lg1,
    Interleaved.join fuel (Interleaved.with_logger st lg0)
    = Ret {| Interleaved.logger_ := Logger.with_worker lg1 Logger.WorkerJoined;
             Interleaved.entry_ := None;
             Interleaved.accesses_ := Interleaved.accesses_ st |} /\
    queue_sink s0 N k moved [] lg1 /\
    Logger.events_ lg1 = Logger.events_ lg0 /\
    Logger.running_ lg1 = Logger.running_ lg0).
  { unfold Interleaved.join, held in *. cbn [Interleaved.entry_ Interleaved.with_logger].
    destruct (Interleaved.entry_ st) as [r|] eqn:He.
    - unfold Interleaved.worker_step.
      cbn [Interleaved.entry_ Interleaved.with_logger Interleaved.logger_].
      rewrite He. cbn [bind Interleaved.logger_ Interleaved.accesses_].
      destruct (worker_drain_pipeline N s0 k fuel (d ++ [r]) p
                  (Logger.with_sink lg0 (write (Logger.sink_ lg0) r)))
        as (lg1 & -> & (He1 & _ & _ & Hr1 & _) & Hqs1).
      + destruct Hqs0 as (q & ? & ? & ? & ? & Hs). exists q. simpl.
        split_and!; try done. simpl in Hs. by rewrite written_snoc, Hs.
      + done.
      + simpl in Htd. lia.
      + cbn [bind]. exists lg1. split; [done|]. split; [|done].
        by rewrite Hm, app_assoc.
    - cbn [bind Interleaved.logger_ Interleaved.with_logger Interleaved.accesses_].
      destruct (worker_drain_pipeline N s0 k fuel d p lg0 Hqs0 Hk)
        as (lg1 & -> & (He1 & _ & _ & Hr1 & _) & Hqs1); [simpl in Htd; lia|].
      cbn [bind]. exists lg1. split; [done|]. split; [|done].
      by rewrite Hm. }
  destruct Hjoin as (lg1 & -> & Hqs1 & He1 & Hr1). cbn [bind].
  unfold Interleaved.flush. rewrite Hb. change (0 >? 0) with false. cbv iota.
  cbn [bind Interleaved.logger_ Logger.worker_ Logger.with_worker].
  destruct (queue_sink_empty N s0 k moved lg1 Hqs1 Hk) as (q1 & Hq1 & Hempty).
  assert (Hwe : forall st2,
    Interleaved.worker_runs st2 = false ->
    Logger.queue_ (Interleaved.logger_ st2) = Some q1 ->
    Interleaved.wait_empty sched drift fuel st2
    = Ret {| Interleaved.logger_ := Interleaved.logger_ st2;
             Interleaved.entry_ := Interleaved.entry_ st2;
             Interleaved.accesses_ := Datatypes.S (Interleaved.accesses_ st2) |}).
  { intros st2 Hrun Hq2. destruct fuel; cbn [Interleaved.wait_empty];
      rewrite (access_idle st2 Hrun); cbn [bind Interleaved.logger_];
      by rewrite Hq2, Hempty. }
  rewrite Hwe by done. cbn [bind]. rewrite access_idle by done. cbn [bind].
  eexists. split; [reflexivity|]. simpl. split_and!; try done.
  destruct Hqs1 as (q & Hq & Hes & HN & Hh & Hs).
  exists q. simpl. split_and!; try done. by rewrite Hs.
Qed.

Lemma in_transit_start :
  in_transit s0 65536 0 [] 0 (Interleaved.start (Logger.new s0 true)).
Proof.
  exists [], []. split; [apply queue_sink_new|]. by split.
Qed.

Lemma conveyor_start :
  conveyor s0 65536 0 [] Logger.fresh_thread (Interleaved.start (Logger.new s0 true)).
Proof.
  exists [], O, [], 0. split; [apply in_transit_start|].
  split; [apply batch_holds_new|done].
Qed.

End ConveyorShutdown.

(** [log] for each record, then [flush()], while the worker keeps running *)
Lemma log_all_flush_conveyor {S : Type} {SinkS : Sink S}
        (sched drift : nat -> nat) (s0 : S) (N k : Z) (MinLevel : LogLevel)
        (fuel : nat) (records : list (LogLevel * Z * list Z))
        (emitted : list (list Z))
        (tl : Logger.thread_locals) (st : Interleaved.t S) :
  conveyor s0 N k emitted tl st -> worker_active st -> fair sched ->
  Forall (fun l => Z.of_nat (length l) <= 254) (admitted_lines MinLevel records) ->
  k + Z.of_nat (length records) < 2 ^ 64 ->
  (2 <= fuel)%nat -> (2 * (length emitted + length records) <= fuel)%nat ->
  exists tl1 st1 tl2 st2 delivered k',
    Interleaved.log_all sched drift MinLevel fuel records tl st = Ret (tl1, st1) /\
    Interleaved.flush sched drift fuel tl1 st1 = Ret (tl2, st2) /\
    k' <= k + Z.of_nat (length records) /\
    queue_sink (flush (written s0 delivered)) N k' [] [] (Interleaved.logger_ st2) /\
    delivered ++ held st2 = emitted ++ admitted_lines MinLevel records /\
    batch_holds (Logger.batch_ tl2) [] /\
    worker_active st2.
Proof.
  intros Hp Hact Hfair Hfit Hk Hf2 Hf.
  pose proof (log_all_conveyor sched drift s0 N MinLevel fuel records k tl st emitted
                Hp Hfit Hk) as H.
  destruct (Interleaved.log_all sched drift MinLevel fuel records tl st)
    as [[tl1 st1]| |] eqn:Hlog; [|done|by exfalso; apply H].
  destruct H as ((moved & todo & l1 & kq & Ht1 & Hb1 & Heq1 & Hkq) & Hw1 & Hr1).
  assert (Hact1 : worker_active st1) by (by apply (worker_active_eq st)).
  pose proof (flush_conveyor sched drift s0 N kq fuel tl1 st1 moved todo l1 Ht1 Hb1
                ltac:(destruct Hact1; congruence) ltac:(lia)) as Hfl.
  assert (Hlen : (todo + 2 * length l1 <= fuel)%nat).
  { pose proof (admitted_lines_length MinLevel records).
    destruct (in_transit_todo s0 N kq moved todo st1 Ht1) as [Htd _].
    assert (Hl : length (emitted ++ admitted_lines MinLevel records)
                 = length (moved ++ l1)) by congruence.
    rewrite !length_app in Hl. lia. }
  destruct (Interleaved.flush sched drift fuel tl1 st1) as [[tl2 st2]| |] eqn:Hflush;
    [|done|by exfalso; apply Hfl].
  destruct Hfl as (d & Hqs2 & Hd & Hb2 & Hw2 & Hr2).
  exists tl1, st1, tl2, st2, d, (kq + Z.of_nat (length l1)).
  split; [done|]. split; [done|]. split; [done|]. split; [done|].
  split; [congruence|]. split; [done|]. by apply (worker_active_eq st1).
Qed.

(** ** The interleaved logger end to end *)

(** X5. Logging never loses, duplicates or reorders a line, whatever the
    worker does meanwhile and whenever it does it: after any number of
    [log] calls whose admitted lines have at most 254 bytes, the lines handed
    to the sink, the record the worker holds between its [try_dequeue] and
    its [sink_.write], the records in the queue and the lines in the
    caller's batch are, in that order, exactly the lines emitted so far. The
    calls never fault, and they return when the worker completes a step
    during every suspension of the caller. *)
Theorem log_keeps_every_line_in_order {S : Type} {SinkS : Sink S}
        (sched drift : nat -> nat) (s0 : S) (N k : Z) (MinLevel : LogLevel)
        (fuel : nat) (records : list (LogLevel * Z * list Z))
        (emitted : list (list Z))
        (tl : Logger.thread_locals) (st : Interleaved.t S) :
  conveyor s0 N k emitted tl st ->
  Forall (fun l => Z.of_nat (length l) <= 254) (admitted_lines MinLevel records) ->
  k + Z.of_nat (length records) < 2 ^ 64 ->
  Interleaved.log_all sched drift MinLevel fuel records tl st <> Fault /\
  (forall tl' st',
     Interleaved.log_all sched drift MinLevel fuel records tl st = Ret (tl', st') ->
     exists delivered pend lines q,
       Logger.sink_ (Interleaved.logger_ st') = written s0 delivered /\
       Logger.queue_ (Interleaved.logger_ st') = Some q /\
       ring_holds (k + Z.of_nat (length records)) q pend /\
       batch_holds (Logger.batch_ tl') lines /\
       delivered ++ held st' ++ pend ++ lines
       = emitted ++ admitted_lines MinLevel records) /\
  (fair sched -> worker_active st -> (2 <= fuel)%nat ->
   returns (Interleaved.log_all sched drift MinLevel fuel records tl st)).
Proof.
  intros Hp Hfit Hk.
  pose proof (log_all_conveyor sched drift s0 N MinLevel fuel records k tl st emitted
                Hp Hfit Hk) as H.
  destruct (Interleaved.log_all sched drift MinLevel fuel records tl st)
    as [[tl1 st1]| |]; [|done|].
  - split; [done|]. split.
    + intros tl' st' [= <- <-].
      destruct H as ((moved & todo & l1 & kq & (d & p & (q & Hq & _ & _ & Hh & Hs)
                        & Hm & _) & Hb & Heq & Hkq) & _).
      exists d, p, l1, q. split_and!; try done.
      * apply (ring_holds_mono kq); [lia|done].
      * by rewrite Heq, Hm, <- !app_assoc.
    + intros _ _ _. by eexists.
  - split; [done|]. split; [done|]. intros Hf Hl Hfu. exfalso. by apply H.
Qed.

Lemma log_keeps_every_line_in_order_witness :
  Interleaved.log_all stalled_worker steady_worker INFO 0 sample_records
    Logger.fresh_thread (Interleaved.start (Logger.new capture_sink true)) <> Fault.
Proof.
  refine (proj1 (log_keeps_every_line_in_order stalled_worker steady_worker
                   capture_sink 65536 0 INFO 0 sample_records [] Logger.fresh_thread
                   (Interleaved.start (Logger.new capture_sink true))
                   (conveyor_start capture_sink) _ _)).
  - repeat (apply List.Forall_cons; [apply Z.leb_le; vm_compute; reflexivity|]).
    apply List.Forall_nil.
  - simpl. lia.
Defined.

(** X6. When the worker completes a step during every suspension of the
    caller, [log] for each record followed by [flush()] returns. By then
    every admitted line, whole and in the order of the calls, has been given
    to the sink, except that the last of them may still be in the worker's
    hand, dequeued and not yet written; the sink has been flushed after the
    lines it was given, and the batch and the queue are empty. *)
Theorem flush_delivers_all_but_the_line_in_hand {S : Type} {SinkS : Sink S}
        (sched drift : nat -> nat) (s0 : S) (N k : Z) (MinLevel : LogLevel)
        (fuel : nat) (records : list (LogLevel * Z * list Z))
        (emitted : list (list Z))
        (tl : Logger.thread_locals) (st : Interleaved.t S) :
  conveyor s0 N k emitted tl st -> worker_active st -> fair sched ->
  Forall (fun l => Z.of_nat (length l) <= 254) (admitted_lines MinLevel records) ->
  k + Z.of_nat (length records) < 2 ^ 64 ->
  (2 <= fuel)%nat -> (2 * (length emitted + length records) <= fuel)%nat ->
  exists tl1 st1 tl2 st2 delivered,
    Interleaved.log_all sched drift MinLevel fuel records tl st = Ret (tl1, st1) /\
    Interleaved.flush sched drift fuel tl1 st1 = Ret (tl2, st2) /\
    Logger.sink_ (Interleaved.logger_ st2) = flush (written s0 delivered) /\
    delivered ++ held st2 = emitted ++ admitted_lines MinLevel records /\
    (length (held st2) <= 1)%nat /\
    ThreadLocalBatch.size (Logger.batch_ tl2) = 0 /\
    (exists q, Logger.queue_ (Interleaved.logger_ st2) = Some q /\
               LockFreeRingBuffer.empty q = true) /\
    conveyor (Logger.sink_ (Interleaved.logger_ st2)) N (k + Z.of_nat (length records))
             (held st2) tl2 st2 /\
    worker_active st2.
Proof.
  intros Hp Hact Hfair Hfit Hk Hf2 Hf.
  destruct (log_all_flush_conveyor sched drift s0 N k MinLevel fuel records emitted tl st
              Hp Hact Hfair Hfit Hk Hf2 Hf)
    as (tl1 & st1 & tl2 & st2 & d & k' & Hlog & Hflush & Hk' & Hqs2 & Hd & Hb2 & Hact2).
  assert (Hs2 : Logger.sink_ (Interleaved.logger_ st2) = flush (written s0 d)).
  { by destruct Hqs2 as (q & _ & _ & _ & _ & ->). }
  exists tl1, st1, tl2, st2, d.
  split; [done|]. split; [done|]. split; [done|]. split; [done|]. split.
  { unfold held. destruct (Interleaved.entry_ st2); simpl; lia. }
  split.
  { unfold ThreadLocalBatch.size. by rewrite (bh_count _ _ Hb2). }
  split; [eapply queue_sink_empty; [exact Hqs2|lia]|]. split; [|done].
  exists (held st2), (length (held st2)), [], k'.
  split; [|split; [done|split; [by rewrite app_nil_r|simpl; lia]]].
  exists [], []. rewrite app_nil_r. split; [|split; [done|simpl; lia]].
  destruct Hqs2 as (q & ? & ? & ? & ? & ?). exists q. split_and!; done.
Qed.

Lemma flush_delivers_all_but_the_line_in_hand_witness :
  exists tl1 st1 tl2 st2 delivered,
    Interleaved.log_all steady_worker stalled_worker INFO 6 sample_records
      Logger.fresh_thread (Interleaved.start (Logger.new capture_sink true))
    = Ret (tl1, st1) /\
    Interleaved.flush steady_worker stalled_worker 6 tl1 st1 = Ret (tl2, st2) /\
    Logger.sink_ (Interleaved.logger_ st2) = flush (written capture_sink delivered) /\
    delivered ++ held st2 = [] ++ admitted_lines INFO sample_records.
Proof.
  destruct (flush_delivers_all_but_the_line_in_hand steady_worker stalled_worker
              capture_sink 65536 0 INFO 6 sample_records [] Logger.fresh_thread
              (Interleaved.start (Logger.new capture_sink true))
              (conveyor_start capture_sink))
    as (tl1 & st1 & tl2 & st2 & d & H1 & H2 & H3 & H4 & _).
  - split; reflexivity.
  - intros k. unfold steady_worker. lia.
  - repeat (apply List.Forall_cons; [apply Z.leb_le; vm_compute; reflexivity|]).
    apply List.Forall_nil.
  - simpl. lia.
  - lia.
  - simpl. lia.
  - exists tl1, st1, tl2, st2, d. split; [exact H1|]. split; [exact H2|].
    split; [exact H3|exact H4].
Defined.

(** X15. The whole life of an asynchronous logger used by one thread: when
    the worker completes a step during every suspension of the caller,
    [log] for each record, [flush()] and then the destructor all return. By
    then the sink has been given every admitted line in order; [flush()]
    flushed it after all of them but possibly the last, and the destructor
    again after all of them; the worker has been joined. *)
Theorem log_flush_destroy_delivers_every_line {S : Type} {SinkS : Sink S}
        (sched drift : nat -> nat) (s0 : S) (MinLevel : LogLevel) (fuel : nat)
        (records : list (LogLevel * Z * list Z)) :
  fair sched ->
  Forall (fun l => Z.of_nat (length l) <= 254) (admitted_lines MinLevel records) ->
  Z.of_nat (length records) < 2 ^ 64 ->
  (2 <= fuel)%nat -> (2 * length records <= fuel)%nat ->
  exists tl1 st1 tl2 st2 st3 first rest,
    Interleaved.log_all sched drift MinLevel fuel records Logger.fresh_thread
      (Interleaved.start (Logger.new s0 true)) = Ret (tl1, st1) /\
    Interleaved.flush sched drift fuel tl1 st1 = Ret (tl2, st2) /\
    Interleaved.destroy sched drift fuel tl2 st2 = Ret (tl2, st3) /\
    first ++ rest = admitted_lines MinLevel records /\
    (length rest <= 1)%nat /\
    Logger.sink_ (Interleaved.logger_ st3)
    = flush (written (flush (written s0 first)) rest) /\
    Interleaved.entry_ st3 = None /\
    Logger.worker_ (Interleaved.logger_ st3) = Logger.WorkerJoined /\
    Logger.running_ (Interleaved.logger_ st3) = false.
Proof.
  intros Hfair Hfit Hk Hf2 Hf.
  destruct (log_all_flush_conveyor sched drift s0 65536 0 MinLevel fuel records []
              Logger.fresh_thread (Interleaved.start (Logger.new s0 true))
              (conveyor_start s0))
    as (tl1 & st1 & tl2 & st2 & d & k' & H1 & H2 & Hk' & Hqs & Hd & Hb2 & Hact2);
    try done.
  assert (Hsz : ThreadLocalBatch.size (Logger.batch_ tl2) = 0).
  { unfold ThreadLocalBatch.size. by rewrite (bh_count _ _ Hb2). }
  assert (Hheld : (length (held st2) <= 1)%nat).
  { unfold held. destruct (Interleaved.entry_ st2); simpl; lia. }
  destruct (destroy_conveyor sched drift (flush (written s0 d)) 65536 k' fuel tl2 st2
              (held st2) (length (held st2)))
    as (st3 & H4 & (q & _ & _ & _ & _ & Hs3) & He3 & Hw3 & Hr3 & _); try done; try lia.
  { exists [], []. rewrite app_nil_r. split; [done|]. split; [done|simpl; lia]. }
  exists tl1, st1, tl2, st2, st3, d, (held st2). split_and!; done.
Qed.

Lemma log_flush_destroy_delivers_every_line_witness :
  exists tl1 st1 tl2 st2 st3 first rest,
    Interleaved.log_all steady_worker stalled_worker INFO 6 sample_records
      Logger.fresh_thread (Interleaved.start (Logger.new capture_sink true))
    = Ret (tl1, st1) /\
    Interleaved.flush steady_worker stalled_worker 6 tl1 st1 = Ret (tl2, st2) /\
    Interleaved.destroy steady_worker stalled_worker 6 tl2 st2 = Ret (tl2, st3) /\
    first ++ rest = admitted_lines INFO sample_records /\
    (length rest <= 1)%nat /\
    Logger.sink_ (Interleaved.logger_ st3)
    = flush (written (flush (written capture_sink first)) rest) /\
    Interleaved.entry_ st3 = None /\
    Logger.worker_ (Interleaved.logger_ st3) = Logger.WorkerJoined /\
    Logger.running_ (Interleaved.logger_ st3) = false.
Proof.
  apply (log_flush_destroy_delivers_every_line steady_worker stalled_worker
           capture_sink INFO 6 sample_records).
  - intros k. unfold steady_worker. lia.
  - repeat (apply List.Forall_cons; [apply Z.leb_le; vm_compute; reflexivity|]).
    apply List.Forall_nil.
  - simpl. lia.
  - lia.
  - simpl. lia.
Defined.

(** [fwrite] appends to the stdio buffer *)
Lemma written_stdout runs : forall s : StdoutSink,
  written s runs = {| stdout_buffered := stdout_buffered s ++ concat runs;
                      stdout_flushed := stdout_flushed s |}.
Proof.
  induction runs as [|r runs IH]; intros [b f]; unfold written in *; simpl.
  - by rewrite app_nil_r.
  - rewrite IH. simpl. by rewrite app_assoc.
Qed.

(** X11. The logger made by [stdout_logger_mt] prints everything by the end
    of its life: when the worker completes a step during every suspension
    of the caller, after [log] for each record, [flush()] and the
    destructor, standard output has received exactly the lines of the
    records, whole and in the order of the calls, and nothing is left in the
    stdio buffer. *)
Theorem stdout_logger_prints_every_line (sched drift : nat -> nat) (name : string)
        (fuel : nat) (records : list (LogLevel * Z * list Z)) :
  fair sched ->
  Forall (fun l => Z.of_nat (length l) <= 254) (admitted_lines TRACE records) ->
  Z.of_nat (length records) < 2 ^ 64 ->
  (2 <= fuel)%nat -> (2 * length records <= fuel)%nat ->
  exists tl1 st1 tl2 st2 st3,
    Interleaved.log_all sched drift TRACE fuel records Logger.fresh_thread
      (Interleaved.start (stdout_logger_mt name)) = Ret (tl1, st1) /\
    Interleaved.flush sched drift fuel tl1 st1 = Ret (tl2, st2) /\
    Interleaved.destroy sched drift fuel tl2 st2 = Ret (tl2, st3) /\
    stdout_flushed (Logger.sink_ (Interleaved.logger_ st3))
    = concat (admitted_lines TRACE records) /\
    stdout_buffered (Logger.sink_ (Interleaved.logger_ st3)) = [].
Proof.
  intros Hfair Hfit Hk Hf2 Hf.
  destruct (log_all_flush_conveyor sched drift stdout_init 65536 0 TRACE fuel records []
              Logger.fresh_thread (Interleaved.start (stdout_logger_mt name))
              (conveyor_start stdout_init))
    as (tl1 & st1 & tl2 & st2 & d & k' & H1 & H2 & Hk' & Hqs & Hd & Hb2 & Hact2);
    try done.
  assert (Hsz : ThreadLocalBatch.size (Logger.batch_ tl2) = 0).
  { unfold ThreadLocalBatch.size. by rewrite (bh_count _ _ Hb2). }
  assert (Hheld : (length (held st2) <= 1)%nat).
  { unfold held. destruct (Interleaved.entry_ st2); simpl; lia. }
  destruct (destroy_conveyor sched drift (flush (written stdout_init d)) 65536 k' fuel
              tl2 st2 (held st2) (length (held st2)))
    as (st3 & H4 & (q & _ & _ & _ & _ & Hs3) & _); try done; try lia.
  { exists [], []. rewrite app_nil_r. split; [done|]. split; [done|simpl; lia]. }
  exists tl1, st1, tl2, st2, st3. split; [done|]. split; [done|]. split; [done|].
  rewrite Hs3. unfold written at 1. cbn [fold_left].
  rewrite !written_stdout. simpl in *. by rewrite <- concat_app, Hd.
Qed.

Lemma stdout_logger_prints_every_line_witness :
  exists tl1 st1 tl2 st2 st3,
    Interleaved.log_all steady_worker stalled_worker TRACE 6 sample_records
      Logger.fresh_thread (Interleaved.start (stdout_logger_mt "app")) = Ret (tl1, st1) /\
    Interleaved.flush steady_worker stalled_worker 6 tl1 st1 = Ret (tl2, st2) /\
    Interleaved.destroy steady_worker stalled_worker 6 tl2 st2 = Ret (tl2, st3) /\
    stdout_flushed (Logger.sink_ (Interleaved.logger_ st3))
    = concat (admitted_lines TRACE sample_records) /\
    stdout_buffered (Logger.sink_ (Interleaved.logger_ st3)) = [].
Proof.
  apply (stdout_logger_prints_every_line steady_worker stalled_worker "app" 6
           sample_records).
  - intros k. unfold steady_worker. lia.
  - repeat (apply List.Forall_cons; [apply Z.leb_le; vm_compute; reflexivity|]).
    apply List.Forall_nil.
  - simpl. lia.
  - lia.
  - simpl. lia.
Defined.

(** X16. [flush()] can return before the last line is written. With a
    worker that completes one step during every suspension of the caller
    and none in between, one admitted record followed by [flush()]: the
    caller enqueues the line and finds the queue not empty, yields, the
    worker dequeues the line, the caller finds the queue empty, flushes the
    sink and returns. The sink has then been given nothing, and the line is
    in the worker's hand. *)
Theorem flush_can_return_before_the_last_write {S : Type} {SinkS : Sink S}
        (s0 : S) (L : LogLevel) (ns : Z) (payload : list Z) (fuel : nat) :
  Z.of_nat (length (Logger.render L ns payload)) <= 254 ->
  (2 <= fuel)%nat ->
  exists tl1 st1 tl2 st2,
    Interleaved.log steady_worker stalled_worker TRACE L fuel ns payload
      Logger.fresh_thread (Interleaved.start (Logger.new s0 true)) = Ret (tl1, st1) /\
    Interleaved.flush steady_worker stalled_worker fuel tl1 st1 = Ret (tl2, st2) /\
    Logger.sink_ (Interleaved.logger_ st2) = flush s0 /\
    Interleaved.entry_ st2 = Some (Logger.render L ns payload) /\
    (exists q, Logger.queue_ (Interleaved.logger_ st2) = Some q /\
               LockFreeRingBuffer.empty q = true).
Proof.
  intros Hlen Hfuel.
  pose proof (render_length L ns payload) as Hlen1.
  set (line := Logger.render L ns payload) in *.
  destruct fuel as [|[|fuel]]; [lia|lia|].
  (* log: the line goes to the batch *)
  pose proof (try_add_holds _ [] line batch_holds_new ltac:(lia)) as Ha.
  change (Z.of_nat (length []) <? ThreadLocalBatch.BATCH_SIZE) with true in Ha.
  cbv iota in Ha. destruct Ha as (b1 & Hadd & Hb1). simpl app in Hb1.
  assert (Hlog : Interleaved.log steady_worker stalled_worker TRACE L
                   (Datatypes.S (Datatypes.S fuel)) ns payload Logger.fresh_thread
                   (Interleaved.start (Logger.new s0 true))
                 = Ret ({| Logger.format_buf_ := line; Logger.batch_ := b1 |},
                        Interleaved.start (Logger.new s0 true))).
  { unfold Interleaved.log.
    assert ((level_to_int L >=? level_to_int TRACE) = true) as -> by (by destruct L).
    fold line. cbn [Interleaved.logger_ Interleaved.start Logger.queue_ Logger.new
                    Logger.batch_ Logger.fresh_thread].
    rewrite Hadd. reflexivity. }
  destruct (bh_entries _ _ Hb1 O line eq_refl) as [_ [Htr Hrd]].
  destruct (take_tail_from _ _ _ Hrd) as [Htake Hdata].
  change (Z.of_nat 0) with 0 in *.
  set (data := Mem.tail_from (ThreadLocalBatch.batch_ b1) (ThreadLocalBatch.index b1 0))
    in *.
  pose proof (ring_holds_new 256 65536 ltac:(lia) ltac:(lia) ltac:(lia) ltac:(lia))
    as Hh0.
  pose proof (try_enqueue_holds 0 _ [] data (Z.of_nat (length line)) Hh0
                ltac:(lia) ltac:(simpl; lia) Hdata) as He.
  change (Z.of_nat (length []) <?
          LockFreeRingBuffer.max_entries_ (LockFreeRingBuffer.new 256 65536))
    with true in He. cbv iota in He.
  destruct He as (q1 & Henq & Hh1). rewrite Nat2Z.id, Htake in Hh1. simpl app in Hh1.
  pose proof (try_enqueue_geometry _ _ _ _ _ Henq) as [HN1 Hes1].
  pose proof (try_dequeue_holds (0 + 1) q1 [line] O 256 Hh1 ltac:(lia)
                ltac:(rewrite Hes1; simpl; lia)) as (q2 & Hdeq & Hh2).
  pose proof (ring_holds_size _ _ _ Hh1 ltac:(lia)) as Hsz1.
  pose proof (ring_holds_size _ _ _ Hh2 ltac:(lia)) as Hsz2.
  exists {| Logger.format_buf_ := line; Logger.batch_ := b1 |},
    (Interleaved.start (Logger.new s0 true)).
  eexists _, _.
  split; [exact Hlog|].
  unfold Interleaved.flush. cbn [Logger.batch_]. unfold ThreadLocalBatch.size at 1.
  rewrite (bh_count _ _ Hb1). change (Z.of_nat (length [line]) >? 0) with true.
  cbv iota. unfold Interleaved.flush_batch. cbn [Logger.batch_].
  unfold ThreadLocalBatch.size at 1. rewrite (bh_count _ _ Hb1).
  change (Z.to_nat (Z.of_nat (length [line]))) with 1%nat.
  cbn [Interleaved.flush_entries]. fold data. rewrite Htr. cbn [bind].
  set (lg0 := Logger.new s0 true).
  set (sA := {| Interleaved.logger_ := Logger.with_queue lg0 q1;
                Interleaved.entry_ := None; Interleaved.accesses_ := 1 |}).
  assert (HA : Interleaved.enqueue_with_backoff steady_worker stalled_worker
                 (Datatypes.S (Datatypes.S fuel)) 0 data (Z.of_nat (length line))
                 (Interleaved.start lg0) = Ret sA).
  { cbn [Interleaved.enqueue_with_backoff]. unfold Interleaved.access.
    change (Interleaved.worker_runs (Interleaved.start lg0)) with true. cbv iota.
    unfold stalled_worker. cbn [Interleaved.worker_steps bind Interleaved.logger_].
    change (Logger.queue_ (Interleaved.logger_ (Interleaved.start lg0)))
      with (Some (LockFreeRingBuffer.new 256 65536)).
    cbv iota. rewrite Henq. reflexivity. }
  set (lgC := Logger.with_queue
                (Logger.tick (Logger.emit (Logger.with_queue lg0 q1) Logger.Yield)) q2).
  set (sD := {| Interleaved.logger_ := lgC;
                Interleaved.entry_ := Some line; Interleaved.accesses_ := 3 |}).
  assert (HD : Interleaved.wait_empty steady_worker stalled_worker
                 (Datatypes.S (Datatypes.S fuel)) sA = Ret sD).
  { cbn [Interleaved.wait_empty]. unfold Interleaved.access.
    change (Interleaved.worker_runs sA) with true. cbv iota.
    unfold stalled_worker. cbn [Interleaved.worker_steps bind Interleaved.logger_].
    change (Logger.queue_ (Interleaved.logger_ sA)) with (Some q1). cbv iota.
    unfold LockFreeRingBuffer.empty. rewrite Hsz1.
    change (Z.of_nat (length [line]) =? 0) with false. cbv iota.
    unfold Interleaved.suspend.
    match goal with |- context [Interleaved.worker_runs ?s] =>
      change (Interleaved.worker_runs s) with true end.
    cbv iota. unfold steady_worker. cbn [Interleaved.worker_steps].
    unfold Interleaved.worker_step. unfold sA.
    cbn [Interleaved.entry_ Interleaved.with_logger Interleaved.logger_ Logger.queue_
         Logger.tick Logger.emit Logger.with_queue].
    rewrite Hdeq. cbn [bind Interleaved.wait_empty]. unfold Interleaved.access.
    match goal with |- context [Interleaved.worker_runs ?s] =>
      change (Interleaved.worker_runs s) with true end.
    cbv iota. cbn [Interleaved.worker_steps bind Interleaved.logger_ Logger.queue_
                   Logger.with_queue Interleaved.accesses_].
    unfold LockFreeRingBuffer.empty. rewrite Hsz2.
    change (Z.of_nat (length []) =? 0) with true. cbv iota. reflexivity. }
  rewrite HA. cbn [bind].
  change (ThreadLocalBatch.size (ThreadLocalBatch.clear b1) >? 0) with false.
  cbv iota. cbn [bind].
  change (Logger.worker_ (Interleaved.logger_ sA)) with Logger.WorkerRunning.
  cbv iota. rewrite HD. cbn [bind]. unfold Interleaved.access.
  change (Interleaved.worker_runs sD) with true. cbv iota.
  unfold stalled_worker. cbn [Interleaved.worker_steps bind].
  split; [reflexivity|]. split; [reflexivity|]. split; [reflexivity|].
  exists q2. split; [reflexivity|].
  unfold LockFreeRingBuffer.empty. by rewrite Hsz2.
Qed.

Lemma flush_can_return_before_the_last_write_witness :
  exists tl1 st1 tl2 st2,
    Interleaved.log steady_worker stalled_worker TRACE INFO 2 5 (bytes_of_string "hi")
      Logger.fresh_thread (Interleaved.start (Logger.new capture_sink true))
    = Ret (tl1, st1) /\
    Interleaved.flush steady_worker stalled_worker 2 tl1 st1 = Ret (tl2, st2) /\
    Logger.sink_ (Interleaved.logger_ st2) = flush capture_sink /\
    Interleaved.entry_ st2 = Some (Logger.render INFO 5 (bytes_of_string "hi")).
Proof.
  destruct (flush_can_return_before_the_last_write capture_sink INFO 5
              (bytes_of_string "hi") 2)
    as (tl1 & st1 & tl2 & st2 & H1 & H2 & H3 & H4 & _).
  - apply Z.leb_le. vm_compute. reflexivity.
  - lia.
  - exists tl1, st1, tl2, st2. split; [exact H1|]. split; [exact H2|].
    split; [exact H3|exact H4].
Defined.
